(** * A shallow embedding of the [tree] package (directory tree model and
      mirror operations) and of the [checksum] helper it calls.

    The Go program keeps a pointer graph of [Node]s whose [table] maps are
    shared by reference; the embedding therefore uses an explicit store:
    nodes live in a heap addressed by natural numbers, maps live in a
    second store addressed by map identifiers, and every function of the
    source becomes a state transformer that may panic. *)

From Stdlib Require Import ZArith Lia Ascii String.
From Stdlib.Strings Require Import Byte.
From stdpp Require Import base option list gmap strings fin_maps.

Open Scope string_scope.
Open Scope list_scope.

#[local] Set Warnings "-register-all".

(* ===================================================================== *)
(** * path/filepath (Unix) *)
(* ===================================================================== *)

Module filepath.

Definition is_sep (c : ascii) : bool := Ascii.eqb c "/"%char.

(** [strings.Split(s, "/")]. *)
Fixpoint elements (s : string) : list string :=
  match s with
  | EmptyString => [EmptyString]
  | String c s' =>
      if is_sep c then EmptyString :: elements s'
      else match elements s' with
           | e :: es => String c e :: es
           | [] => [String c EmptyString]
           end
  end.

(** [strings.Join(es, "/")]. *)
Fixpoint join_sep (es : list string) : string :=
  match es with
  | [] => ""
  | [e] => e
  | e :: es' => e +:+ "/" +:+ join_sep es'
  end.

Definition IsAbs (p : string) : bool :=
  match p with
  | String c _ => is_sep c
  | EmptyString => false
  end.

(** One iteration of the loop of [Clean], on a whole path element: [stk]
    is the output buffer, most recent element first. *)
Definition clean_step (rooted : bool) (stk : list string) (e : string)
  : list string :=
  if String.eqb e "" then stk
  else if String.eqb e "." then stk
  else if String.eqb e ".." then
    match stk with
    | top :: rest =>
        if String.eqb top ".." then (if rooted then stk else ".." :: stk)
        else rest
    | [] => if rooted then [] else [".."]
    end
  else e :: stk.

Definition norm (p : string) : list string :=
  reverse (fold_left (clean_step (IsAbs p)) (elements p) []).

Definition render (rooted : bool) (es : list string) : string :=
  if rooted then "/" +:+ join_sep es
  else match es with
       | [] => "."
       | _ => join_sep es
       end.

Definition Clean (p : string) : string :=
  if String.eqb p "" then "." else render (IsAbs p) (norm p).

(** [Join] of two elements. *)
Definition Join (a b : string) : string :=
  if negb (String.eqb a "") then Clean (a +:+ "/" +:+ b)
  else if negb (String.eqb b "") then Clean b
  else "".

(** The prefix of [s] up to and including its last separator. *)
Fixpoint upto_last_sep (s : string) : string :=
  match s with
  | EmptyString => EmptyString
  | String c s' =>
      let r := upto_last_sep s' in
      if is_sep c then String c r
      else if String.eqb r "" then "" else String c r
  end.

Definition Dir (p : string) : string := Clean (upto_last_sep p).

(** [Abs], given the result of [os.Getwd]. *)
Definition Abs (cwd : option string) (p : string) : option string :=
  if IsAbs p then Some (Clean p)
  else match cwd with
       | Some wd => Some (Join wd p)
       | None => None
       end.

Fixpoint has_sep (s : string) : bool :=
  match s with
  | EmptyString => false
  | String c s' => is_sep c || has_sep s'
  end.

(** A name that [os.ReadDir] can report for a directory entry. *)
Definition valid_name (nm : string) : bool :=
  negb (String.eqb nm "") && negb (String.eqb nm ".")
  && negb (String.eqb nm "..") && negb (has_sep nm).

End filepath.

(* ===================================================================== *)
(** * Data model *)
(* ===================================================================== *)

(** ** Go's [int] (64 bits, two's complement) and [os.FileMode] bits *)

Definition wrap_int (z : Z) : Z := ((z + 2 ^ 63) mod 2 ^ 64 - 2 ^ 63)%Z.

Definition ModeDir : Z := Z.shiftl 1 31.
Definition ModeSymlink : Z := Z.shiftl 1 27.
Definition ModePerm : Z := 511.      (* 0o777 *)

Definition Mode_IsDir (m : Z) : bool := negb (Z.eqb (Z.land m ModeDir) 0).
Definition Mode_Perm (m : Z) : Z := Z.land m ModePerm.

(** ** Errors *)

(** Error numbers the environment can inject at any call (the fault oracle
    of the world below), and the ones the file system model produces. *)
Inductive Fault := EACCES | EPERM | ENOSPC | EIO | EROFS.
Inductive Errno := ENOENT | ENOTDIR | EISDIR | Efault (f : Fault).

(** [errors.Is(e, os.ErrNotExist)] *)
Definition IsNotExist (e : Errno) : bool :=
  match e with ENOENT => true | _ => false end.

Inductive Exception :=
| ExceptionNilNode
| ExceptionInvalidFileNode
| ExceptionInvalidDirectoryNode
| ExceptionInvalidDirectory.

(** The value carried by a [panic]. *)
Inductive PanicValue :=
| PanicException (e : Exception)
| PanicError (e : Errno)
| PanicString (s : string)
| PanicNilDeref            (* runtime error: nil dereference, nil map write *)
| PanicStackOverflow.      (* unbounded recursion *)

(** ** Nodes *)

Abbreviation addr := nat.     (* a [*Node] *)
Abbreviation mapid := nat.    (* the identity of a [map[string]*Node] *)

Abbreviation Descriptor := string.
Definition File : Descriptor := "FILE".
Definition Directory : Descriptor := "DIRECTORY".
Definition Symbolic : Descriptor := "SYMBOLIC".

(** [Nodes] holds node values (copies), not references. *)
Inductive Node : Type := mkNode {
  parent : option addr;
  table : option mapid;
  depth : Z;
  content : option (list byte);
  Path : string;
  Dirname : string;
  Name : string;
  Type_ : Descriptor;
  Checksum : option string;
  Nodes : list Node
}.

Definition set_link (nd : Node) (p : addr) (d : Z) (t : mapid) : Node :=
  mkNode (Some p) (Some t) d (content nd) (Path nd) (Dirname nd) (Name nd)
         (Type_ nd) (Checksum nd) (Nodes nd).
Definition set_content (nd : Node) (b : list byte) : Node :=
  mkNode (parent nd) (table nd) (depth nd) (Some b) (Path nd) (Dirname nd)
         (Name nd) (Type_ nd) (Checksum nd) (Nodes nd).
Definition set_Type (nd : Node) (t : Descriptor) : Node :=
  mkNode (parent nd) (table nd) (depth nd) (content nd) (Path nd) (Dirname nd)
         (Name nd) t (Checksum nd) (Nodes nd).
Definition set_Checksum (nd : Node) (c : option string) : Node :=
  mkNode (parent nd) (table nd) (depth nd) (content nd) (Path nd) (Dirname nd)
         (Name nd) (Type_ nd) c (Nodes nd).
Definition set_Nodes (nd : Node) (l : list Node) : Node :=
  mkNode (parent nd) (table nd) (depth nd) (content nd) (Path nd) (Dirname nd)
         (Name nd) (Type_ nd) (Checksum nd) l.

(** ** The scanned directory hierarchy

    What lies on disk below the root path while the tree is built.  An
    entry carries the type bits [os.ReadDir] reports for it and what an
    access through its path finds: a regular file, a directory, or a
    failure (a dangling link, an unreadable object). *)

Record DirEntryOf (A : Type) := mkDirEntry {
  entry_Name : string;
  entry_Type : Z;
  entry_target : A
}.
Arguments mkDirEntry {A} _ _ _.
Arguments entry_Name {A} _.
Arguments entry_Type {A} _.
Arguments entry_target {A} _.

Inductive FsObj : Type :=
| Regular (data : list byte)
| Folder (entries : list (DirEntryOf FsObj))
| Failing (e : Errno).

Abbreviation DirEntry := (DirEntryOf FsObj).

(** ** The process world: working directory and a path-indexed file system
    with injectable faults, used by the mirror operations. *)

Record fobj := mkfobj { f_mode : Z; f_data : list byte }.

Inductive Request :=
| ReqGetwd
| ReqStat (path : string)
| ReqReadDir (path : string)
| ReqChecksum (receiver : addr) (path : string)
| ReqReadFile (path : string)
| ReqMkdirAll (path : string) (perm : Z)
| ReqWriteFile (path : string) (data : list byte) (perm : Z)
| ReqRemoveAll (path : string)
| ReqPrintf (path : string) (e : Errno).

Record World := mkWorld {
  cwd : string;
  umask : Z;
  files : gmap (list string) fobj;    (* keyed by absolute path elements *)
  fault : nat -> Request -> option Fault
}.

(** One external call and whether it failed. *)
Record Event := mkEvent { ev_req : Request; ev_err : option Errno }.

Record State := mkState {
  heap : list Node;
  maps : list (gmap string addr);
  calls : list Event;
  world : World
}.

Definition set_heap (st : State) (h : list Node) : State :=
  mkState h (maps st) (calls st) (world st).
Definition set_maps (st : State) (m : list (gmap string addr)) : State :=
  mkState (heap st) m (calls st) (world st).
Definition set_files (st : State) (f : gmap (list string) fobj) : State :=
  mkState (heap st) (maps st) (calls st)
          (mkWorld (cwd (world st)) (umask (world st)) f (fault (world st))).
Definition log (st : State) (r : Request) (e : option Errno) : State :=
  mkState (heap st) (maps st) (calls st ++ [mkEvent r e]) (world st).

(** ** Computations that may panic *)

Inductive Outcome (A : Type) :=
| Return (a : A) (st : State)
| Panicked (p : PanicValue) (st : State).
Arguments Return {A} _ _.
Arguments Panicked {A} _ _.

Definition M (A : Type) := State -> Outcome A.

Definition ret {A} (a : A) : M A := fun st => Return a st.
Definition panic {A} (p : PanicValue) : M A := fun st => Panicked p st.
Definition bind {A B} (m : M A) (k : A -> M B) : M B :=
  fun st => match m st with
            | Return a st' => k a st'
            | Panicked p st' => Panicked p st'
            end.

Notation "'let!' x ':=' m 'in' k" := (bind m (fun x => k))
  (at level 10, x name, m at level 100, k at level 200).
Notation "'do!' m 'in' k" := (bind m (fun _ => k))
  (at level 10, m at level 100, k at level 200).

Definition final {A} (o : Outcome A) : State :=
  match o with Return _ st => st | Panicked _ st => st end.

(** Heap access.  Dereferencing an address that holds no node is a nil
    dereference. *)
Definition deref (a : addr) : M Node :=
  fun st => match heap st !! a with
            | Some nd => Return nd st
            | None => Panicked PanicNilDeref st
            end.

Definition store (a : addr) (f : Node -> Node) : M unit :=
  fun st => match heap st !! a with
            | Some nd => Return tt (set_heap st (<[a := f nd]> (heap st)))
            | None => Panicked PanicNilDeref st
            end.

(** [&Node{...}] *)
Definition alloc (nd : Node) : M addr :=
  fun st => Return (length (heap st)) (set_heap st (heap st ++ [nd])).

(** [map[string]*Node{}] *)
Definition new_map : M mapid :=
  fun st => Return (length (maps st)) (set_maps st (maps st ++ [∅])).

(** [if _, valid := t[k]; !valid { t[k] = v }] on the map [id]. *)
Definition reg (ms : list (gmap string addr)) (id : mapid) (k : string)
           (v : addr) : list (gmap string addr) :=
  match ms !! id with
  | Some m =>
      match m !! k with
      | Some _ => ms
      | None => <[id := <[k := v]> m]> ms
      end
  | None => ms
  end.

(** Reading a nil map finds nothing, writing to it panics. *)
Definition register (t : option mapid) (k : string) (v : addr) : M unit :=
  fun st =>
    match t with
    | None => Panicked PanicNilDeref st
    | Some id =>
        match maps st !! id with
        | None => Panicked PanicNilDeref st
        | Some _ => Return tt (set_maps st (reg (maps st) id k v))
        end
    end.

Definition is_nil {A} (o : option A) : bool :=
  match o with None => true | Some _ => false end.

Definition emit (r : Request) (e : option Errno) : M unit :=
  fun st => Return tt (log st r e).

(* ===================================================================== *)
(** * The operating system *)
(* ===================================================================== *)

Record FileInfo := mkFileInfo { fi_Name : string; fi_Mode : Z }.

(** [basename] of package [os]: trailing separators are removed, then
    everything up to the last separator. *)
Fixpoint drop_seps (l : list ascii) : list ascii :=
  match l with
  | c :: (_ :: _) as l' => if filepath.is_sep c then drop_seps l' else l
  | _ => l
  end.

Definition basename (name : string) : string :=
  let s := string_of_list_ascii
             (reverse (drop_seps (reverse (list_ascii_of_string name)))) in
  if String.eqb s "/" then s else List.last (filepath.elements s) "".

(** The elements of the absolute path that [p] denotes. *)
Definition resolve (w : World) (p : string) : list string :=
  filepath.norm (if filepath.IsAbs p then p else filepath.Join (cwd w) p).

Definition is_dir (o : fobj) : bool := Mode_IsDir (f_mode o).

(** Path lookup from the directory at [pre] along [rest]. *)
Fixpoint locate (fs : gmap (list string) fobj) (pre rest : list string)
  : Errno + fobj :=
  match fs !! pre with
  | None => inl ENOENT
  | Some o =>
      match rest with
      | [] => inr o
      | c :: rest' =>
          if is_dir o then locate fs (pre ++ [c]) rest' else inl ENOTDIR
      end
  end.

Definition new_dir (w : World) (perm : Z) : fobj :=
  mkfobj (Z.lor ModeDir (Z.land (Mode_Perm perm) (Z.lnot (umask w)))) [].

Definition new_file (w : World) (perm : Z) (data : list byte) : fobj :=
  mkfobj (Z.land (Mode_Perm perm) (Z.lnot (umask w))) data.

(** [MkdirAll]: existing directories on the way are kept as they are,
    missing ones are created with [perm]. *)
Fixpoint mkdir_all (w : World) (fs : gmap (list string) fobj)
         (pre rest : list string) (perm : Z)
  : Errno + gmap (list string) fobj :=
  match fs !! pre with
  | Some o =>
      if is_dir o then
        match rest with
        | [] => inr fs
        | c :: rest' => mkdir_all w fs (pre ++ [c]) rest' perm
        end
      else inl ENOTDIR
  | None =>
      let fs' := <[pre := new_dir w perm]> fs in
      match rest with
      | [] => inr fs'
      | c :: rest' => mkdir_all w fs' (pre ++ [c]) rest' perm
      end
  end.

(** [WriteFile]: open with O_WRONLY|O_CREATE|O_TRUNC, then write. *)
Definition write_file (w : World) (p : list string) (data : list byte)
           (perm : Z) : Errno + gmap (list string) fobj :=
  match locate (files w) [] (removelast p) with
  | inl e => inl e
  | inr d =>
      if negb (is_dir d) then inl ENOTDIR
      else match files w !! p with
           | Some o =>
               if is_dir o then inl EISDIR
               else inr (<[p := mkfobj (f_mode o) data]> (files w))
           | None => inr (<[p := new_file w perm data]> (files w))
           end
  end.

Definition remove_all (w : World) (p : list string)
  : Errno + gmap (list string) fobj :=
  match locate (files w) [] p with
  | inl ENOENT => inr (files w)
  | inl e => inl e
  | inr _ => inr (filter (fun kv => ¬ p `prefix_of` kv.1) (files w))
  end.

(** A call first consults the fault oracle, then the file system; it is
    recorded in the log with its error. *)
Definition oscall {A} (r : Request)
           (sem : World -> Errno + (A * gmap (list string) fobj))
  : M (Errno + A) :=
  fun st =>
    match fault (world st) (length (calls st)) r with
    | Some f => Return (inl (Efault f)) (log st r (Some (Efault f)))
    | None =>
        match sem (world st) with
        | inl e => Return (inl e) (log st r (Some e))
        | inr (a, fs) => Return (inr a) (log (set_files st fs) r None)
        end
    end.

Definition os_Getwd : M (Errno + string) :=
  oscall ReqGetwd (fun w => inr (cwd w, files w)).

Definition os_Stat (path : string) : M (Errno + FileInfo) :=
  oscall (ReqStat path) (fun w =>
    if String.eqb path "" then inl ENOENT
    else match locate (files w) [] (resolve w path) with
         | inl e => inl e
         | inr o => inr (mkFileInfo (basename path) (f_mode o), files w)
         end).

Definition os_ReadFile (path : string) : M (Errno + list byte) :=
  oscall (ReqReadFile path) (fun w =>
    if String.eqb path "" then inl ENOENT
    else match locate (files w) [] (resolve w path) with
         | inl e => inl e
         | inr o => if is_dir o then inl EISDIR else inr (f_data o, files w)
         end).

Definition os_MkdirAll (path : string) (perm : Z) : M (Errno + unit) :=
  oscall (ReqMkdirAll path perm) (fun w =>
    if String.eqb path "" then inl ENOENT
    else match mkdir_all w (files w) [] (resolve w path) perm with
         | inl e => inl e
         | inr fs => inr (tt, fs)
         end).

Definition os_WriteFile (path : string) (data : list byte) (perm : Z)
  : M (Errno + unit) :=
  oscall (ReqWriteFile path data perm) (fun w =>
    if String.eqb path "" then inl ENOENT
    else match write_file w (resolve w path) data perm with
         | inl e => inl e
         | inr fs => inr (tt, fs)
         end).

Definition os_RemoveAll (path : string) : M (Errno + unit) :=
  oscall (ReqRemoveAll path) (fun w =>
    if String.eqb path "" then inr (tt, files w)
    else match remove_all w (resolve w path) with
         | inl e => inl e
         | inr fs => inr (tt, fs)
         end).

(* ===================================================================== *)
(** * The program *)
(* ===================================================================== *)

Section Program.

(** The digest of [crypto/sha256], printed with [%x]. *)
Variable sha256_hex : list byte -> string.

(** The order in which the runtime visits the entries of a map in a
    [range] loop; the language leaves it unspecified. *)
Variable range_order : list (string * addr) -> list (string * addr).

(** ** Environment calls made while the tree is built *)

(** The error of [os.ReadDir(path)], where [disk] is what lies at [path];
    on success the entries are those of the folder. *)
Definition os_ReadDir_err (disk : FsObj) : option Errno :=
  match disk with
  | Folder _ => None
  | Regular _ => Some ENOTDIR
  | Failing e => Some e
  end.

(** [checksum.SHA256(filepath)], where [disk] is what lies at
    [filepath]; [receiver] is the node the digest is computed for. *)
Definition checksum_SHA256 (receiver : addr) (filepath : string)
           (disk : FsObj) : M (option string) :=
  match disk with
  | Regular data =>
      do! emit (ReqChecksum receiver filepath) None in
      ret (Some (sha256_hex data))
  | Folder _ =>
      do! emit (ReqChecksum receiver filepath) (Some EISDIR) in
      panic (PanicError EISDIR)
  | Failing e =>
      do! emit (ReqChecksum receiver filepath) (Some e) in
      panic (PanicError e)
  end.

(** ** Navigation *)

Fixpoint Root_rec (fuel : nat) (h : list Node) (n : addr) : option addr :=
  match fuel with
  | O => None
  | S fuel' =>
      match h !! n with
      | None => None
      | Some nd =>
          match parent nd with
          | None => Some n
          | Some r => Root_rec fuel' h r
          end
      end
  end.

(** [n.Root()].  A parent is allocated before its children, so following
    parent references from [n] takes at most [n] steps. *)
Definition Root (n : addr) : M addr :=
  fun st =>
    match heap st !! n with
    | None => Panicked PanicNilDeref st
    | Some _ =>
        match Root_rec (S n) (heap st) n with
        | Some r => Return r st
        | None => Panicked PanicStackOverflow st
        end
    end.

Definition Parent (n : addr) : M (option addr) :=
  let! nd := deref n in ret (parent nd).

(** [n.Table()] and [n.Map()] return a map reference. *)
Definition Table (n : addr) : M (option mapid) :=
  let! nd := deref n in ret (table nd).

Definition Map (n : addr) : M (option mapid) :=
  let! r := Root n in
  let! rd := deref r in
  ret (table rd).

Definition URI (n : addr) : M string :=
  let! nd := deref n in
  if filepath.IsAbs (Path nd) then ret (filepath.Clean (Path nd))
  else
    let! wd := os_Getwd in
    match wd with
    | inr d => ret (filepath.Join d (Path nd))
    | inl _ =>
        panic (PanicString
          "Invalid Path - Unable to Calculate Full-System, Absolute Path")
    end.

(** ** Construction *)

(** First half of [n.add(child)]: the child is linked to its parent
    and its subtree or digest is computed; [walk_child] is
    [child.walk()]. *)
Definition attach (walk_child : addr -> M unit) (disk : FsObj)
           (n child : addr) : M unit :=
  let! nd := deref n in
  let! t := new_map in
  do! store child (fun c => set_link c n (wrap_int (depth nd + 1)) t) in
  let! c := deref child in
  if String.eqb (Type_ c) Directory then walk_child child
  else if String.eqb (Type_ c) File then
    let! uri := URI child in
    let! sum := checksum_SHA256 child uri disk in
    store child (fun c => set_Checksum c sum)
  else ret tt.

(** Second half of [n.add(child)]: the child is registered in the
    root table and in the table of [n], and a copy of it is appended
    to [n.Nodes]. *)
Definition enroll (n child : addr) : M unit :=
  (* update root table *)
  let! r := Root n in
  let! rd := deref r in
  let! c := deref child in
  do! register (table rd) (Path c) child in
  (* update current node table *)
  let! nd := deref n in
  do! register (table nd) (Path c) child in
  let! c := deref child in
  let! nd := deref n in
  store n (fun x => set_Nodes x (Nodes nd ++ [c])).

Definition add (walk_child : addr -> M unit) (disk : FsObj)
           (n child : addr) : M unit :=
  do! attach walk_child disk n child in enroll n child.

(** The type tag [walk] gives an entry. *)
Definition classify (entry : DirEntry) : Descriptor :=
  if Z.eqb (Z.land (entry_Type entry) ModeSymlink) ModeSymlink then Symbolic
  else if Mode_IsDir (entry_Type entry) then Directory
  else File.

(** The body of the loop of [walk] for one entry. *)
Definition walk_entry (walk_rec : FsObj -> addr -> M unit) (n : addr)
           (entry : DirEntry) : M unit :=
  let! nd := deref n in
  let name := entry_Name entry in
  let path := filepath.Join (Path nd) name in
  let dirname := filepath.Dir path in
  let! child := alloc (mkNode None None 0 None path dirname name ""
                              None []) in
  do! store child (fun c => set_Type c (classify entry)) in
  add (walk_rec (entry_target entry)) (entry_target entry) n child.

Definition walk_entries (walk_rec : FsObj -> addr -> M unit) (n : addr)
  : list DirEntry -> M unit :=
  fix loop (entries : list DirEntry) : M unit :=
    match entries with
    | [] => ret tt
    | entry :: rest =>
        do! walk_entry walk_rec n entry in loop rest
    end.

(** [n.walk()], where [disk] is what lies at [n.Path]. *)
Fixpoint walk (disk : FsObj) (n : addr) {struct disk} : M unit :=
  let! nd := deref n in
  do! emit (ReqReadDir (Path nd)) (os_ReadDir_err disk) in
  match disk with
  | Folder entries => walk_entries walk n entries
  | Regular _ => emit (ReqPrintf (Path nd) ENOTDIR) None
  | Failing e => emit (ReqPrintf (Path nd) e) None
  end.

(** [New(path)], where [disk] is the hierarchy that the scan finds at
    [path]. *)
Definition New (path : string) (disk : FsObj) : M addr :=
  let! descriptor := os_Stat path in
  match descriptor with
  | inl _ => panic (PanicException ExceptionInvalidDirectory)
  | inr fi =>
      if negb (Mode_IsDir (fi_Mode fi)) then
        panic (PanicException ExceptionInvalidDirectory)
      else
        let dirname := filepath.Dir (fi_Name fi) in
        let! t := new_map in
        let! root := alloc (mkNode None (Some t) 0 None path dirname
                                   (fi_Name fi) Directory None []) in
        do! walk disk root in
        ret root
  end.

(** ** Queries *)

Definition Permissions (n : addr) : M Z :=
  let! nd := deref n in
  let! info := os_Stat (Path nd) in
  match info with
  | inl e => panic (PanicError e)
  | inr fi => ret (Mode_Perm (fi_Mode fi))
  end.

(** [for _, node := range n.Table()]: the entries in visiting order; a
    nil map has none. *)
Definition range_Table (n : addr) : M (list (string * addr)) :=
  let! t := Table n in
  match t with
  | None => ret []
  | Some id =>
      fun st => match maps st !! id with
                | Some m => Return (range_order (map_to_list m)) st
                | None => Panicked PanicNilDeref st
                end
  end.

Fixpoint select (d : Descriptor) (l : list (string * addr))
  : M (list addr) :=
  match l with
  | [] => ret []
  | (_, node) :: l' =>
      let! nd := deref node in
      let! partials := select d l' in
      ret (if String.eqb (Type_ nd) d then node :: partials else partials)
  end.

Definition Files (n : addr) : M (list addr) :=
  let! l := range_Table n in select File l.

Definition Directories (n : addr) : M (list addr) :=
  let! l := range_Table n in select Directory l.

(** ** Content accessor *)

(** [n.read()]; [n] may be nil. *)
Definition read (n : option addr) : M unit :=
  match n with
  | None => ret tt
  | Some a =>
      let! nd := deref a in
      if String.eqb (Type_ nd) File && is_nil (content nd) then
        let! uri := URI a in
        let! buffer := os_ReadFile uri in
        match buffer with
        | inl e => panic (PanicError e)
        | inr b => store a (fun x => set_content x b)
        end
      else ret tt
  end.

(** [n.Contents()] returns a pair of a byte slice and an error. *)
Definition Contents (n : option addr)
  : M (option (list byte) * option Exception) :=
  match n with
  | None => ret (None, Some ExceptionNilNode)
  | Some a =>
      let! nd := deref a in
      if negb (String.eqb (Type_ nd) File) then
        ret (None, Some ExceptionInvalidFileNode)
      else
        do! read n in
        let! nd := deref a in
        ret (content nd, None)
  end.

(** ** Mirror operations *)

Fixpoint for_each {A} (l : list A) (body : A -> M unit) : M unit :=
  match l with
  | [] => ret tt
  | x :: l' => do! body x in for_each l' body
  end.

Definition bytes_of (b : option (list byte)) : list byte :=
  match b with Some l => l | None => [] end.

(** The loop body shared by the three operations for a directory. *)
Definition mirror_directory (destination : string) (directory : addr)
  : M unit :=
  let! d := deref directory in
  let target := filepath.Join destination (Path d) in
  let! perm := Permissions directory in
  let! e := os_MkdirAll target perm in
  match e with
  | inl e => panic (PanicError e)
  | inr _ => ret tt
  end.

(** The loop body of [Replicate] and [Replace] for a file, and what
    [Copy] does once the target is found missing. *)
Definition write_target (target : string) (file : addr) : M unit :=
  let! r := Contents (Some file) in
  match r with
  | (_, Some e) => panic (PanicException e)
  | (contents, None) =>
      let! perm := Permissions file in
      let! e := os_WriteFile target (bytes_of contents) perm in
      match e with
      | inl e => panic (PanicError e)
      | inr _ => ret tt
      end
  end.

Definition Copy (n : addr) (destination : string) : M unit :=
  let! directories := Directories n in
  let! files := Files n in
  do! for_each directories (mirror_directory destination) in
  for_each files (fun file =>
    let! f := deref file in
    let target := filepath.Join destination (Path f) in
    let! exception := os_Stat target in
    match exception with
    | inl e => if IsNotExist e then write_target target file else ret tt
    | inr _ => ret tt
    end).

Definition Replicate (n : addr) (destination : string) : M unit :=
  let! directories := Directories n in
  let! files := Files n in
  do! for_each directories (mirror_directory destination) in
  for_each files (fun file =>
    let! f := deref file in
    let target := filepath.Join destination (Path f) in
    write_target target file).

Definition exists_ (path : string) : M bool :=
  let! r := os_Stat path in
  match r with
  | inr _ => ret true
  | inl e => if IsNotExist e then ret false else ret false
  end.

Definition Replace (n : addr) (destination : string) : M unit :=
  let! found := exists_ destination in
  do! (if found then
         let! e := os_RemoveAll destination in
         match e with
         | inl e => panic (PanicError e)
         | inr _ => ret tt
         end
       else ret tt) in
  let! directories := Directories n in
  let! files := Files n in
  do! for_each directories (mirror_directory destination) in
  for_each files (fun file =>
    let! f := deref file in
    let target := filepath.Join destination (Path f) in
    write_target target file).

End Program.

(* ===================================================================== *)
(** * Specification vocabulary *)
(* ===================================================================== *)





(** [h'] has the nodes of [h] with the same parents. *)
Definition parents_agree (h h' : list Node) : Prop :=
  forall a nd, h !! a = Some nd ->
               exists nd', h' !! a = Some nd' /\ parent nd' = parent nd.


(** [m] leaves the world as it is. *)
Definition same_world {A} (m : M A) : Prop :=
  forall st, world (final (m st)) = world st.

(** [m] leaves every object of the file system as it is (it may add
    objects). *)
Definition keeps_files {A} (m : M A) : Prop :=
  forall st, files (world st) ⊆ files (world (final (m st))).





(* ===================================================================== *)
(** * The construction as a relation between states *)
(* ===================================================================== *)

(** The node that [walk] creates for [entry] below the node [n] with
    record [nd], once [add] has linked it and given it the table [t]. *)
Definition fresh_node (n : addr) (nd : Node) (t : mapid) (entry : DirEntry)
  : Node :=
  let name := entry_Name entry in
  let path := filepath.Join (Path nd) name in
  mkNode (Some n) (Some t) (wrap_int (depth nd + 1)) None path
         (filepath.Dir path) name (classify entry) None [].

(** The state in which [walk] calls [n.add(child)] for [entry]: the child
    has been allocated and tagged, and nothing else. *)
Definition allocated (st : State) (nd : Node) (entry : DirEntry) : State :=
  let name := entry_Name entry in
  let path := filepath.Join (Path nd) name in
  set_heap st (heap st ++ [mkNode None None 0 None path (filepath.Dir path)
                                  name (classify entry) None []]).

(** The state after the allocation and linking of that node. *)
Definition created (st : State) (n : addr) (nd : Node) (entry : DirEntry)
  : State :=
  set_maps
    (set_heap st (heap st ++ [fresh_node n nd (length (maps st)) entry]))
    (maps st ++ [∅]).

(** The state after the registration of [child], with record [c], below
    [n], with record [nd]; [tr] is the table of the root, [tn] the table
    of [n]. *)
Definition enrolled (st : State) (n child : addr) (nd c : Node)
           (tr tn : mapid) : State :=
  set_heap
    (set_maps st (reg (reg (maps st) tr (Path c) child) tn (Path c) child))
    (<[n := set_Nodes nd (Nodes nd ++ [c])]> (heap st)).

Section Construction.

Variable sha256_hex : list byte -> string.

Inductive Walk : FsObj -> addr -> State -> State -> Prop :=
| Walk_folder entries n nd st st' :
    heap st !! n = Some nd ->
    WalkEntries entries n (log st (ReqReadDir (Path nd)) None) st' ->
    Walk (Folder entries) n st st'
| Walk_error disk n nd e st :
    heap st !! n = Some nd ->
    os_ReadDir_err disk = Some e ->
    Walk disk n st
         (log (log st (ReqReadDir (Path nd)) (Some e))
              (ReqPrintf (Path nd) e) None)
with WalkEntries : list DirEntry -> addr -> State -> State -> Prop :=
| WalkEntries_nil n st : WalkEntries [] n st st
| WalkEntries_cons entry rest n st st1 st' :
    WalkEntry entry n st st1 ->
    WalkEntries rest n st1 st' ->
    WalkEntries (entry :: rest) n st st'
with WalkEntry : DirEntry -> addr -> State -> State -> Prop :=
| WalkEntry_intro entry n nd st st1 r rd c nd1 tr tn :
    heap st !! n = Some nd ->
    Fill entry (length (heap st)) (created st n nd entry) st1 ->
    Root_rec (S n) (heap st1) n = Some r ->
    heap st1 !! r = Some rd ->
    table rd = Some tr ->
    is_Some (maps st1 !! tr) ->
    heap st1 !! length (heap st) = Some c ->
    heap st1 !! n = Some nd1 ->
    table nd1 = Some tn ->
    is_Some (maps st1 !! tn) ->
    WalkEntry entry n st (enrolled st1 n (length (heap st)) nd1 c tr tn)
with Fill : DirEntry -> addr -> State -> State -> Prop :=
| Fill_directory entry child st st1 :
    classify entry = Directory ->
    Walk (entry_target entry) child st st1 ->
    Fill entry child st st1
| Fill_file entry child st uri st1 c data :
    classify entry = File ->
    URI child st = Return uri st1 ->
    entry_target entry = Regular data ->
    heap st1 !! child = Some c ->
    Fill entry child st
         (set_heap (log st1 (ReqChecksum child uri) None)
                   (<[child := set_Checksum c (Some (sha256_hex data))]>
                      (heap st1)))
| Fill_symbolic entry child st :
    classify entry = Symbolic ->
    Fill entry child st st.

End Construction.

Scheme Walk_mind := Minimality for Walk Sort Prop
  with WalkEntries_mind := Minimality for WalkEntries Sort Prop
  with WalkEntry_mind := Minimality for WalkEntry Sort Prop
  with Fill_mind := Minimality for Fill Sort Prop.

(* ===================================================================== *)
(** * Invariants of the construction *)
(* ===================================================================== *)

(** [nd'] is [nd] up to its snapshot sequence and its digest. *)
Definition node_kept (nd nd' : Node) : Prop :=
  exists l ck, nd' = set_Checksum (set_Nodes nd l) ck.

(** From [st] to [st'] the heap and the map store only grow: among the
    nodes of [st] only [n] is touched, and only as [node_kept] allows;
    no map entry is removed or overwritten; the world is as it was. *)
Record evolves (n : addr) (st st' : State) : Prop := {
  ev_len : length (heap st) <= length (heap st');
  ev_old : forall a, a < length (heap st) -> a <> n ->
                     heap st' !! a = heap st !! a;
  ev_at : forall nd, heap st !! n = Some nd ->
                     exists nd', heap st' !! n = Some nd' /\ node_kept nd nd';
  ev_mlen : length (maps st) <= length (maps st');
  ev_maps : forall id m, maps st !! id = Some m ->
                         exists m', maps st' !! id = Some m' /\ m ⊆ m';
  ev_world : world st' = world st;
  ev_calls : exists evs, calls st' = calls st ++ evs
}.

Combined Scheme Walk_mutind
  from Walk_mind, WalkEntries_mind, WalkEntry_mind, Fill_mind.

Definition has_tag (nd : Node) : Prop :=
  Type_ nd = File \/ Type_ nd = Directory \/ Type_ nd = Symbolic.

(** A node carries one of the three tags, and a digest exactly if it is
    a file; [deep_ok] says so of a node value and of every value nested
    in its snapshot sequence. *)
Definition node_ok (nd : Node) : Prop :=
  has_tag nd /\ (is_Some (Checksum nd) <-> Type_ nd = File).

Fixpoint deep_ok (nd : Node) : Prop :=
  node_ok nd /\
  match nd with
  | mkNode _ _ _ _ _ _ _ _ _ l =>
      (fix all (l : list Node) : Prop :=
         match l with
         | [] => True
         | v :: l' => deep_ok v /\ all l'
         end) l
  end.

(** The shape of the tree whose root is the node [h0] with table [m0]:
    every later node hangs below an earlier node of the tree, owns a
    table of its own, and every entry of a table of the tree is a node of
    the tree, filed under its path, in the table of the root or in the
    table of its parent. *)
Record tree_inv (h0 m0 : nat) (st : State) : Prop := {
  inv_root : exists rd, heap st !! h0 = Some rd /\ parent rd = None /\
                        table rd = Some m0 /\ depth rd = 0%Z /\
                        Type_ rd = Directory /\ Checksum rd = None;
  inv_m0 : m0 < length (maps st);
  inv_node : forall a nd, h0 < a -> heap st !! a = Some nd ->
    exists p pd t,
      parent nd = Some p /\ h0 <= p < a /\ heap st !! p = Some pd /\
      table nd = Some t /\ m0 < t < length (maps st) /\
      depth nd = wrap_int (depth pd + 1) /\
      Path nd = filepath.Join (Path pd) (Name nd) /\
      has_tag nd /\ (is_Some (Checksum nd) -> Type_ nd = File);
  inv_inj : forall a b nda ndb,
    h0 <= a -> h0 <= b -> heap st !! a = Some nda -> heap st !! b = Some ndb ->
    table nda = table ndb -> a = b;
  inv_entry : forall id m k c,
    m0 <= id -> maps st !! id = Some m -> m !! k = Some c ->
    exists cd p pd,
      h0 < c /\ heap st !! c = Some cd /\ Path cd = k /\
      parent cd = Some p /\ heap st !! p = Some pd /\
      (id = m0 \/ table pd = Some id);
  inv_snap : forall a nd, h0 <= a -> heap st !! a = Some nd ->
                          Forall deep_ok (Nodes nd)
}.

(** The node [a] is registered in the global index [m0], and has its
    digest if it is a file. *)
Definition settled (m0 : mapid) (st : State) (a : addr) : Prop :=
  exists nd m b,
    heap st !! a = Some nd /\ maps st !! m0 = Some m /\
    m !! Path nd = Some b /\
    (Type_ nd = File -> is_Some (Checksum nd)).

(** What the construction from [st] to [st'] guarantees: the shape of the
    tree, and that every node it has added is settled. *)
Definition tree_post (h0 m0 : nat) (st st' : State) : Prop :=
  tree_inv h0 m0 st' /\
  forall a, length (heap st) <= a < length (heap st') -> settled m0 st' a.

(** The root node that [New] allocates, and the state in which it starts
    the scan: [st] is the state after the [Stat] of the root path. *)
Definition root_node (path : string) (fi : FileInfo) (t : mapid) : Node :=
  mkNode None (Some t) 0 None path (filepath.Dir (fi_Name fi)) (fi_Name fi)
         Directory None [].

Definition planted (st : State) (path : string) (fi : FileInfo) : State :=
  set_heap (set_maps st (maps st ++ [∅]))
           (heap st ++ [root_node path fi (length (maps st))]).

(** The number of digest computations for the node [a] among [evs]. *)
Fixpoint checksum_calls (a : addr) (evs : list Event) : nat :=
  match evs with
  | [] => 0
  | ev :: evs' =>
      match ev_req ev with
      | ReqChecksum r _ =>
          if Nat.eqb r a then S (checksum_calls a evs')
          else checksum_calls a evs'
      | _ => checksum_calls a evs'
      end
  end.

(** From [st] to [st'] the digest has been computed once for every file
    node at an address from [lo] on, and for no other node. *)
Definition counted (lo : addr) (st st' : State) : Prop :=
  exists evs,
    calls st' = calls st ++ evs /\
    forall a,
      checksum_calls a evs
      = match heap st' !! a with
        | Some nd =>
            if Nat.leb lo a && String.eqb (Type_ nd) File then 1 else 0
        | None => 0
        end.

(** The nesting of the directories that the scan enters. *)
Fixpoint height (disk : FsObj) : nat :=
  match disk with
  | Folder entries =>
      S ((fix hs (es : list DirEntry) : nat :=
            match es with
            | [] => 0
            | entry :: es' =>
                Nat.max (if String.eqb (classify entry) Directory
                         then height (entry_target entry) else 0)
                        (hs es')
            end) entries)
  | _ => 0
  end.

Definition entry_height (entry : DirEntry) : nat :=
  if String.eqb (classify entry) Directory then height (entry_target entry)
  else 0.

Fixpoint entries_height (es : list DirEntry) : nat :=
  match es with
  | [] => 0
  | entry :: es' => Nat.max (entry_height entry) (entries_height es')
  end.

(** Every node added from [st] to [st'] has a depth in [(d, d + h)]. *)
Definition deeper (d : Z) (h : nat) (st st' : State) : Prop :=
  forall a x, length (heap st) <= a -> heap st' !! a = Some x ->
              (d < depth x <= d + Z.of_nat h)%Z.

(** The output buffer of [Clean], most recent element first: names, on
    top of the [..] elements that a relative path starts with. *)
Definition canon (b : bool) (stk : list string) : Prop :=
  exists re k, stk = re ++ replicate k ".."
               /\ Forall (fun e => filepath.valid_name e = true) re
               /\ (b = true -> k = 0).

(** Every entry that the scan meets has a name that a directory listing
    can report. *)
Fixpoint names_ok (disk : FsObj) : bool :=
  match disk with
  | Folder entries =>
      (fix all (es : list DirEntry) : bool :=
         match es with
         | [] => true
         | entry :: es' =>
             filepath.valid_name (entry_Name entry)
             && (if String.eqb (classify entry) Directory
                 then names_ok (entry_target entry) else true)
             && all es'
         end) entries
  | _ => true
  end.

Definition entry_names_ok (entry : DirEntry) : bool :=
  filepath.valid_name (entry_Name entry)
  && (if String.eqb (classify entry) Directory
      then names_ok (entry_target entry) else true).

Fixpoint entries_names_ok (es : list DirEntry) : bool :=
  match es with
  | [] => true
  | entry :: es' => entry_names_ok entry && entries_names_ok es'
  end.

(** The path [p] lies strictly below the path [r]. *)
Definition beneath (r p : string) : Prop :=
  exists nms, nms <> [] /\ filepath.norm p = filepath.norm r ++ nms.

(** Every node added from [st] to [st'] has a path below [r]. *)
Definition all_beneath (r : string) (st st' : State) : Prop :=
  forall a x, length (heap st) <= a -> heap st' !! a = Some x ->
              beneath r (Path x).

(* ===================================================================== *)
(** * Scope of the mirror operations *)
(* ===================================================================== *)






(** Every entry of the table of [n] is a direct child of [n]. *)
Definition children_table (st : State) (n : addr) : Prop :=
  forall nd id m k c,
    heap st !! n = Some nd -> table nd = Some id -> maps st !! id = Some m ->
    m !! k = Some c ->
    exists cd, heap st !! c = Some cd /\ parent cd = Some n.



(* ===================================================================== *)
(** * A populated subtree *)
(* ===================================================================== *)

Section Populated.

Variable sha256_hex : list byte -> string.

(** The node has the digest of the file it stands for, or none. *)
Definition digest_ok (v : Node) (entry : DirEntry) : Prop :=
  if String.eqb (Type_ v) File then
    exists data, entry_target entry = Regular data /\
                 Checksum v = Some (sha256_hex data)
  else Checksum v = None.

(** The live node [ci] with record [v] stands for [entry] of the
    directory of node [c] with record [nd]: it is linked, named, typed
    and registered in the table of [c] and in the global index [gidx];
    [sub] says what holds of its own subtree. *)
Definition child_ok (gidx : mapid) (st : State) (c : addr) (nd : Node)
           (hi ci : addr) (v : Node) (entry : DirEntry) (sub : Prop)
  : Prop :=
  heap st !! ci = Some v /\ c < ci < hi /\
  parent v = Some c /\ Name v = entry_Name entry /\
  Path v = filepath.Join (Path nd) (entry_Name entry) /\
  Type_ v = classify entry /\ digest_ok v entry /\
  (exists t m, table nd = Some t /\ maps st !! t = Some m /\
               is_Some (m !! Path v)) /\
  (exists g, maps st !! gidx = Some g /\ is_Some (g !! Path v)) /\
  sub.

(** The subtree of the node [c] is complete for what lies on [disk]: the
    snapshot sequence of [c] has, in the order of the listing, the value
    of a live, registered node for every entry, and the subtree of every
    directory among them is complete in turn.  The nodes of the subtree
    have addresses from [c] up to [hi]. *)
Fixpoint populated (gidx : mapid) (st : State) (c hi : addr) (disk : FsObj)
         {struct disk} : Prop :=
  match disk with
  | Folder entries =>
      exists nd, heap st !! c = Some nd /\
        (fix all (vs : list Node) (es : list DirEntry) {struct es} : Prop :=
           match es, vs with
           | [], [] => True
           | entry :: es', v :: vs' =>
               (exists ci,
                   child_ok gidx st c nd hi ci v entry
                     (if String.eqb (classify entry) Directory
                      then populated gidx st ci hi (entry_target entry)
                      else Nodes v = []))
               /\ all vs' es'
           | _, _ => False
           end) (Nodes nd) entries
  | _ => exists nd, heap st !! c = Some nd /\ Nodes nd = []
  end.

Definition entry_populated (gidx : mapid) (st : State) (c : addr)
           (nd : Node) (hi : addr) (v : Node) (entry : DirEntry) : Prop :=
  exists ci,
    child_ok gidx st c nd hi ci v entry
      (if String.eqb (classify entry) Directory
       then populated gidx st ci hi (entry_target entry)
       else Nodes v = []).

Fixpoint entries_populated (gidx : mapid) (st : State) (c : addr)
         (nd : Node) (hi : addr) (vs : list Node) (es : list DirEntry)
         {struct es} : Prop :=
  match es, vs with
  | [], [] => True
  | entry :: es', v :: vs' =>
      entry_populated gidx st c nd hi v entry
      /\ entries_populated gidx st c nd hi vs' es'
  | _, _ => False
  end.



End Populated.

(** What lies from [lo] up to [hi] in the heap of [st] is in [st'] as it
    is, and no map entry of [st] is lost. *)
Definition preserved (lo hi : addr) (st st' : State) : Prop :=
  (forall a, lo <= a < hi -> a < length (heap st) ->
             heap st' !! a = heap st !! a)
  /\ (forall id m, maps st !! id = Some m ->
                   exists m', maps st' !! id = Some m' /\ m ⊆ m').


(* ===================================================================== *)
(** * Search, and the outcomes of a construction *)
(* ===================================================================== *)

(** [strings.Contains(s, substr)]. *)
Fixpoint Contains (s substr : string) : bool :=
  String.prefix substr s
  || match s with
     | EmptyString => false
     | String _ s' => Contains s' substr
     end.

(** [n.Search(descriptor)]: the nodes of the table of [n] whose key has
    [descriptor] as a substring, in visiting order. *)
Definition Search (range_order : list (string * addr) ->
                                 list (string * addr))
           (n : addr) (descriptor : string) : M (list addr) :=
  let! l := range_Table range_order n in
  ret (map snd (List.filter (fun kv => Contains (fst kv) descriptor) l)).

(** What [n.add(child)] does between linking the child and registering
    it: the branch on the tag of the child. *)
Definition fill_body (sha256_hex : list byte -> string)
           (walk_rec : FsObj -> addr -> M unit) (entry : DirEntry)
           (child : addr) : M unit :=
  if String.eqb (classify entry) Directory
  then walk_rec (entry_target entry) child
  else if String.eqb (classify entry) File
       then let! uri := URI child in
            let! sum := checksum_SHA256 sha256_hex child uri
                                        (entry_target entry) in
            store child (fun c => set_Checksum c sum)
       else ret tt.

(** Every file that the scan of [disk] computes a digest for can be
    read: an entry that is neither a symbolic link nor a directory is a
    regular file.  Directories need not be listable. *)
Fixpoint readable (disk : FsObj) : bool :=
  match disk with
  | Folder entries =>
      (fix all (es : list DirEntry) : bool :=
         match es with
         | [] => true
         | entry :: es' =>
             (if String.eqb (classify entry) Directory
              then readable (entry_target entry)
              else if String.eqb (classify entry) File
                   then match entry_target entry with
                        | Regular _ => true
                        | _ => false
                        end
                   else true)
             && all es'
         end) entries
  | _ => true
  end.

Definition entry_readable (entry : DirEntry) : bool :=
  if String.eqb (classify entry) Directory
  then readable (entry_target entry)
  else if String.eqb (classify entry) File
       then match entry_target entry with
            | Regular _ => true
            | _ => false
            end
       else true.

(** The panics of a construction that has found its root directory: the
    error of a digest computation, or the message of [URI]. *)
Definition scan_panic (p : PanicValue) : Prop :=
  (exists e, p = PanicError e)
  \/ p = PanicString
           "Invalid Path - Unable to Calculate Full-System, Absolute Path".

Definition scan_outcome {A} (o : Outcome A) : Prop :=
  match o with
  | Return _ _ => True
  | Panicked p _ => scan_panic p
  end.

(** No call to [os.Getwd] fails in [w]. *)
Definition getwd_works (w : World) : Prop :=
  forall i, fault w i ReqGetwd = None.

(** Only directories have children: a node of the tree from [h0] on that
    is not a directory has no snapshot and an empty table, and the parent
    of a node is a directory. *)
Definition leaves_ok (h0 : addr) (st : State) : Prop :=
  forall a nd, h0 <= a -> heap st !! a = Some nd ->
    (Type_ nd <> Directory ->
       Nodes nd = [] /\
       forall t m, table nd = Some t -> maps st !! t = Some m -> m = ∅)
    /\ (forall p pd, parent nd = Some p -> heap st !! p = Some pd ->
                     Type_ pd = Directory).

(** What the scan of [disk] from a node of the tree with root [h0]
    comes to: it returns or panics as [scan_outcome] allows, and it
    returns if every file can be read and [os.Getwd] works. *)
Definition walk_good (sha256_hex : list byte -> string) (h0 m0 : nat)
           (disk : FsObj) : Prop :=
  forall n st,
    tree_inv h0 m0 st -> h0 <= n < length (heap st) ->
    scan_outcome (walk sha256_hex disk n st)
    /\ (readable disk = true -> getwd_works (world st) ->
        exists st', walk sha256_hex disk n st = Return tt st').

(** Every node added from [st] to [st'] carries the directory of its own
    path, and a name that a directory listing can report. *)
Definition named (st st' : State) : Prop :=
  forall a x, length (heap st) <= a -> heap st' !! a = Some x ->
    Dirname x = filepath.Dir (Path x)
    /\ filepath.valid_name (Name x) = true.

(** Every object of [fs] is in [fs'] with the same mode, and is the same
    object if it is a directory. *)
Definition modes_kept (fs fs' : gmap (list string) fobj) : Prop :=
  forall p o, fs !! p = Some o ->
    exists o', fs' !! p = Some o' /\ f_mode o' = f_mode o
               /\ (is_dir o = true -> o' = o).

Definition keeps_modes {A} (m : M A) : Prop :=
  forall st, modes_kept (files (world st)) (files (world (final (m st)))).

(** The object at [p] has been written for a file node among [l]: it is
    a regular file that holds the bytes cached in a node [g] of [l] whose
    target below [destination] is [p]. *)
Definition written (l : list addr) (st : State) (destination : string)
           (p : list string) : Prop :=
  exists g gd data o,
    g ∈ l /\ heap st !! g = Some gd /\ content gd = Some data
    /\ resolve (world st) (filepath.Join destination (Path gd)) = p
    /\ files (world st) !! p = Some o
    /\ f_data o = data /\ is_dir o = false.

(** From [st] to [st'] the working directory is the same, every node is
    still there with its path and tag, and a cache that is filled stays
    as it is. *)
Definition caches_grow (st st' : State) : Prop :=
  cwd (world st') = cwd (world st)
  /\ forall a x, heap st !! a = Some x ->
       exists x', heap st' !! a = Some x' /\ Path x' = Path x
                  /\ Type_ x' = Type_ x
                  /\ (forall d, content x = Some d -> content x' = Some d).


(** The loop body of [Replicate] for a file. *)
Definition replicate_file (destination : string) (file : addr) : M unit :=
  let! f := deref file in
  let target := filepath.Join destination (Path f) in
  write_target target file.

(** No directory that the scan lists has two entries of the same name. *)
Fixpoint distinct_names (disk : FsObj) : bool :=
  match disk with
  | Folder entries =>
      (fix all (es : list DirEntry) : bool :=
         match es with
         | [] => true
         | entry :: es' =>
             forallb (fun e' => negb (String.eqb (entry_Name entry)
                                                 (entry_Name e'))) es'
             && (if String.eqb (classify entry) Directory
                 then distinct_names (entry_target entry) else true)
             && all es'
         end) entries
  | _ => true
  end.

Definition entry_distinct (entry : DirEntry) : bool :=
  if String.eqb (classify entry) Directory
  then distinct_names (entry_target entry) else true.

Fixpoint entries_distinct (es : list DirEntry) : bool :=
  match es with
  | [] => true
  | entry :: es' =>
      forallb (fun e' => negb (String.eqb (entry_Name entry)
                                          (entry_Name e'))) es'
      && entry_distinct entry && entries_distinct es'
  end.

(** Among the nodes from [lo] on, two nodes with the same parent and the
    same name are one node. *)
Definition siblings_distinct (lo : addr) (st : State) : Prop :=
  forall a b x y,
    lo <= a -> lo <= b -> heap st !! a = Some x -> heap st !! b = Some y ->
    parent x = parent y -> Name x = Name y -> a = b.

(** Every node from [lo] on is a child of [n] with one of the [names], or
    a child of an earlier node from [lo] on. *)
Definition hangs (n lo : addr) (names : list string) (st : State) : Prop :=
  forall a x, lo <= a -> heap st !! a = Some x ->
    (parent x = Some n /\ Name x ∈ names)
    \/ (exists p, parent x = Some p /\ lo <= p < a).

(** Every node from [lo] on is filed under its path in the table of its
    parent. *)
Definition tabled (lo : addr) (st : State) : Prop :=
  forall a x, lo <= a -> heap st !! a = Some x ->
    exists p pd t m b,
      parent x = Some p /\ heap st !! p = Some pd /\ table pd = Some t
      /\ maps st !! t = Some m /\ m !! Path x = Some b.

(* ===================================================================== *)
(** * A concrete directory *)
(* ===================================================================== *)

(** The objects of [o], placed at [pre] in a file system: files with
    mode 0644, directories with mode 0755. *)
Fixpoint mount (pre : list string) (o : FsObj)
         (fs : gmap (list string) fobj) {struct o}
  : gmap (list string) fobj :=
  match o with
  | Regular data => <[pre := mkfobj 420 data]> fs
  | Folder entries =>
      fold_right
        (fun entry acc =>
           mount (pre ++ [entry_Name entry]) (entry_target entry) acc)
        (<[pre := mkfobj (Z.lor ModeDir 493) []]> fs) entries
  | Failing _ => fs
  end.

(** [src/a.txt] and [src/b/c.txt]. *)
Definition example_disk : FsObj :=
  Folder [ mkDirEntry "a.txt" 0 (Regular [x68; x69]);
           mkDirEntry "b" ModeDir
                      (Folder [ mkDirEntry "c.txt" 0 (Regular [x63]) ]) ].

Definition example_files : gmap (list string) fobj :=
  mount ["work"; "src"] example_disk
        (<[ ["work"] := mkfobj (Z.lor ModeDir 493) [] ]>
           (<[ [] := mkfobj (Z.lor ModeDir 493) [] ]> ∅)).

(** A process in [/work] with umask 022, and no failing call. *)
Definition example_world : World :=
  mkWorld "/work" 18 example_files (fun _ _ => None).

Definition example_state : State := mkState [] [] [] example_world.

(** A stand-in for the digest function. *)
Definition example_digest (data : list byte) : string :=
  "sha256:" +:+ string_of_list_byte data.

(** The tree of [example_disk]: the root is node 0, [src/a.txt] node 1,
    [src/b] node 2 and [src/b/c.txt] node 3. *)
Definition example_tree : State :=
  final (New example_digest "src" example_disk example_state).




(** A symbolic link, whatever lies behind it. *)
Definition example_link (target : FsObj) : DirEntry :=
  mkDirEntry "link" (Z.lor ModeSymlink 511) target.

(** The tree of [example_disk] where the destination [dst] already holds
    a file [src/a.txt] with other content. *)
Definition occupied_tree : State :=
  set_files example_tree
    (mount ["work"; "dst"]
       (Folder [ mkDirEntry "src" ModeDir
                   (Folder [ mkDirEntry "a.txt" 0
                                        (Regular [x6f; x6c; x64]) ]) ])
       (files (world example_tree))).



(* ===================================================================== *)
(** * Reasoning about computations *)
(* ===================================================================== *)

Lemma bind_Return {A B} (m : M A) (k : A -> M B) st b st' :
  bind m k st = Return b st' <->
  exists a st1, m st = Return a st1 /\ k a st1 = Return b st'.
Proof.
  unfold bind. split.
  - destruct (m st) as [a st1|p st1]; [eauto | discriminate].
  - intros (a & st1 & -> & H). exact H.
Qed.

Lemma bind_step {A B} (m : M A) (k : A -> M B) st a st1 :
  m st = Return a st1 -> bind m k st = k a st1.
Proof. unfold bind. intros ->. reflexivity. Qed.

Lemma bind_panic {A B} (m : M A) (k : A -> M B) st p st1 :
  m st = Panicked p st1 -> bind m k st = Panicked p st1.
Proof. unfold bind. intros ->. reflexivity. Qed.

Lemma deref_Return a st nd st' :
  deref a st = Return nd st' <-> heap st !! a = Some nd /\ st' = st.
Proof.
  unfold deref. destruct (heap st !! a); split.
  - intros [= -> ->]; auto.
  - intros [[= ->] ->]; auto.
  - discriminate.
  - intros [[=] _].
Qed.

Lemma deref_step a st nd :
  heap st !! a = Some nd -> deref a st = Return nd st.
Proof. intros H. apply deref_Return; auto. Qed.

Lemma store_Return a f st st' :
  store a f st = Return tt st' <->
  exists nd, heap st !! a = Some nd /\
             st' = set_heap st (<[a := f nd]> (heap st)).
Proof.
  unfold store. destruct (heap st !! a) as [nd|]; split.
  - intros [= <-]. eauto.
  - intros (nd' & [= <-] & ->). reflexivity.
  - discriminate.
  - intros (nd' & [=] & _).
Qed.

Lemma store_step a f st nd :
  heap st !! a = Some nd ->
  store a f st = Return tt (set_heap st (<[a := f nd]> (heap st))).
Proof. intros H. apply store_Return; eauto. Qed.

Lemma register_Return t k v st st' :
  register t k v st = Return tt st' <->
  exists id, t = Some id /\ is_Some (maps st !! id) /\
             st' = set_maps st (reg (maps st) id k v).
Proof.
  unfold register. destruct t as [id|].
  - destruct (maps st !! id) as [m|] eqn:E; split.
    + intros [= <-]. exists id. rewrite E. eauto.
    + intros (id' & [= <-] & _ & ->). reflexivity.
    + discriminate.
    + intros (id' & [= <-] & [m Hm] & _). congruence.
  - split; [discriminate | intros (id & [=] & _)].
Qed.

Lemma Root_Return n st r st' :
  Root n st = Return r st' <->
  is_Some (heap st !! n) /\ Root_rec (S n) (heap st) n = Some r /\ st' = st.
Proof.
  unfold Root. destruct (heap st !! n) as [nd|] eqn:E.
  - destruct (Root_rec (S n) (heap st) n) as [r'|]; split.
    + intros [= -> ->]. eauto.
    + intros (_ & [= ->] & ->). reflexivity.
    + discriminate.
    + intros (_ & [=] & _).
  - split; [discriminate | intros ([x Hx] & _); discriminate].
Qed.

(** Decompose a hypothesis stating that a computation returned. *)
Ltac inv_ret H :=
  lazymatch type of H with
  | bind _ _ _ = Return _ _ =>
      let a := fresh "a" in
      let s := fresh "st" in
      let H1 := fresh "H" in
      apply bind_Return in H; destruct H as (a & s & H1 & H);
      inv_ret H1; inv_ret H
  | deref _ _ = Return _ _ =>
      apply deref_Return in H; destruct H as [H ->]
  | store _ _ _ = Return _ _ =>
      let nd := fresh "nd" in
      apply store_Return in H; destruct H as (nd & H & ->)
  | register _ _ _ _ = Return _ _ =>
      let id := fresh "id" in
      let H1 := fresh "H" in
      let H2 := fresh "H" in
      apply register_Return in H; destruct H as (id & H1 & H2 & ->)
  | Root _ _ = Return _ _ =>
      let H1 := fresh "H" in
      apply Root_Return in H; destruct H as (H1 & H & ->)
  | ret _ _ = Return _ _ =>
      unfold ret in H; injection H as <- <-
  | alloc _ _ = Return _ _ =>
      unfold alloc in H; injection H as <- <-
  | new_map _ = Return _ _ =>
      unfold new_map in H; injection H as <- <-
  | emit _ _ _ = Return _ _ =>
      unfold emit in H; injection H as <-
  | _ => idtac
  end.

(** ** Root *)

Lemma Root_rec_mono fuel fuel' h n r :
  Root_rec fuel h n = Some r -> fuel <= fuel' -> Root_rec fuel' h n = Some r.
Proof.
  revert fuel' n. induction fuel as [|fuel IH]; intros fuel' n H Hle.
  - discriminate.
  - destruct fuel' as [|fuel']; [lia|]. cbn [Root_rec] in *.
    destruct (h !! n) as [nd|]; [|discriminate].
    destruct (parent nd); [|assumption].
    apply IH; [assumption | lia].
Qed.

Lemma Root_rec_agree fuel h h' n r :
  parents_agree h h' ->
  Root_rec fuel h n = Some r -> Root_rec fuel h' n = Some r.
Proof.
  intros Hag. revert n. induction fuel as [|fuel IH]; intros n H.
  - discriminate.
  - cbn [Root_rec] in H. destruct (h !! n) as [nd|] eqn:E; [|discriminate].
    destruct (Hag _ _ E) as (nd' & E' & Hp).
    cbn [Root_rec]. rewrite E', Hp.
    destruct (parent nd); [apply IH|]; assumption.
Qed.

(** ** Calls to the operating system *)

Lemma oscall_cases {A} (r : Request) sem (st : State) :
  (exists f, fault (world st) (length (calls st)) r = Some f /\
     @oscall A r sem st = Return (inl (Efault f)) (log st r (Some (Efault f))))
  \/ (exists e, fault (world st) (length (calls st)) r = None /\
        sem (world st) = inl e /\
        @oscall A r sem st = Return (inl e) (log st r (Some e)))
  \/ (exists a fs, fault (world st) (length (calls st)) r = None /\
        sem (world st) = inr (a, fs) /\
        @oscall A r sem st = Return (inr a) (log (set_files st fs) r None)).
Proof.
  unfold oscall.
  destruct (fault (world st) (length (calls st)) r) as [f|]; [eauto|].
  destruct (sem (world st)) as [e|[a fs]]; [right; left | right; right]; eauto.
Qed.

Lemma set_files_same st : set_files st (files (world st)) = st.
Proof. destruct st as [h m c [w u f o]]. reflexivity. Qed.

(* ===================================================================== *)
(** * The content accessor *)
(* ===================================================================== *)

Section ContentAccessor.

Lemma URI_cases a st nd :
  heap st !! a = Some nd ->
  (filepath.IsAbs (Path nd) = true /\
     URI a st = Return (filepath.Clean (Path nd)) st)
  \/ (filepath.IsAbs (Path nd) = false /\
      URI a st = Return (filepath.Join (cwd (world st)) (Path nd))
                        (log st ReqGetwd None))
  \/ (filepath.IsAbs (Path nd) = false /\ exists f,
      URI a st = Panicked (PanicString
          "Invalid Path - Unable to Calculate Full-System, Absolute Path")
        (log st ReqGetwd (Some (Efault f)))).
Proof.
  intros H. unfold URI. rewrite (bind_step _ _ _ _ _ (deref_step _ _ _ H)).
  destruct (filepath.IsAbs (Path nd)); [left; auto | right].
  destruct (oscall_cases ReqGetwd (fun w => inr (cwd w, files w)) st)
    as [(f & _ & E) | [(e & _ & [=] & _) | (d & fs & _ & [= <- <-] & E)]].
  - right. split; [reflexivity|]. exists f.
    unfold os_Getwd. rewrite (bind_step _ _ _ _ _ E). reflexivity.
  - left. split; [reflexivity|].
    unfold os_Getwd. rewrite (bind_step _ _ _ _ _ E).
    rewrite set_files_same. reflexivity.
Qed.

(** C5.  [Contents] fails with the nil-node error on an absent node and
    with the invalid-file-node error on a node that is not a file.  The
    first call that returns on a file node has read the whole file at
    the node's absolute path into the node's cache and returns these
    bytes; once the cache is filled a call returns the cached bytes and
    leaves the state as it is: no call to the operating system is made,
    whatever the file holds by then. *)
Theorem Contents_errors_and_cache :
  (forall st, Contents None st = Return (None, Some ExceptionNilNode) st)
  /\ (forall st a nd,
        heap st !! a = Some nd -> Type_ nd <> File ->
        Contents (Some a) st
        = Return (None, Some ExceptionInvalidFileNode) st)
  /\ (forall st a nd r st',
        heap st !! a = Some nd -> Type_ nd = File -> content nd = None ->
        Contents (Some a) st = Return r st' ->
        exists uri o evs,
          filepath.Abs (Some (cwd (world st))) (Path nd) = Some uri
          /\ locate (files (world st)) [] (resolve (world st) uri) = inr o
          /\ r = (Some (f_data o), None)
          /\ heap st' = <[a := set_content nd (f_data o)]> (heap st)
          /\ calls st' = calls st ++ evs ++ [mkEvent (ReqReadFile uri) None]
          /\ Forall (fun ev => ev_req ev = ReqGetwd) evs
          /\ files (world st') = files (world st))
  /\ (forall st a nd b,
        heap st !! a = Some nd -> Type_ nd = File -> content nd = Some b ->
        Contents (Some a) st = Return (Some b, None) st).
Proof.
  split; [reflexivity|]. split; [|split].
  - intros st a nd H Ht. unfold Contents.
    rewrite (bind_step _ _ _ _ _ (deref_step _ _ _ H)).
    destruct (String.eqb_spec (Type_ nd) File); [contradiction|reflexivity].
  - intros st a nd r st' H Ht Hc HC. unfold Contents in HC.
    rewrite (bind_step _ _ _ _ _ (deref_step _ _ _ H)) in HC.
    rewrite Ht in HC. cbn [String.eqb negb] in HC.
    change (String.eqb File File) with true in HC. cbn [negb] in HC.
    apply bind_Return in HC as ([] & st1 & Hr & HC).
    unfold read in Hr.
    rewrite (bind_step _ _ _ _ _ (deref_step _ _ _ H)) in Hr.
    rewrite Ht, Hc in Hr.
    change (String.eqb File File && is_nil None) with true in Hr.
    cbn iota in Hr.
    apply bind_Return in Hr as (uri & st2 & Hu & Hr).
    apply bind_Return in Hr as (buf & st3 & Hb & Hr).
    assert (Hst2 : heap st2 = heap st /\ maps st2 = maps st
                   /\ world st2 = world st
                   /\ filepath.Abs (Some (cwd (world st))) (Path nd) = Some uri
                   /\ exists evs, calls st2 = calls st ++ evs
                        /\ Forall (fun ev => ev_req ev = ReqGetwd) evs).
    { unfold filepath.Abs.
      destruct (URI_cases a st nd H) as [[Ha E]|[[Ha E]|[Ha [f E]]]];
        rewrite E in Hu; [| |discriminate]; injection Hu as <- <-;
        rewrite Ha; repeat split; auto.
      - exists []. rewrite app_nil_r. auto.
      - exists [mkEvent ReqGetwd None]. split; [reflexivity|].
        repeat constructor. }
    destruct Hst2 as (Hh2 & Hm2 & Hw2 & Habs & evs & Hc2 & Hevs).
    unfold os_ReadFile in Hb.
    destruct (oscall_cases (A:=list byte) (ReqReadFile uri)
      (fun w => if String.eqb uri "" then inl ENOENT
         else match locate (files w) [] (resolve w uri) with
              | inl e => inl e
              | inr o => if is_dir o then inl EISDIR
                         else inr (f_data o, files w)
              end) st2)
      as [(f & _ & E) | [(e & _ & _ & E) | (d & fs & _ & Hsem & E)]];
      rewrite E in Hb; injection Hb as <- <-; try discriminate.
    destruct (String.eqb uri ""); [discriminate|].
    rewrite Hw2 in Hsem.
    destruct (locate (files (world st)) [] (resolve (world st) uri))
      as [e|o] eqn:Hloc; [discriminate|].
    destruct (is_dir o); [discriminate|]. injection Hsem as <- <-.
    apply store_Return in Hr as (nd0 & Hr & ->).
    cbn in Hr. rewrite Hh2, H in Hr. injection Hr as <-.
    rewrite <- Hw2, set_files_same in HC.
    apply bind_Return in HC as (nd1 & st4 & Hd & HC).
    apply deref_Return in Hd as [Hd ->]. injection HC as <- H0.
    cbn in Hd. rewrite Hh2 in Hd.
    rewrite list_lookup_insert_eq in Hd
      by (eapply lookup_lt_Some; eassumption).
    injection Hd as <-. cbn.
    exists uri, o, evs. subst st'. cbn.
    rewrite Hh2, Hc2, Hw2, <- app_assoc. repeat split; auto.
  - intros st a nd b H Ht Hc. unfold Contents.
    rewrite (bind_step _ _ _ _ _ (deref_step _ _ _ H)).
    rewrite Ht. change (negb (String.eqb File File)) with false.
    cbn iota.
    assert (Hr : read (Some a) st = Return tt st).
    { unfold read. rewrite (bind_step _ _ _ _ _ (deref_step _ _ _ H)).
      rewrite Ht, Hc. reflexivity. }
    rewrite (bind_step _ _ _ _ _ Hr).
    rewrite (bind_step _ _ _ _ _ (deref_step _ _ _ H)).
    rewrite Hc. reflexivity.
Qed.

End ContentAccessor.

(* ===================================================================== *)
(** * The file system model *)
(* ===================================================================== *)

Lemma locate_snoc fs pre rest c d :
  locate fs pre rest = inr d -> is_dir d = true ->
  locate fs pre (rest ++ [c])
  = match fs !! (pre ++ rest ++ [c]) with
    | Some o => inr o
    | None => inl ENOENT
    end.
Proof.
  revert pre. induction rest as [|x rest IH]; intros pre H Hd; cbn in *.
  - destruct (fs !! pre) as [o|]; [|discriminate]. injection H as ->.
    rewrite Hd. destruct (fs !! (pre ++ [c])); reflexivity.
  - destruct (fs !! pre) as [o|]; [|discriminate].
    destruct (is_dir o); [|discriminate].
    rewrite (IH _ H Hd). rewrite <- app_assoc. reflexivity.
Qed.

Lemma removelast_snoc (p : list string) :
  p <> [] -> exists c, p = removelast p ++ [c].
Proof.
  intros H. exists (List.last p ""). apply app_removelast_last. exact H.
Qed.

(** Writing to a path that [locate] does not find leaves every object of
    the file system as it is. *)
Lemma write_file_absent w p data perm fs' :
  locate (files w) [] p = inl ENOENT ->
  write_file w p data perm = inr fs' -> files w ⊆ fs'.
Proof.
  intros Hloc Hw. unfold write_file in Hw.
  destruct (locate (files w) [] (removelast p)) as [e|d] eqn:Hpar;
    [discriminate|].
  destruct (is_dir d) eqn:Hd; [|discriminate]. cbn [negb] in Hw.
  destruct p as [|x p'].
  - cbn in Hpar, Hloc. rewrite Hloc in Hpar. discriminate.
  - destruct (removelast_snoc (x :: p') ltac:(discriminate)) as [c Hp].
    rewrite Hp in Hloc. rewrite (locate_snoc _ _ _ _ _ Hpar Hd) in Hloc.
    cbn [app] in Hloc. rewrite <- Hp in Hloc.
    destruct (files w !! (x :: p')) as [o|] eqn:E; [discriminate|].
    injection Hw as <-. apply insert_subseteq. exact E.
Qed.

Lemma mkdir_all_subseteq w fs pre rest perm fs' :
  mkdir_all w fs pre rest perm = inr fs' -> fs ⊆ fs'.
Proof.
  revert fs pre. induction rest as [|c rest IH]; intros fs pre H; cbn in H.
  - destruct (fs !! pre) as [o|] eqn:E.
    + destruct (is_dir o); [|discriminate]. injection H as <-. reflexivity.
    + injection H as <-. apply insert_subseteq. exact E.
  - destruct (fs !! pre) as [o|] eqn:E.
    + destruct (is_dir o); [|discriminate]. eapply IH; eassumption.
    + etrans; [apply insert_subseteq; exact E | eapply IH; eassumption].
Qed.

(* ===================================================================== *)
(** * What a computation does to the world *)
(* ===================================================================== *)

Lemma bind_final {A B} (m : M A) (k : A -> M B) st (P : State -> Prop) :
  (forall p st1, m st = Panicked p st1 -> P st1) ->
  (forall a st1, m st = Return a st1 -> P (final (k a st1))) ->
  P (final (bind m k st)).
Proof.
  intros Hp Hr. unfold bind.
  destruct (m st) as [a st1|p st1] eqn:E; cbn; eauto.
Qed.

Lemma same_world_bind {A B} (m : M A) (k : A -> M B) :
  same_world m -> (forall a, same_world (k a)) -> same_world (bind m k).
Proof.
  intros Hm Hk st. apply bind_final.
  - intros p st1 E. specialize (Hm st). rewrite E in Hm. exact Hm.
  - intros a st1 E. specialize (Hm st). rewrite E in Hm. cbn in Hm.
    rewrite Hk. exact Hm.
Qed.

Lemma keeps_files_bind {A B} (m : M A) (k : A -> M B) :
  keeps_files m -> (forall a, keeps_files (k a)) -> keeps_files (bind m k).
Proof.
  intros Hm Hk st. apply bind_final.
  - intros p st1 E. specialize (Hm st). rewrite E in Hm. exact Hm.
  - intros a st1 E. specialize (Hm st). rewrite E in Hm. cbn in Hm.
    etrans; [exact Hm | apply Hk].
Qed.

Lemma same_world_keeps {A} (m : M A) : same_world m -> keeps_files m.
Proof. intros H st. rewrite H. reflexivity. Qed.

Lemma same_world_ret {A} (a : A) : same_world (ret a).
Proof. intros st. reflexivity. Qed.

Lemma same_world_panic {A} p : same_world (@panic A p).
Proof. intros st. reflexivity. Qed.

Lemma same_world_deref a : same_world (deref a).
Proof. intros st. unfold deref. destruct (heap st !! a); reflexivity. Qed.

Lemma same_world_store a f : same_world (store a f).
Proof. intros st. unfold store. destruct (heap st !! a); reflexivity. Qed.

Lemma same_world_oscall {A} r sem :
  (forall w a fs, sem w = inr (a, fs) -> fs = files w) ->
  same_world (@oscall A r sem).
Proof.
  intros H st.
  destruct (oscall_cases r sem st)
    as [(f & _ & ->) | [(e & _ & _ & ->) | (a & fs & _ & Hs & ->)]];
    try reflexivity.
  apply H in Hs as ->. rewrite set_files_same. reflexivity.
Qed.

Lemma same_world_Stat p : same_world (os_Stat p).
Proof.
  apply same_world_oscall. intros w a fs.
  destruct (String.eqb p ""); [discriminate|].
  destruct (locate _ _ _); [discriminate|]. intros [= _ <-]. reflexivity.
Qed.

Lemma same_world_ReadFile p : same_world (os_ReadFile p).
Proof.
  apply same_world_oscall. intros w a fs.
  destruct (String.eqb p ""); [discriminate|].
  destruct (locate _ _ _) as [|o]; [discriminate|].
  destruct (is_dir o); [discriminate|]. intros [= _ <-]. reflexivity.
Qed.

Lemma same_world_Getwd : same_world os_Getwd.
Proof. apply same_world_oscall. intros w a fs [= _ <-]. reflexivity. Qed.

Lemma same_world_URI a : same_world (URI a).
Proof.
  apply same_world_bind; [apply same_world_deref|]. intros nd.
  destruct (filepath.IsAbs (Path nd)); [apply same_world_ret|].
  apply same_world_bind; [apply same_world_Getwd|].
  intros [e|d]; [apply same_world_panic | apply same_world_ret].
Qed.

Lemma same_world_Permissions a : same_world (Permissions a).
Proof.
  apply same_world_bind; [apply same_world_deref|]. intros nd.
  apply same_world_bind; [apply same_world_Stat|].
  intros [e|fi]; [apply same_world_panic | apply same_world_ret].
Qed.

Lemma same_world_read n : same_world (read n).
Proof.
  destruct n as [a|]; [|apply same_world_ret].
  apply same_world_bind; [apply same_world_deref|]. intros nd.
  destruct (_ && _); [|apply same_world_ret].
  apply same_world_bind; [apply same_world_URI|]. intros uri.
  apply same_world_bind; [apply same_world_ReadFile|].
  intros [e|b]; [apply same_world_panic | apply same_world_store].
Qed.

Lemma same_world_Contents n : same_world (Contents n).
Proof.
  destruct n as [a|]; [|apply same_world_ret].
  apply same_world_bind; [apply same_world_deref|]. intros nd.
  destruct (negb _); [apply same_world_ret|].
  apply same_world_bind; [apply same_world_read|]. intros _.
  apply same_world_bind; [apply same_world_deref|]. intros nd'.
  apply same_world_ret.
Qed.

Section Queries.
Variable range_order : list (string * addr) -> list (string * addr).

Lemma same_world_range_Table n : same_world (range_Table range_order n).
Proof.
  apply same_world_bind.
  - apply same_world_bind; [apply same_world_deref|]. intros nd.
    apply same_world_ret.
  - intros [id|]; [|apply same_world_ret].
    intros st. destruct (maps st !! id); reflexivity.
Qed.

Lemma same_world_select d l : same_world (select d l).
Proof.
  induction l as [|[k a] l IH]; [apply same_world_ret|].
  apply same_world_bind; [apply same_world_deref|]. intros nd.
  apply same_world_bind; [exact IH|]. intros p. apply same_world_ret.
Qed.

Lemma same_world_Files n : same_world (Files range_order n).
Proof.
  apply same_world_bind; [apply same_world_range_Table|].
  intros l. apply same_world_select.
Qed.

Lemma same_world_Directories n : same_world (Directories range_order n).
Proof.
  apply same_world_bind; [apply same_world_range_Table|].
  intros l. apply same_world_select.
Qed.
End Queries.

Lemma keeps_files_for_each {A} (l : list A) body :
  (forall x, keeps_files (body x)) -> keeps_files (for_each l body).
Proof.
  intros H. induction l as [|x l IH].
  - apply same_world_keeps, same_world_ret.
  - apply keeps_files_bind; [apply H | intros _; exact IH].
Qed.

Lemma keeps_files_MkdirAll p perm : keeps_files (os_MkdirAll p perm).
Proof.
  intros st. unfold os_MkdirAll.
  destruct (oscall_cases (A:=unit) (ReqMkdirAll p perm)
    (fun w => if String.eqb p "" then inl ENOENT
       else match mkdir_all w (files w) [] (resolve w p) perm with
            | inl e => inl e
            | inr fs => inr (tt, fs)
            end) st)
    as [(f & _ & ->) | [(e & _ & _ & ->) | (a & fs & _ & Hs & ->)]];
    try reflexivity.
  cbn. destruct (String.eqb p ""); [discriminate|].
  destruct (mkdir_all _ _ _ _ _) as [|fs'] eqn:E; [discriminate|].
  injection Hs as _ <-. eapply mkdir_all_subseteq; eassumption.
Qed.

Lemma keeps_files_mirror_directory destination directory :
  keeps_files (mirror_directory destination directory).
Proof.
  apply keeps_files_bind; [apply same_world_keeps, same_world_deref|].
  intros d.
  apply keeps_files_bind; [apply same_world_keeps, same_world_Permissions|].
  intros perm. apply keeps_files_bind; [apply keeps_files_MkdirAll|].
  intros [e|[]]; apply same_world_keeps;
    [apply same_world_panic | apply same_world_ret].
Qed.

(** [WriteFile] on a target that [Stat] has just reported missing. *)
Lemma write_target_absent target file st :
  (target <> "" ->
   locate (files (world st)) [] (resolve (world st) target) = inl ENOENT) ->
  files (world st) ⊆ files (world (final (write_target target file st))).
Proof.
  intros Habs. unfold write_target. apply bind_final.
  { intros p st1 E. pose proof (same_world_Contents (Some file) st) as H.
    rewrite E in H. cbn in H. rewrite H. reflexivity. }
  intros [contents [e|]] st1 E.
  { pose proof (same_world_Contents (Some file) st) as H.
    rewrite E in H. cbn in H. unfold panic. cbn [final].
    rewrite H. reflexivity. }
  pose proof (same_world_Contents (Some file) st) as H1.
  rewrite E in H1. cbn in H1. apply bind_final.
  { intros p st2 E2. pose proof (same_world_Permissions file st1) as H.
    rewrite E2 in H. cbn in H. rewrite H, H1. reflexivity. }
  intros perm st2 E2. pose proof (same_world_Permissions file st1) as H2.
  rewrite E2 in H2. cbn in H2. rewrite H1 in H2.
  unfold os_WriteFile. apply bind_final.
  { intros p st3 E3.
    destruct (oscall_cases (A:=unit)
      (ReqWriteFile target (bytes_of contents) perm)
      (fun w => if String.eqb target "" then inl ENOENT
         else match write_file w (resolve w target) (bytes_of contents) perm
              with
              | inl e => inl e
              | inr fs => inr (tt, fs)
              end) st2)
      as [(f & _ & E') | [(e & _ & _ & E') | (a & fs & _ & _ & E')]];
      rewrite E' in E3; discriminate. }
  intros r st3 E3.
  assert (Hst3 : files (world st) ⊆ files (world st3)).
  { destruct (oscall_cases (A:=unit)
      (ReqWriteFile target (bytes_of contents) perm)
      (fun w => if String.eqb target "" then inl ENOENT
         else match write_file w (resolve w target) (bytes_of contents) perm
              with
              | inl e => inl e
              | inr fs => inr (tt, fs)
              end) st2)
      as [(f & _ & E') | [(e & _ & _ & E') | (a & fs & _ & Hs & E')]];
      rewrite E' in E3; injection E3 as <- <-; cbn; rewrite ?H2;
      try reflexivity.
    destruct (String.eqb_spec target ""); [discriminate|].
    destruct (write_file _ _ _ _) as [|fs'] eqn:Ew; [discriminate|].
    injection Hs as _ <-. rewrite H2 in Ew.
    eapply write_file_absent; [apply Habs; assumption | exact Ew]. }
  destruct r as [e|[]]; exact Hst3.
Qed.

Section CopyFrame.
Variable range_order : list (string * addr) -> list (string * addr).

(** C6.  [Copy] leaves every object that the file system holds when it
    is called as it is, whether the operation returns or panics: a file
    whose path already exists keeps its content and its mode, and an
    existing directory keeps its mode.  In particular the target of a
    file child that exists beforehand is not written. *)
Theorem Copy_keeps_existing (n : addr) (destination : string) (st : State)
        (p : list string) (o : fobj) :
  files (world st) !! p = Some o ->
  files (world (final (Copy range_order n destination st))) !! p = Some o.
Proof.
  revert p o. apply map_subseteq_spec. revert st.
  change (keeps_files (Copy range_order n destination)).
  unfold Copy.
  apply keeps_files_bind;
    [apply same_world_keeps, same_world_Directories|]. intros dirs.
  apply keeps_files_bind; [apply same_world_keeps, same_world_Files|].
  intros fls. apply keeps_files_bind.
  { apply keeps_files_for_each. apply keeps_files_mirror_directory. }
  intros _. apply keeps_files_for_each. intros file.
  apply keeps_files_bind; [apply same_world_keeps, same_world_deref|].
  intros f st1.
  set (target := filepath.Join destination (Path f)).
  apply bind_final.
  { intros pv st2 E. pose proof (same_world_Stat target st1) as H.
    rewrite E in H. cbn in H. rewrite H. reflexivity. }
  intros r st2 E. unfold os_Stat in E.
  destruct (oscall_cases (A:=FileInfo) (ReqStat target)
    (fun w => if String.eqb target "" then inl ENOENT
       else match locate (files w) [] (resolve w target) with
            | inl e => inl e
            | inr o => inr (mkFileInfo (basename target) (f_mode o), files w)
            end) st1)
    as [(f0 & _ & E') | [(e & _ & Hs & E') | (a & fs & _ & Hs & E')]];
    rewrite E' in E; injection E as <- <-.
  - reflexivity.
  - destruct (IsNotExist e) eqn:He; [|reflexivity].
    destruct e; try discriminate.
    etrans; [|apply write_target_absent]; [reflexivity|].
    cbn. intros Hne. destruct (String.eqb_spec target ""); [contradiction|].
    destruct (locate _ _ _) eqn:El; [|discriminate]. congruence.
  - cbn. destruct (String.eqb target ""); [discriminate|].
    destruct (locate _ _ _); [discriminate|]. injection Hs as _ <-.
    reflexivity.
Qed.
End CopyFrame.

(* ===================================================================== *)
(** * Failure policy of the mirror operations *)
(* ===================================================================== *)
















Section FailurePolicy.
Variable range_order : list (string * addr) -> list (string * addr).






End FailurePolicy.

(* ===================================================================== *)
(** * The construction follows the relation *)
(* ===================================================================== *)

Lemma FsObj_nested_ind (P : FsObj -> Prop) :
  (forall data, P (Regular data)) ->
  (forall entries,
      Forall (fun entry => P (entry_target entry)) entries ->
      P (Folder entries)) ->
  (forall e, P (Failing e)) ->
  forall disk, P disk.
Proof.
  intros Hreg Hfold Hfail. fix IH 1. intros [data|entries|e].
  - apply Hreg.
  - apply Hfold. induction entries as [|[nm ty tg] entries IHe].
    + constructor.
    + constructor; [apply IH | exact IHe].
  - apply Hfail.
Qed.

Lemma snoc_lookup_old {A} (h : list A) x a :
  a < length h -> (h ++ [x]) !! a = h !! a.
Proof. intros H. apply lookup_app_l. exact H. Qed.

Lemma snoc_lookup_new {A} (h : list A) x : (h ++ [x]) !! length h = Some x.
Proof. apply list_lookup_middle. reflexivity. Qed.

Lemma snoc_insert_new {A} (h : list A) x y :
  <[length h := y]> (h ++ [x]) = h ++ [y].
Proof.
  rewrite insert_app_r_alt by lia. rewrite Nat.sub_diag. reflexivity.
Qed.

Section Soundness.

Variable sha256_hex : list byte -> string.

Lemma enroll_inv n child st st' :
  enroll n child st = Return tt st' ->
  exists r rd c nd tr tn,
    Root_rec (S n) (heap st) n = Some r /\
    heap st !! r = Some rd /\ table rd = Some tr /\
    is_Some (maps st !! tr) /\
    heap st !! child = Some c /\
    heap st !! n = Some nd /\ table nd = Some tn /\
    is_Some (maps st !! tn) /\
    st' = enrolled st n child nd c tr tn.
Proof.
  intros H. unfold enroll in H.
  apply bind_Return in H as (r & s1 & Hr & H).
  apply Root_Return in Hr as (_ & Hr & ->).
  apply bind_Return in H as (rd & s1 & Hrd & H).
  apply deref_Return in Hrd as [Hrd ->].
  apply bind_Return in H as (c & s1 & Hc & H).
  apply deref_Return in Hc as [Hc ->].
  apply bind_Return in H as ([] & s1 & Hreg1 & H).
  apply register_Return in Hreg1 as (tr & Htr & Hmr & ->).
  apply bind_Return in H as (nd & s1 & Hnd & H).
  apply deref_Return in Hnd as [Hnd ->]. cbn in Hnd.
  apply bind_Return in H as ([] & s1 & Hreg2 & H).
  apply register_Return in Hreg2 as (tn & Htn & Hmn & ->). cbn in Hmn.
  apply bind_Return in H as (c' & s1 & Hc' & H).
  apply deref_Return in Hc' as [Hc' ->]. cbn in Hc'.
  apply bind_Return in H as (nd' & s1 & Hnd' & H).
  apply deref_Return in Hnd' as [Hnd' ->]. cbn in Hnd'.
  apply store_Return in H as (nd'' & Hnd'' & ->). cbn in Hnd''.
  assert (c' = c) as -> by congruence.
  assert (nd' = nd) as -> by congruence.
  assert (nd'' = nd) as -> by congruence.
  assert (is_Some (maps st !! tn)).
  { unfold reg in Hmn. destruct Hmr as [m Hm]. rewrite Hm in Hmn.
    destruct (m !! Path c); [exact Hmn|].
    destruct (decide (tr = tn)) as [->|Hne].
    - exists m. exact Hm.
    - rewrite list_lookup_insert_ne in Hmn by exact Hne. exact Hmn. }
  exists r, rd, c, nd, tr, tn. repeat split; auto.
Qed.

Lemma walk_entry_inv walk_rec n entry st st' :
  walk_entry sha256_hex walk_rec n entry st = Return tt st' ->
  exists nd st1,
    heap st !! n = Some nd /\
    (classify entry = Directory /\
       walk_rec (entry_target entry) (length (heap st))
                (created st n nd entry) = Return tt st1
     \/ (classify entry = File /\
         exists uri st_u c data,
           URI (length (heap st)) (created st n nd entry) = Return uri st_u /\
           entry_target entry = Regular data /\
           heap st_u !! length (heap st) = Some c /\
           st1 = set_heap (log st_u (ReqChecksum (length (heap st)) uri) None)
                   (<[length (heap st) :=
                        set_Checksum c (Some (sha256_hex data))]>
                      (heap st_u)))
     \/ (classify entry = Symbolic /\ st1 = created st n nd entry)) /\
    enroll n (length (heap st)) st1 = Return tt st'.
Proof.
  intros H. unfold walk_entry in H.
  apply bind_Return in H as (nd & s1 & Hnd & H).
  apply deref_Return in Hnd as [Hnd ->].
  apply bind_Return in H as (child & s1 & Ha & H).
  unfold alloc in Ha. injection Ha as <- <-.
  apply bind_Return in H as ([] & s1 & Hs & H).
  apply store_Return in Hs as (c0 & Hc0 & ->). cbn in Hc0.
  rewrite snoc_lookup_new in Hc0. injection Hc0 as <-.
  cbn in H. rewrite snoc_insert_new in H.
  unfold add in H. apply bind_Return in H as ([] & st1 & Hatt & Henr).
  exists nd, st1. split; [exact Hnd|]. split; [|exact Henr].
  unfold attach in Hatt.
  apply bind_Return in Hatt as (nd' & s1 & Hnd' & Hatt).
  apply deref_Return in Hnd' as [Hnd' ->]. cbn in Hnd'.
  assert (Hlt : n < length (heap st)) by (eapply lookup_lt_Some; eauto).
  rewrite snoc_lookup_old in Hnd' by exact Hlt.
  assert (nd' = nd) as -> by congruence.
  apply bind_Return in Hatt as (t & s1 & Ht & Hatt).
  unfold new_map in Ht. injection Ht as <- <-. cbn in Hatt.
  apply bind_Return in Hatt as ([] & s1 & Hs & Hatt).
  apply store_Return in Hs as (c1 & Hc1 & ->). cbn in Hc1.
  rewrite snoc_lookup_new in Hc1. injection Hc1 as <-.
  cbn in Hatt. rewrite snoc_insert_new in Hatt.
  apply bind_Return in Hatt as (c & s1 & Hc & Hatt).
  apply deref_Return in Hc as [Hc ->]. cbn in Hc.
  rewrite snoc_lookup_new in Hc. injection Hc as <-.
  cbn [Type_ set_link set_Type] in Hatt.
  change (mkState (heap st ++ _) (maps st ++ [∅]) (calls st) (world st))
    with (created st n nd entry) in Hatt.
  destruct (String.eqb_spec (classify entry) Directory) as [Hd|Hd].
  { left. auto. }
  destruct (String.eqb_spec (classify entry) File) as [Hf|Hf].
  - right; left. split; [exact Hf|].
    apply bind_Return in Hatt as (uri & st_u & Hu & Hatt).
    apply bind_Return in Hatt as (sum & s1 & Hsum & Hatt).
    apply store_Return in Hatt as (c & Hc & ->).
    unfold checksum_SHA256 in Hsum.
    destruct (entry_target entry) as [data| |];
      apply bind_Return in Hsum as ([] & s2 & He & Hsum);
      unfold emit in He; injection He as <-;
      try discriminate.
    unfold ret in Hsum. injection Hsum as <- <-. cbn in Hc.
    exists uri, st_u, c, data. auto.
  - right; right. unfold ret in Hatt. injection Hatt as <-.
    split; [|reflexivity].
    unfold classify in *.
    destruct (Z.eqb _ _); [reflexivity|].
    destruct (Mode_IsDir _); contradiction.
Qed.

Lemma walk_entries_inv walk_rec n entry rest st st' :
  walk_entries sha256_hex walk_rec n (entry :: rest) st = Return tt st' ->
  exists st1,
    walk_entry sha256_hex walk_rec n entry st = Return tt st1 /\
    walk_entries sha256_hex walk_rec n rest st1 = Return tt st'.
Proof.
  intros H. cbn [walk_entries] in H.
  apply bind_Return in H as ([] & st1 & H1 & H). eauto.
Qed.

Lemma walk_sound disk :
  forall n st st',
    walk sha256_hex disk n st = Return tt st' -> Walk sha256_hex disk n st st'.
Proof.
  induction disk as [data|entries IH|e] using FsObj_nested_ind;
    intros n st st' H; cbn [walk] in H;
    apply bind_Return in H as (nd & s1 & Hnd & H);
    apply deref_Return in Hnd as [Hnd ->];
    apply bind_Return in H as ([] & s1 & He & H);
    unfold emit in He; injection He as <-.
  - unfold emit in H. injection H as <-.
    eapply Walk_error; [exact Hnd | reflexivity].
  - eapply Walk_folder; [exact Hnd|]. cbn [os_ReadDir_err] in H.
    revert H. generalize (log st (ReqReadDir (Path nd)) None). clear Hnd.
    induction IH as [|entry rest Hentry _ IHrest]; intros s H.
    + unfold walk_entries, ret in H. injection H as <-. constructor.
    + apply walk_entries_inv in H as (s1 & H1 & H).
      econstructor; [|apply IHrest; exact H].
      apply walk_entry_inv in H1 as (nd1 & s2 & Hn1 & Hfill & Henr).
      apply enroll_inv in Henr
        as (r & rd & c & nd2 & tr & tn & Hr & Hrd & Htr & Hmr & Hc & Hn2
            & Htn & Hmn & ->).
      eapply WalkEntry_intro; eauto.
      destruct Hfill as [[Hd Hw] | [[Hf (uri & st_u & c' & data & Hu & Ht & Hc' & ->)]
                                   | [Hs ->]]].
      * apply Fill_directory; [exact Hd | apply Hentry; exact Hw].
      * eapply Fill_file; eauto.
      * apply Fill_symbolic; exact Hs.
  - unfold emit in H. injection H as <-.
    eapply Walk_error; [exact Hnd | reflexivity].
Qed.

End Soundness.

(* ===================================================================== *)
(** * Frame properties of the construction *)
(* ===================================================================== *)

Lemma node_kept_refl nd : node_kept nd nd.
Proof. exists (Nodes nd), (Checksum nd). destruct nd; reflexivity. Qed.

Lemma node_kept_trans nd1 nd2 nd3 :
  node_kept nd1 nd2 -> node_kept nd2 nd3 -> node_kept nd1 nd3.
Proof.
  intros (l & ck & ->) (l' & ck' & ->). exists l', ck'. reflexivity.
Qed.

Lemma evolves_refl n st : evolves n st st.
Proof.
  split; auto.
  - intros nd H. exists nd. split; [exact H | apply node_kept_refl].
  - intros id m H. exists m. split; [exact H | reflexivity].
  - exists []. rewrite app_nil_r. reflexivity.
Qed.

Lemma evolves_trans n st1 st2 st3 :
  evolves n st1 st2 -> evolves n st2 st3 -> evolves n st1 st3.
Proof.
  intros [L1 O1 A1 ML1 M1 W1 [e1 C1]] [L2 O2 A2 ML2 M2 W2 [e2 C2]].
  split.
  - lia.
  - intros a Ha Hn. rewrite O2 by (auto; lia). apply O1; auto.
  - intros nd H. destruct (A1 _ H) as (nd2 & H2 & K2).
    destruct (A2 _ H2) as (nd3 & H3 & K3).
    exists nd3. split; [exact H3 | eapply node_kept_trans; eauto].
  - lia.
  - intros id m H. destruct (M1 _ _ H) as (m2 & H2 & S2).
    destruct (M2 _ _ H2) as (m3 & H3 & S3).
    exists m3. split; [exact H3 | etrans; eauto].
  - congruence.
  - exists (e1 ++ e2). rewrite C2, C1, app_assoc. reflexivity.
Qed.

(** What happens at a node that is not in the heap does not matter. *)
Lemma evolves_other n n' st st' :
  evolves n' st st' -> length (heap st) <= n' -> evolves n st st'.
Proof.
  intros [L O A ML M W C] Hn'. split; auto.
  - intros a Ha _. apply O; lia.
  - intros nd H. exists nd. split; [|apply node_kept_refl].
    rewrite O; [exact H | eapply lookup_lt_Some; eauto |].
    apply lookup_lt_Some in H. lia.
Qed.

Lemma evolves_log n st r e : evolves n st (log st r e).
Proof.
  split; cbn; auto.
  - intros nd H. exists nd. split; [exact H | apply node_kept_refl].
  - intros id m H. exists m. split; [exact H | reflexivity].
  - eexists. reflexivity.
Qed.

Lemma reg_length ms id k v : length (reg ms id k v) = length ms.
Proof.
  unfold reg. destruct (ms !! id) as [m|]; [|reflexivity].
  destruct (m !! k); [reflexivity | apply length_insert].
Qed.

Lemma reg_mono ms id k v id' m :
  ms !! id' = Some m ->
  exists m', reg ms id k v !! id' = Some m' /\ m ⊆ m'.
Proof.
  intros H. unfold reg. destruct (ms !! id) as [m0|] eqn:E.
  - destruct (m0 !! k) eqn:Ek.
    + exists m. split; [exact H | reflexivity].
    + destruct (decide (id = id')) as [->|Hne].
      * rewrite list_lookup_insert_eq by (eapply lookup_lt_Some; eauto).
        assert (m0 = m) as -> by congruence.
        eexists. split; [reflexivity | apply insert_subseteq; exact Ek].
      * rewrite list_lookup_insert_ne by exact Hne.
        exists m. split; [exact H | reflexivity].
  - exists m. split; [exact H | reflexivity].
Qed.

Lemma evolves_created n st nd entry :
  evolves n st (created st n nd entry).
Proof.
  split; cbn; auto.
  - rewrite length_app. lia.
  - intros a Ha _. apply snoc_lookup_old. exact Ha.
  - intros nd0 H. exists nd0. split; [|apply node_kept_refl].
    rewrite snoc_lookup_old; [exact H | eapply lookup_lt_Some; eauto].
  - rewrite length_app. lia.
  - intros id m H. exists m. split; [|reflexivity].
    rewrite lookup_app_l; [exact H | eapply lookup_lt_Some; eauto].
  - exists []. rewrite app_nil_r. reflexivity.
Qed.

(** A run that touches only the node just created touches no node of the
    state before the creation. *)
Lemma evolves_via_created n x st nd entry st1 :
  evolves (length (heap st)) (created st n nd entry) st1 ->
  evolves x st st1.
Proof.
  intros [L O A ML M W C].
  destruct (evolves_created n st nd entry) as [L0 O0 A0 ML0 M0 W0 C0].
  assert (Hold : forall a, a < length (heap st) ->
                           heap st1 !! a = heap st !! a).
  { intros a Ha. rewrite O; [apply snoc_lookup_old; exact Ha | | lia].
    cbn. rewrite length_app. lia. }
  split.
  - lia.
  - intros a Ha _. apply Hold, Ha.
  - intros nd0 H. exists nd0. split; [|apply node_kept_refl].
    rewrite Hold; [exact H | eapply lookup_lt_Some; eauto].
  - lia.
  - intros id m H. destruct (M0 _ _ H) as (m1 & H1 & S1).
    destruct (M _ _ H1) as (m2 & H2 & S2).
    exists m2. split; [exact H2 | etrans; eauto].
  - congruence.
  - destruct C as [e1 C], C0 as [e0 C0]. exists (e0 ++ e1).
    rewrite C, C0, app_assoc. reflexivity.
Qed.

Lemma evolves_enrolled n child st nd c tr tn :
  heap st !! n = Some nd ->
  evolves n st (enrolled st n child nd c tr tn).
Proof.
  intros Hn. split; cbn; auto.
  - rewrite length_insert. lia.
  - intros a _ Ha. apply list_lookup_insert_ne. auto.
  - intros nd0 H. assert (nd0 = nd) as -> by congruence.
    eexists. split.
    + apply list_lookup_insert_eq. eapply lookup_lt_Some; eauto.
    + exists (Nodes nd ++ [c]), (Checksum nd). destruct nd; reflexivity.
  - rewrite !reg_length. lia.
  - intros id m H.
    destruct (reg_mono (maps st) tr (Path c) child id m H) as (m1 & H1 & S1).
    destruct (reg_mono _ tn (Path c) child id m1 H1) as (m2 & H2 & S2).
    exists m2. split; [exact H2 | etrans; eauto].
  - exists []. rewrite app_nil_r. reflexivity.
Qed.

Lemma URI_evolves a st uri st' :
  URI a st = Return uri st' ->
  heap st' = heap st /\ maps st' = maps st /\ world st' = world st /\
  exists evs, calls st' = calls st ++ evs /\
              Forall (fun ev => ev_req ev = ReqGetwd) evs.
Proof.
  intros H. unfold URI in H.
  apply bind_Return in H as (nd & s1 & Hnd & H).
  apply deref_Return in Hnd as [Hnd ->].
  destruct (URI_cases a st nd Hnd) as [[Ha E]|[[Ha E]|[Ha [f E]]]];
    unfold URI in E; rewrite (bind_step _ _ _ _ _ (deref_step _ _ _ Hnd)) in E;
    rewrite E in H; [| |discriminate]; injection H as <- <-;
    repeat split; auto.
  - exists []. rewrite app_nil_r. auto.
  - exists [mkEvent ReqGetwd None]. split; [reflexivity|]. repeat constructor.
Qed.

Section Frame.

Variable sha256_hex : list byte -> string.

Lemma construction_evolves :
  (forall disk n st st', Walk sha256_hex disk n st st' -> evolves n st st')
  /\ (forall entries n st st',
        WalkEntries sha256_hex entries n st st' -> evolves n st st')
  /\ (forall entry n st st',
        WalkEntry sha256_hex entry n st st' -> evolves n st st')
  /\ (forall entry child st st',
        Fill sha256_hex entry child st st' -> evolves child st st').
Proof.
  apply (Walk_mutind sha256_hex
           (fun _ n st st' => evolves n st st')
           (fun _ n st st' => evolves n st st')
           (fun _ n st st' => evolves n st st')
           (fun _ child st st' => evolves child st st')).
  - (* folder *)
    intros entries n nd st st' Hn _ IH.
    eapply evolves_trans; [apply evolves_log | exact IH].
  - (* listing error *)
    intros disk n nd e st Hn _.
    eapply evolves_trans; apply evolves_log.
  - intros n st. apply evolves_refl.
  - intros entry rest n st st1 st' _ IH1 _ IH2.
    eapply evolves_trans; eauto.
  - (* one entry *)
    intros entry n nd st st1 r rd c nd1 tr tn Hn _ IHfill Hr Hrd Htr Hmr Hc
           Hn1 Htn Hmn.
    eapply evolves_trans; [|apply evolves_enrolled; exact Hn1].
    eapply evolves_via_created; exact IHfill.
  - intros entry child st st1 _ _ IH. exact IH.
  - (* file *)
    intros entry child st uri st1 c data _ Hu _ Hc.
    destruct (URI_evolves child st uri st1 Hu)
      as (Hh & Hm & Hw & evs & Hcalls & _).
    split; cbn; auto.
    + rewrite length_insert, Hh. lia.
    + intros a _ Ha. rewrite list_lookup_insert_ne by auto. rewrite Hh. auto.
    + intros nd Hnd. rewrite Hh in Hc. assert (nd = c) as -> by congruence.
      eexists. split.
      * apply list_lookup_insert_eq. rewrite Hh.
        eapply lookup_lt_Some; eauto.
      * exists (Nodes c), (Some (sha256_hex data)). destruct c; reflexivity.
    + rewrite Hm. lia.
    + intros id m H. rewrite Hm. exists m. split; [exact H | reflexivity].
    + rewrite Hcalls. eexists. rewrite <- app_assoc. reflexivity.
  - intros entry child st _. apply evolves_refl.
Qed.

End Frame.

(* ===================================================================== *)
(** * The shape of the tree is an invariant of the construction *)
(* ===================================================================== *)

Lemma classify_tag entry :
  classify entry = File \/ classify entry = Directory
  \/ classify entry = Symbolic.
Proof.
  unfold classify. destruct (Z.eqb _ _); [auto|].
  destruct (Mode_IsDir _); auto.
Qed.

Lemma inv_Root h0 m0 st a nd :
  tree_inv h0 m0 st -> h0 <= a -> heap st !! a = Some nd ->
  Root_rec (S a) (heap st) a = Some h0.
Proof.
  intros I. revert nd. induction a as [a IH] using lt_wf_ind.
  intros nd Ha Hnd. cbn [Root_rec]. rewrite Hnd.
  destruct (decide (a = h0)) as [->|Hne].
  - destruct (inv_root _ _ _ I) as (rd & Hrd & Hp & _).
    assert (nd = rd) as -> by congruence. rewrite Hp. reflexivity.
  - destruct (inv_node _ _ _ I a nd ltac:(lia) Hnd)
      as (p & pd & t & Hp & Hlt & Hpd & _).
    rewrite Hp. eapply Root_rec_mono; [eapply IH; eauto; lia | lia].
Qed.

Lemma deep_ok_unfold nd :
  deep_ok nd <-> node_ok nd /\ Forall deep_ok (Nodes nd).
Proof.
  destruct nd as [p t d c pa di na ty ck l]. cbn [deep_ok Nodes].
  assert (H : (fix all (l : list Node) : Prop :=
                 match l with
                 | [] => True
                 | v :: l' => deep_ok v /\ all l'
                 end) l <-> Forall deep_ok l).
  { induction l as [|v l IH].
    - split; [constructor | trivial].
    - split.
      + intros [Hv Hl]. constructor; [exact Hv | apply IH; exact Hl].
      + intros Hf. apply Forall_cons in Hf as [Hv Hl].
        split; [exact Hv | apply IH; exact Hl]. }
  rewrite H. reflexivity.
Qed.

Lemma deep_ok_intro nd :
  node_ok nd -> Forall deep_ok (Nodes nd) -> deep_ok nd.
Proof. intros H1 H2. apply deep_ok_unfold. auto. Qed.

Lemma tree_inv_log h0 m0 st r e :
  tree_inv h0 m0 st -> tree_inv h0 m0 (log st r e).
Proof. intros [R M N J E S]. split; auto. Qed.

Lemma tree_inv_created h0 m0 st n nd entry :
  tree_inv h0 m0 st -> h0 <= n -> heap st !! n = Some nd ->
  tree_inv h0 m0 (created st n nd entry).
Proof.
  intros [R M N J E S] Hn Hnd.
  assert (Hlt : n < length (heap st)) by (eapply lookup_lt_Some; eauto).
  assert (Hnew : forall a x, (heap st ++ [x]) !! a = Some x ->
                             a < length (heap st) \/ a = length (heap st)).
  { intros a x H. apply lookup_lt_Some in H. rewrite length_app in H.
    cbn in H. lia. }
  assert (Htab : forall a x, h0 <= a -> heap st !! a = Some x ->
            exists t, table x = Some t /\ t < length (maps st)).
  { intros a x Ha Hx. destruct (decide (a = h0)) as [->|Hne].
    - destruct R as (rd & Hrd & _ & Ht & _).
      assert (x = rd) as -> by congruence. eauto.
    - destruct (N a x ltac:(lia) Hx) as (p & pd & t & _ & _ & _ & Ht & Hlt' & _).
      exists t. split; [exact Ht | lia]. }
  split; cbn.
  - destruct R as (rd & Hrd & Hr). exists rd. split; [|exact Hr].
    rewrite snoc_lookup_old; [exact Hrd | eapply lookup_lt_Some; eauto].
  - rewrite length_app. lia.
  - intros a x Ha Hx.
    destruct (decide (a = length (heap st))) as [->|Hne].
    + rewrite snoc_lookup_new in Hx. injection Hx as <-.
      exists n, nd, (length (maps st)). cbn.
      rewrite snoc_lookup_old by exact Hlt. rewrite length_app. cbn.
      repeat split; auto; try lia.
      * apply classify_tag.
      * intros [x Hx]. discriminate.
    + assert (a < length (heap st)).
      { apply lookup_lt_Some in Hx. rewrite length_app in Hx. cbn in Hx. lia. }
      rewrite snoc_lookup_old in Hx by assumption.
      destruct (N a x Ha Hx) as (p & pd & t & Hp & Hlt' & Hpd & Ht & Htl & Hrest).
      exists p, pd, t. rewrite snoc_lookup_old by lia. rewrite length_app.
      repeat split; auto; try lia; apply Hrest.
  - intros a b nda ndb Ha Hb Hnda Hndb Hab.
    destruct (decide (a = length (heap st))) as [->|Hna];
      destruct (decide (b = length (heap st))) as [->|Hnb]; auto.
    + rewrite snoc_lookup_new in Hnda. injection Hnda as <-.
      assert (b < length (heap st)).
      { apply lookup_lt_Some in Hndb. rewrite length_app in Hndb.
        cbn in Hndb. lia. }
      rewrite snoc_lookup_old in Hndb by assumption.
      destruct (Htab b ndb Hb Hndb) as (t & Ht & Hlt').
      cbn in Hab. rewrite Ht in Hab. injection Hab as Hab. lia.
    + rewrite snoc_lookup_new in Hndb. injection Hndb as <-.
      assert (a < length (heap st)).
      { apply lookup_lt_Some in Hnda. rewrite length_app in Hnda.
        cbn in Hnda. lia. }
      rewrite snoc_lookup_old in Hnda by assumption.
      destruct (Htab a nda Ha Hnda) as (t & Ht & Hlt').
      cbn in Hab. rewrite Ht in Hab. injection Hab as Hab. lia.
    + assert (a < length (heap st)).
      { apply lookup_lt_Some in Hnda. rewrite length_app in Hnda.
        cbn in Hnda. lia. }
      assert (b < length (heap st)).
      { apply lookup_lt_Some in Hndb. rewrite length_app in Hndb.
        cbn in Hndb. lia. }
      rewrite snoc_lookup_old in Hnda, Hndb by assumption.
      eapply J; eauto.
  - intros id m k c Hid Hm Hk.
    destruct (decide (id = length (maps st))) as [->|Hne].
    + rewrite snoc_lookup_new in Hm. injection Hm as <-.
      rewrite lookup_empty in Hk. discriminate.
    + assert (id < length (maps st)).
      { apply lookup_lt_Some in Hm. rewrite length_app in Hm. cbn in Hm. lia. }
      rewrite snoc_lookup_old in Hm by assumption.
      destruct (E id m k c Hid Hm Hk) as (cd & p & pd & Hc & Hcd & Hpath & Hp
                                          & Hpd & Hown).
      exists cd, p, pd.
      rewrite !snoc_lookup_old by (eapply lookup_lt_Some; eauto).
      repeat split; auto.
  - intros a x Ha Hx.
    destruct (decide (a = length (heap st))) as [->|Hne].
    + rewrite snoc_lookup_new in Hx. injection Hx as <-. constructor.
    + assert (a < length (heap st)).
      { apply lookup_lt_Some in Hx. rewrite length_app in Hx. cbn in Hx. lia. }
      rewrite snoc_lookup_old in Hx by assumption. eauto.
Qed.

(** Replacing the record of a node by one that differs in the snapshot
    sequence and the digest only. *)
Lemma tree_inv_update h0 m0 st a nd nd' :
  tree_inv h0 m0 st -> heap st !! a = Some nd -> node_kept nd nd' ->
  (is_Some (Checksum nd') -> Type_ nd' = File) ->
  Forall deep_ok (Nodes nd') ->
  tree_inv h0 m0 (set_heap st (<[a := nd']> (heap st))).
Proof.
  intros [R M N J E S] Hnd (l & ck & ->) Hck Hsnap.
  assert (Hlt : a < length (heap st)) by (eapply lookup_lt_Some; eauto).
  assert (Hlook : forall b x, <[a := set_Checksum (set_Nodes nd l) ck]>
                                (heap st) !! b = Some x ->
            exists x0, heap st !! b = Some x0 /\
              parent x = parent x0 /\ table x = table x0 /\
              depth x = depth x0 /\ Path x = Path x0 /\ Name x = Name x0 /\
              Type_ x = Type_ x0 /\
              (is_Some (Checksum x) -> Type_ x = File ->
               b = a \/ is_Some (Checksum x0)) /\
              (b <> a -> x = x0)).
  { intros b x Hx. destruct (decide (b = a)) as [->|Hne].
    - rewrite list_lookup_insert_eq in Hx by exact Hlt. injection Hx as <-.
      exists nd. repeat split; auto. contradiction.
    - rewrite list_lookup_insert_ne in Hx by auto.
      exists x. repeat split; auto. }
  assert (Hfwd : forall b x0, heap st !! b = Some x0 ->
            exists x, <[a := set_Checksum (set_Nodes nd l) ck]>
                        (heap st) !! b = Some x /\
              parent x = parent x0 /\ table x = table x0 /\
              depth x = depth x0 /\ Path x = Path x0 /\ Name x = Name x0).
  { intros b x0 Hx0. destruct (decide (b = a)) as [->|Hne].
    - rewrite list_lookup_insert_eq by exact Hlt.
      assert (x0 = nd) as -> by congruence.
      eexists. split; [reflexivity|]. repeat split.
    - rewrite list_lookup_insert_ne by auto. exists x0. repeat split; auto. }
  split; cbn.
  - destruct R as (rd & Hrd & Hp & Ht & Hd & Hty & Hc).
    destruct (decide (h0 = a)) as [->|Hne].
    + rewrite list_lookup_insert_eq by exact Hlt.
      assert (nd = rd) as -> by congruence.
      eexists. split; [reflexivity|]. cbn. repeat split; auto.
      destruct ck as [s|]; [|reflexivity].
      cbn in Hck. specialize (Hck ltac:(eauto)). rewrite Hty in Hck.
      discriminate.
    + rewrite list_lookup_insert_ne by auto. exists rd. repeat split; auto.
  - exact M.
  - intros b x Hb Hx. destruct (Hlook b x Hx)
      as (x0 & Hx0 & Hp0 & Ht0 & Hd0 & Hpa0 & Hn0 & Hty0 & Hc0 & Hsame).
    destruct (N b x0 Hb Hx0) as (p & pd & t & Hp & Hlt' & Hpd & Ht & Htl & Hd
                                 & Hpath & Htag & Hcf).
    destruct (Hfwd p pd Hpd) as (pd' & Hpd' & _ & _ & Hdp & Hpp & _).
    exists p, pd', t. unfold has_tag in *.
    rewrite Hp0, Ht0, Hd0, Hpa0, Hn0, Hty0, Hdp, Hpp.
    repeat split; auto; try lia.
    intros Hs. destruct (decide (b = a)) as [->|Hne].
    * rewrite list_lookup_insert_eq in Hx by exact Hlt. injection Hx as <-.
      rewrite <- Hty0. apply Hck. exact Hs.
    * rewrite (Hsame Hne) in Hs. auto.
  - intros b1 b2 x1 x2 H1 H2 Hx1 Hx2 Heq.
    destruct (Hlook b1 x1 Hx1) as (y1 & Hy1 & _ & Ht1 & _).
    destruct (Hlook b2 x2 Hx2) as (y2 & Hy2 & _ & Ht2 & _).
    eapply J; eauto. congruence.
  - intros id m k c Hid Hm Hk.
    destruct (E id m k c Hid Hm Hk) as (cd & p & pd & Hc & Hcd & Hpath & Hp
                                        & Hpd & Hown).
    destruct (Hfwd c cd Hcd) as (cd' & Hcd' & Hp' & _ & _ & Hpa' & _).
    destruct (Hfwd p pd Hpd) as (pd' & Hpd' & _ & Ht' & _).
    exists cd', p, pd'. rewrite Hp', Hpa', Ht'. repeat split; auto.
  - intros b x Hb Hx. destruct (decide (b = a)) as [->|Hne].
    + rewrite list_lookup_insert_eq in Hx by exact Hlt. injection Hx as <-.
      exact Hsnap.
    + rewrite list_lookup_insert_ne in Hx by auto. eauto.
Qed.

(** Registering a node of the tree in the table of the root or in the
    table of its parent. *)
Lemma tree_inv_reg h0 m0 st id c cd p pd :
  tree_inv h0 m0 st -> m0 <= id ->
  h0 < c -> heap st !! c = Some cd -> parent cd = Some p ->
  heap st !! p = Some pd -> (id = m0 \/ table pd = Some id) ->
  tree_inv h0 m0 (set_maps st (reg (maps st) id (Path cd) c)).
Proof.
  intros [R M N J E S] Hid Hc Hcd Hp Hpd Hown. split; cbn; [| | | |  |exact S].
  - exact R.
  - rewrite reg_length. exact M.
  - intros a nd Ha Hnd. rewrite reg_length. auto.
  - exact J.
  - intros id' m k c' Hid' Hm Hk. unfold reg in Hm.
    destruct (maps st !! id) as [m1|] eqn:Em; [|eauto].
    destruct (m1 !! Path cd) eqn:Ek; [eauto|].
    destruct (decide (id' = id)) as [->|Hne].
    + rewrite list_lookup_insert_eq in Hm
        by (eapply lookup_lt_Some; eauto).
      injection Hm as <-.
      destruct (decide (k = Path cd)) as [->|Hnk].
      * rewrite lookup_insert_eq in Hk. injection Hk as <-.
        exists cd, p, pd. repeat split; auto.
      * rewrite lookup_insert_ne in Hk by auto. eauto.
    + rewrite list_lookup_insert_ne in Hm by auto. eauto.
Qed.

Lemma tree_inv_same h0 m0 st st' :
  heap st' = heap st -> maps st' = maps st ->
  tree_inv h0 m0 st -> tree_inv h0 m0 st'.
Proof.
  intros Hh Hm [R M N J E S]. split; rewrite ?Hh, ?Hm; auto.
Qed.

Lemma reg_registered ms id k v m :
  ms !! id = Some m ->
  exists m' b, reg ms id k v !! id = Some m' /\ m' !! k = Some b.
Proof.
  intros H. unfold reg. rewrite H. destruct (m !! k) as [b|] eqn:E.
  - eauto.
  - rewrite list_lookup_insert_eq by (eapply lookup_lt_Some; eauto).
    eexists _, v. split; [reflexivity | apply lookup_insert_eq].
Qed.

Lemma settled_evolves m0 n st st' a :
  settled m0 st a -> evolves n st st' -> a <> n -> settled m0 st' a.
Proof.
  intros (nd & m & b & Hnd & Hm & Hb & Hck) Hev Hne.
  destruct (ev_maps _ _ _ Hev _ _ Hm) as (m' & Hm' & Hsub).
  exists nd, m', b. repeat split; auto.
  - rewrite (ev_old _ _ _ Hev); auto. eapply lookup_lt_Some; eauto.
  - eapply lookup_weaken; eauto.
Qed.

Lemma tag_distinct :
  Directory <> File /\ Symbolic <> File /\ Directory <> Symbolic.
Proof. repeat split; discriminate. Qed.

Section Shape.

Variable sha256_hex : list byte -> string.
Variables h0 m0 : nat.


Lemma construction_inv :
  (forall disk n st st',
      Walk sha256_hex disk n st st' ->
      tree_inv h0 m0 st -> h0 <= n < length (heap st) -> tree_post h0 m0 st st')
  /\ (forall entries n st st',
        WalkEntries sha256_hex entries n st st' ->
        tree_inv h0 m0 st -> h0 <= n < length (heap st) -> tree_post h0 m0 st st')
  /\ (forall entry n st st',
        WalkEntry sha256_hex entry n st st' ->
        tree_inv h0 m0 st -> h0 <= n < length (heap st) -> tree_post h0 m0 st st')
  /\ (forall entry child st st',
        Fill sha256_hex entry child st st' ->
        tree_inv h0 m0 st -> h0 < child ->
        (exists c, heap st !! child = Some c /\ Type_ c = classify entry) ->
        tree_post h0 m0 st st' /\
        forall c', heap st' !! child = Some c' ->
                   Type_ c' = File -> is_Some (Checksum c')).
Proof.
  destruct construction_evolves with (sha256_hex := sha256_hex)
    as (EvW & EvEs & EvE & EvF).
  apply (Walk_mutind sha256_hex
    (fun _ n st st' =>
       tree_inv h0 m0 st -> h0 <= n < length (heap st) -> tree_post h0 m0 st st')
    (fun _ n st st' =>
       tree_inv h0 m0 st -> h0 <= n < length (heap st) -> tree_post h0 m0 st st')
    (fun _ n st st' =>
       tree_inv h0 m0 st -> h0 <= n < length (heap st) -> tree_post h0 m0 st st')
    (fun entry child st st' =>
       tree_inv h0 m0 st -> h0 < child ->
       (exists c, heap st !! child = Some c /\ Type_ c = classify entry) ->
       tree_post h0 m0 st st' /\
       forall c', heap st' !! child = Some c' ->
                  Type_ c' = File -> is_Some (Checksum c'))).
  - (* folder *)
    intros entries n nd st st' Hn _ IH I Hrange.
    apply IH; [apply tree_inv_log; exact I | exact Hrange].
  - (* listing error *)
    intros disk n nd e st Hn _ I Hrange. split.
    + do 2 apply tree_inv_log. exact I.
    + cbn. intros a Ha. lia.
  - intros n st I _. split; [exact I | intros a Ha; lia].
  - (* entries *)
    intros entry rest n st st1 st' HE IH1 HEs IH2 I Hrange.
    destruct (IH1 I Hrange) as [I1 S1].
    pose proof (EvE _ _ _ _ HE) as Ev1.
    pose proof (EvEs _ _ _ _ HEs) as Ev2.
    pose proof (ev_len _ _ _ Ev1) as L1.
    destruct (IH2 I1 ltac:(lia)) as [I2 S2].
    split; [exact I2|]. intros a Ha.
    destruct (decide (a < length (heap st1))) as [Hlt|Hge].
    + eapply settled_evolves; [apply S1; lia | exact Ev2 | lia].
    + apply S2. lia.
  - (* one entry *)
    intros entry n nd st st1 r rd c nd1 tr tn Hn HF IHfill Hr Hrd Htr Hmr Hc
           Hn1 Htn Hmn I Hrange.
    set (child := length (heap st)) in *.
    pose proof (tree_inv_created _ _ _ _ _ entry I (proj1 Hrange) Hn) as I0.
    pose proof (EvF _ _ _ _ HF) as Ev.
    assert (Hchild0 : heap (created st n nd entry) !! child
                      = Some (fresh_node n nd (length (maps st)) entry)).
    { cbn. apply snoc_lookup_new. }
    destruct (IHfill I0 ltac:(lia) ltac:(eauto)) as [[I1 S1] Hck].
    (* the records of the child and of [n] after the fill *)
    destruct (ev_at _ _ _ Ev _ Hchild0) as (c' & Hc' & l & ck & Hkept).
    assert (c' = c) as -> by congruence.
    assert (Hn0 : heap (created st n nd entry) !! n = Some nd).
    { cbn. rewrite snoc_lookup_old; [exact Hn | lia]. }
    assert (nd1 = nd) as ->.
    { rewrite (ev_old _ _ _ Ev) in Hn1; [congruence | | ].
      - cbn. rewrite length_app. lia.
      - unfold child. lia. }
    assert (Hpc : parent c = Some n /\ Type_ c = classify entry).
    { rewrite Hkept. cbn. auto. }
    destruct Hpc as [Hpc Htc].
    (* the root and its table *)
    pose proof (inv_Root _ _ _ _ _ I1 (proj1 Hrange) Hn1) as Hr'.
    assert (r = h0) as -> by congruence.
    destruct (inv_root _ _ _ I1) as (rd' & Hrd' & _ & Htr' & _).
    assert (tr = m0) as -> by congruence.
    assert (Htn_ge : m0 <= tn).
    { destruct (decide (n = h0)) as [->|Hne].
      - assert (nd = rd') by congruence. subst rd'.
        assert (tn = m0) by congruence. lia.
      - destruct (inv_node _ _ _ I1 n nd ltac:(lia) Hn1)
          as (_ & _ & t & _ & _ & _ & Ht & Htl & _).
        assert (tn = t) by congruence. lia. }
    assert (Hck_n : is_Some (Checksum nd) -> Type_ nd = File).
    { destruct (decide (n = h0)) as [->|Hne].
      - destruct (inv_root _ _ _ I1) as (rd2 & Hrd2 & _ & _ & _ & _ & Hnone).
        assert (nd = rd2) as -> by congruence.
        rewrite Hnone. intros [x Hx]. discriminate.
      - destruct (inv_node _ _ _ I1 n nd ltac:(lia) Hn1)
          as (_ & _ & _ & _ & _ & _ & _ & _ & _ & _ & _ & Hcf).
        exact Hcf. }
    assert (Hlen1 : S child <= length (heap st1)).
    { pose proof (ev_len _ _ _ Ev) as L. cbn in L.
      rewrite length_app in L. cbn in L. unfold child. lia. }
    (* the invariant after the registration *)
    assert (I2 : tree_inv h0 m0 (enrolled st1 n child nd c m0 tn)).
    { pose proof (tree_inv_reg h0 m0 st1 m0 child c n nd I1 ltac:(lia)
                    ltac:(unfold child; lia) Hc Hpc Hn1 ltac:(auto)) as Ia.
      pose proof (tree_inv_reg h0 m0 _ tn child c n nd Ia Htn_ge
                    ltac:(unfold child; lia) Hc Hpc Hn1 ltac:(auto)) as Ib.
      apply (tree_inv_update h0 m0 _ n nd
               (set_Nodes nd (Nodes nd ++ [c])) Ib Hn1).
      - exists (Nodes nd ++ [c]), (Checksum nd). destruct nd; reflexivity.
      - exact Hck_n.
      - cbn. apply Forall_app. split.
        + eapply (inv_snap _ _ _ I1 n); [lia | exact Hn1].
        + constructor; [|constructor].
          apply deep_ok_intro.
          * destruct (inv_node _ _ _ I1 child c ltac:(unfold child; lia) Hc)
              as (_ & _ & _ & _ & _ & _ & _ & _ & _ & _ & Htag & Hcf).
            split; [exact Htag|]. split; [exact Hcf | apply Hck; exact Hc].
          * eapply (inv_snap _ _ _ I1 child); [unfold child; lia | exact Hc]. }
    split; [exact I2|]. intros a Ha.
    assert (Ev2 : evolves n st1 (enrolled st1 n child nd c m0 tn))
      by (apply evolves_enrolled; exact Hn1).
    change (length (heap (enrolled st1 n child nd c m0 tn)))
      with (length (<[n := set_Nodes nd (Nodes nd ++ [c])]> (heap st1))) in Ha.
    rewrite length_insert in Ha.
    destruct (decide (a = child)) as [->|Hne].
    + destruct Hmr as [mr Hmr].
      destruct (reg_registered (maps st1) m0 (Path c) child mr Hmr)
        as (m1 & b & Hm1 & Hb).
      destruct (reg_mono _ tn (Path c) child m0 m1 Hm1) as (m2 & Hm2 & Hsub).
      exists c, m2, b. repeat split.
      * cbn. rewrite list_lookup_insert_ne by (unfold child; lia). exact Hc.
      * exact Hm2.
      * eapply lookup_weaken; eauto.
      * apply Hck. exact Hc.
    + eapply settled_evolves; [apply S1 | exact Ev2 | unfold child in *; lia].
      cbn. rewrite length_app. cbn. unfold child in *. lia.
  - (* directory *)
    intros entry child st st1 Hcl HW IH I Hchild (c & Hc & Htc).
    assert (Hlt : child < length (heap st)) by (eapply lookup_lt_Some; eauto).
    split; [apply IH; [exact I | lia]|].
    intros c' Hc' Hf.
    destruct (ev_at _ _ _ (EvW _ _ _ _ HW) _ Hc) as (c2 & Hc2 & l & ck & ->).
    assert (c' = set_Checksum (set_Nodes c l) ck) as -> by congruence.
    cbn in Hf. rewrite Htc, Hcl in Hf. discriminate.
  - (* file *)
    intros entry child st uri st1 c data Hcl Hu Ht Hc I Hchild (c0 & Hc0 & Htc).
    destruct (URI_evolves child st uri st1 Hu) as (Hh & Hm & Hw & _).
    rewrite Hh in Hc. assert (c0 = c) as -> by congruence.
    assert (I1 : tree_inv h0 m0 (log st1 (ReqChecksum child uri) None)).
    { apply tree_inv_log. eapply tree_inv_same; eauto. }
    assert (Hlt : child < length (heap st)) by (eapply lookup_lt_Some; eauto).
    split; [split|].
    + rewrite <- Hh in Hc.
      apply (tree_inv_update h0 m0 _ child c _ I1 Hc).
      * exists (Nodes c), (Some (sha256_hex data)). destruct c; reflexivity.
      * intros _. cbn. congruence.
      * cbn. eapply (inv_snap _ _ _ I child); [lia|].
        rewrite <- Hh. exact Hc.
    + cbn. rewrite length_insert, Hh. intros a Ha. lia.
    + cbn. rewrite list_lookup_insert_eq by (rewrite Hh; exact Hlt).
      intros c' [= <-] _. cbn. eauto.
  - (* symbolic link *)
    intros entry child st Hcl I Hchild (c & Hc & Htc).
    split; [split; [exact I | intros a Ha; lia]|].
    intros c' Hc' Hf. assert (c' = c) as -> by congruence.
    rewrite Htc, Hcl in Hf. discriminate.
Qed.

End Shape.

(* ===================================================================== *)
(** * Trees built by [New] *)
(* ===================================================================== *)

Lemma Stat_Return path st r st' :
  os_Stat path st = Return r st' ->
  heap st' = heap st /\ maps st' = maps st /\ world st' = world st /\
  exists e, calls st' = calls st ++ [mkEvent (ReqStat path) e] /\
            (e = None <-> exists fi, r = inr fi).
Proof.
  intros H. pose proof (same_world_Stat path st) as Hw. rewrite H in Hw.
  cbn in Hw. unfold os_Stat in H.
  destruct (oscall_cases (A:=FileInfo) (ReqStat path)
    (fun w => if String.eqb path "" then inl ENOENT
       else match locate (files w) [] (resolve w path) with
            | inl e => inl e
            | inr o => inr (mkFileInfo (basename path) (f_mode o), files w)
            end) st)
    as [(f & _ & E) | [(e & _ & _ & E) | (a & fs & _ & _ & E)]];
    rewrite E in H; injection H as <- <-; repeat split; auto;
    eexists; (split; [reflexivity|]).
  - split; [discriminate | intros [fi [=]]].
  - split; [discriminate | intros [fi [=]]].
  - split; [eauto | reflexivity].
Qed.

Section Trees.

Variable sha256_hex : list byte -> string.

Lemma New_inv path disk st root st' :
  New sha256_hex path disk st = Return root st' ->
  exists fi st0,
    os_Stat path st = Return (inr fi) st0 /\
    Mode_IsDir (fi_Mode fi) = true /\
    root = length (heap st) /\
    Walk sha256_hex disk root (planted st0 path fi) st'.
Proof.
  intros H. unfold New in H.
  apply bind_Return in H as (d & st0 & Hs & H).
  destruct d as [e|fi]; [discriminate|].
  destruct (Mode_IsDir (fi_Mode fi)) eqn:Hd; [|discriminate]. cbn [negb] in H.
  apply bind_Return in H as (t & s1 & Ht & H).
  unfold new_map in Ht. injection Ht as <- <-.
  apply bind_Return in H as (r & s1 & Ha & H).
  unfold alloc in Ha. injection Ha as <- <-.
  apply bind_Return in H as ([] & s1 & Hw & H).
  unfold ret in H. injection H as <- <-.
  apply walk_sound in Hw.
  destruct (Stat_Return _ _ _ _ Hs) as (Hh & _).
  exists fi, st0. cbn. rewrite Hh. repeat split; auto.
  cbn in Hw. rewrite Hh in Hw. unfold planted. cbn. rewrite Hh. exact Hw.
Qed.

Lemma tree_inv_planted st path fi :
  tree_inv (length (heap st)) (length (maps st)) (planted st path fi).
Proof.
  split; cbn.
  - eexists. split; [apply snoc_lookup_new|]. cbn. repeat split.
  - rewrite length_app. cbn. lia.
  - intros a nd Ha Hnd. apply lookup_lt_Some in Hnd.
    rewrite length_app in Hnd. cbn in Hnd. lia.
  - intros a b nda ndb Ha Hb Hnda Hndb _.
    apply lookup_lt_Some in Hnda, Hndb.
    rewrite length_app in Hnda, Hndb. cbn in Hnda, Hndb. lia.
  - intros id m k c Hid Hm Hk.
    assert (id = length (maps st)) as ->.
    { apply lookup_lt_Some in Hm. rewrite length_app in Hm. cbn in Hm. lia. }
    rewrite snoc_lookup_new in Hm. injection Hm as <-.
    rewrite lookup_empty in Hk. discriminate.
  - intros a nd Ha Hnd.
    assert (a = length (heap st)) as ->.
    { apply lookup_lt_Some in Hnd. rewrite length_app in Hnd. cbn in Hnd. lia. }
    rewrite snoc_lookup_new in Hnd. injection Hnd as <-. constructor.
Qed.

(** The summary of a successful [New] that the claims rest on. *)
Lemma New_tree path disk st root st' :
  New sha256_hex path disk st = Return root st' ->
  root = length (heap st) /\
  tree_inv root (length (maps st)) st' /\
  (forall a, root < a < length (heap st') ->
             settled (length (maps st)) st' a) /\
  (forall a, a < root -> heap st' !! a = heap st !! a) /\
  (exists rd, heap st' !! root = Some rd /\ Path rd = path) /\
  world st' = world st.
Proof.
  intros H. apply New_inv in H as (fi & st0 & Hs & Hd & -> & HW).
  destruct (Stat_Return _ _ _ _ Hs) as (Hh & Hm & Hw & _).
  destruct (construction_inv sha256_hex (length (heap st)) (length (maps st)))
    as (IW & _).
  pose proof (tree_inv_planted st0 path fi) as I0. rewrite Hh, Hm in I0.
  destruct (IW _ _ _ _ HW I0) as [I S].
  { unfold planted. cbn. rewrite length_app, Hh. cbn. lia. }
  destruct (construction_evolves sha256_hex) as (EvW & _).
  pose proof (EvW _ _ _ _ HW) as Ev.
  split; [reflexivity|]. split; [exact I|]. split; [|split; [|split]].
  - intros a Ha. apply S. unfold planted. cbn.
    rewrite length_app, Hh. cbn. lia.
  - intros a Ha. rewrite (ev_old _ _ _ Ev).
    + unfold planted. cbn. rewrite Hh. apply snoc_lookup_old. exact Ha.
    + unfold planted. cbn. rewrite length_app, Hh. lia.
    + lia.
  - destruct (ev_at _ _ _ Ev (root_node path fi (length (maps st0))))
      as (rd & Hrd & l & ck & ->).
    { unfold planted. cbn. rewrite <- Hh. apply snoc_lookup_new. }
    exists (set_Checksum (set_Nodes (root_node path fi (length (maps st0))) l) ck).
    split; [exact Hrd | reflexivity].
  - rewrite (ev_world _ _ _ Ev). unfold planted. cbn. exact Hw.
Qed.

Lemma New_index path disk st root st' :
  New sha256_hex path disk st = Return root st' ->
  (forall a nd, root <= a -> heap st' !! a = Some nd ->
                Map a st' = Return (Some (length (maps st))) st')
  /\ (forall a nd, root < a -> heap st' !! a = Some nd ->
        exists m b, maps st' !! length (maps st) = Some m /\
                    m !! Path nd = Some b).
Proof.
  intros H.
  apply New_tree in H as (-> & I & S & _). split.
  - intros a nd Ha Hnd. unfold Map.
    assert (HR : Root a st' = Return (length (heap st)) st').
    { apply Root_Return. split; [eauto|]. split; [|reflexivity].
      eapply inv_Root; eauto. }
    rewrite (bind_step _ _ _ _ _ HR).
    destruct (inv_root _ _ _ I) as (rd & Hrd & _ & Ht & _).
    rewrite (bind_step _ _ _ _ _ (deref_step _ _ _ Hrd)).
    rewrite Ht. reflexivity.
  - intros a nd Ha Hnd.
    destruct (S a) as (nd' & m & b & Hnd' & Hm & Hb & _).
    { split; [lia | eapply lookup_lt_Some; eauto]. }
    assert (nd' = nd) as -> by congruence. eauto.
Qed.

(** C7.  In a tree built by [New], [Map] called on any node of the tree
    returns the one map that the root owns, and leaves the state as it is;
    that map has an entry under the path of every node inserted below the
    root.  A registration never replaces an entry: what a map holds under
    a path before [walk] or [enroll] runs, it holds afterwards, so the
    first registration of a path wins. *)
Theorem Map_is_root_index :
  (forall path disk st root st',
      New sha256_hex path disk st = Return root st' ->
      (forall a nd, root <= a -> heap st' !! a = Some nd ->
                    Map a st' = Return (Some (length (maps st))) st')
      /\ (forall a nd, root < a -> heap st' !! a = Some nd ->
            exists m b, maps st' !! length (maps st) = Some m /\
                        m !! Path nd = Some b))
  /\ (forall n child st st' id m k b,
        enroll n child st = Return tt st' ->
        maps st !! id = Some m -> m !! k = Some b ->
        exists m', maps st' !! id = Some m' /\ m' !! k = Some b)
  /\ (forall disk n st st' id m k b,
        walk sha256_hex disk n st = Return tt st' ->
        maps st !! id = Some m -> m !! k = Some b ->
        exists m', maps st' !! id = Some m' /\ m' !! k = Some b).
Proof.
  split; [|split].
  - intros path disk st root st' H. exact (New_index _ _ _ _ _ H).
  - intros n child st st' id m k b H Hm Hk.
    apply enroll_inv in H
      as (r & rd & c & nd & tr & tn & _ & _ & _ & _ & _ & Hn & _ & _ & ->).
    destruct (ev_maps _ _ _ (evolves_enrolled n child st nd c tr tn Hn) _ _ Hm)
      as (m' & Hm' & Hsub).
    exists m'. split; [exact Hm' | eapply lookup_weaken; eauto].
  - intros disk n st st' id m k b H Hm Hk.
    apply walk_sound in H.
    destruct (construction_evolves sha256_hex) as (EvW & _).
    destruct (ev_maps _ _ _ (EvW _ _ _ _ H) _ _ Hm) as (m' & Hm' & Hsub).
    exists m'. split; [exact Hm' | eapply lookup_weaken; eauto].
Qed.

End Trees.

(* ===================================================================== *)
(** * Digests are computed once *)
(* ===================================================================== *)

Lemma checksum_calls_app a evs1 evs2 :
  checksum_calls a (evs1 ++ evs2)
  = checksum_calls a evs1 + checksum_calls a evs2.
Proof.
  induction evs1 as [|ev evs1 IH]; [reflexivity|]. cbn.
  destruct (ev_req ev); auto. destruct (Nat.eqb _ _); cbn; auto.
Qed.

Lemma checksum_calls_Getwd a evs :
  Forall (fun ev => ev_req ev = ReqGetwd) evs -> checksum_calls a evs = 0.
Proof.
  induction 1 as [|ev evs H _ IH]; [reflexivity|]. cbn. rewrite H. exact IH.
Qed.

Lemma evolves_Type n st st' a nd :
  evolves n st st' -> heap st !! a = Some nd ->
  exists nd', heap st' !! a = Some nd' /\ Type_ nd' = Type_ nd.
Proof.
  intros Ev H. destruct (decide (a = n)) as [->|Hne].
  - destruct (ev_at _ _ _ Ev _ H) as (nd' & H' & l & ck & ->).
    eexists. split; [exact H' | reflexivity].
  - exists nd. split; [|reflexivity].
    rewrite (ev_old _ _ _ Ev); auto. eapply lookup_lt_Some; eauto.
Qed.

Section Digests.

Variable sha256_hex : list byte -> string.

Lemma construction_counted :
  (forall disk n st st',
      Walk sha256_hex disk n st st' -> n < length (heap st) ->
      counted (length (heap st)) st st')
  /\ (forall entries n st st',
        WalkEntries sha256_hex entries n st st' -> n < length (heap st) ->
        counted (length (heap st)) st st')
  /\ (forall entry n st st',
        WalkEntry sha256_hex entry n st st' -> n < length (heap st) ->
        counted (length (heap st)) st st')
  /\ (forall entry child st st',
        Fill sha256_hex entry child st st' ->
        S child = length (heap st) ->
        (exists c, heap st !! child = Some c /\ Type_ c = classify entry) ->
        counted child st st').
Proof.
  destruct construction_evolves with (sha256_hex := sha256_hex)
    as (EvW & EvEs & EvE & EvF).
  apply (Walk_mutind sha256_hex
    (fun _ n st st' => n < length (heap st) ->
                       counted (length (heap st)) st st')
    (fun _ n st st' => n < length (heap st) ->
                       counted (length (heap st)) st st')
    (fun _ n st st' => n < length (heap st) ->
                       counted (length (heap st)) st st')
    (fun entry child st st' =>
       S child = length (heap st) ->
       (exists c, heap st !! child = Some c /\ Type_ c = classify entry) ->
       counted child st st')).
  - (* folder *)
    intros entries n nd st st' Hn _ IH Hlt.
    destruct (IH Hlt) as (evs & Hc & Hcount).
    exists (mkEvent (ReqReadDir (Path nd)) None :: evs). split.
    { rewrite Hc. cbn. rewrite <- app_assoc. reflexivity. }
    intros a. cbn. apply Hcount.
  - (* listing error *)
    intros disk n nd e st Hn _ Hlt. eexists. split.
    { cbn. rewrite <- app_assoc. reflexivity. }
    intros a. cbn. destruct (heap st !! a) as [x|] eqn:E; [|reflexivity].
    apply lookup_lt_Some in E.
    destruct (Nat.leb_spec (length (heap st)) a); [lia | reflexivity].
  - intros n st Hlt. exists []. rewrite app_nil_r. split; [reflexivity|].
    intros a. cbn. destruct (heap st !! a) as [x|] eqn:E; [|reflexivity].
    apply lookup_lt_Some in E.
    destruct (Nat.leb_spec (length (heap st)) a); [lia | reflexivity].
  - (* entries *)
    intros entry rest n st st1 st' HE IH1 HEs IH2 Hlt.
    pose proof (EvE _ _ _ _ HE) as Ev1.
    pose proof (EvEs _ _ _ _ HEs) as Ev2.
    pose proof (ev_len _ _ _ Ev1) as L1.
    destruct (IH1 Hlt) as (evs1 & Hc1 & Hcount1).
    destruct (IH2 ltac:(lia)) as (evs2 & Hc2 & Hcount2).
    exists (evs1 ++ evs2). split.
    { rewrite Hc2, Hc1, app_assoc. reflexivity. }
    intros a. rewrite checksum_calls_app, Hcount1, Hcount2.
    destruct (heap st1 !! a) as [x1|] eqn:E1.
    + destruct (evolves_Type _ _ _ _ _ Ev2 E1) as (x' & -> & ->).
      apply lookup_lt_Some in E1.
      destruct (Nat.leb_spec (length (heap st1)) a); [lia|].
      cbn [andb]. lia.
    + apply lookup_ge_None in E1.
      destruct (heap st' !! a) as [x'|]; [|reflexivity].
      destruct (Nat.leb_spec (length (heap st1)) a); [|lia].
      destruct (Nat.leb_spec (length (heap st)) a); [|lia]. reflexivity.
  - (* one entry *)
    intros entry n nd st st1 r rd c nd1 tr tn Hn HF IHfill Hr Hrd Htr Hmr Hc
           Hn1 Htn Hmn Hlt.
    destruct IHfill as (evs & Hcalls & Hcount).
    { cbn. rewrite length_app. cbn. lia. }
    { eexists. split; [cbn; apply snoc_lookup_new | reflexivity]. }
    exists evs. split; [exact Hcalls|].
    intros a. rewrite Hcount. cbn.
    destruct (decide (a = n)) as [->|Hne].
    + rewrite Hn1.
      rewrite list_lookup_insert_eq by (eapply lookup_lt_Some; eauto).
      reflexivity.
    + rewrite list_lookup_insert_ne by auto. reflexivity.
  - (* directory *)
    intros entry child st st1 Hcl HW IH Hlen (c & Hc & Htc).
    destruct (IH ltac:(lia)) as (evs & Hcalls & Hcount).
    exists evs. split; [exact Hcalls|]. intros a. rewrite Hcount.
    destruct (heap st1 !! a) as [x|] eqn:E; [|reflexivity].
    destruct (Nat.leb_spec (length (heap st)) a);
      destruct (Nat.leb_spec child a); try lia; try reflexivity.
    assert (a = child) as -> by lia.
    destruct (evolves_Type _ _ _ _ _ (EvW _ _ _ _ HW) Hc) as (x' & Hx' & Hty).
    assert (x' = x) as -> by congruence.
    rewrite Hty, Htc, Hcl. reflexivity.
  - (* file *)
    intros entry child st uri st1 c data Hcl Hu Ht Hc Hlen (c0 & Hc0 & Htc).
    destruct (URI_evolves child st uri st1 Hu)
      as (Hh & Hm & Hw & evs & Hcalls & Hevs).
    rewrite Hh in Hc. assert (c0 = c) as -> by congruence.
    exists (evs ++ [mkEvent (ReqChecksum child uri) None]). split.
    { cbn. rewrite Hcalls, <- app_assoc. reflexivity. }
    intros a. rewrite checksum_calls_app, (checksum_calls_Getwd _ _ Hevs).
    cbn. rewrite Hh. destruct (Nat.eqb_spec child a) as [<-|Hne].
    + rewrite list_lookup_insert_eq by lia. cbn.
      rewrite Nat.leb_refl, Htc, Hcl. reflexivity.
    + rewrite list_lookup_insert_ne by auto.
      destruct (heap st !! a) as [x|] eqn:E; [|reflexivity].
      apply lookup_lt_Some in E.
      destruct (Nat.leb_spec child a); [lia | reflexivity].
  - (* symbolic link *)
    intros entry child st Hcl Hlen (c & Hc & Htc).
    exists []. rewrite app_nil_r. split; [reflexivity|].
    intros a. cbn. destruct (heap st !! a) as [x|] eqn:E; [|reflexivity].
    pose proof (lookup_lt_Some _ _ _ E) as Hlt.
    destruct (Nat.leb_spec child a); [|reflexivity].
    assert (a = child) as -> by lia.
    assert (x = c) as -> by congruence.
    rewrite Htc, Hcl. reflexivity.
Qed.

End Digests.

Section TypeAndDigest.

Variable sha256_hex : list byte -> string.

(** C3.  In a tree built by [New] every node, and every node value nested
    in a snapshot sequence, carries one of the three tags and has a digest
    exactly if it is a file; and among the calls of the construction there
    is one digest computation for every file node and none for any other
    node. *)
Theorem nodes_typed_and_digested path disk st root st' :
  New sha256_hex path disk st = Return root st' ->
  (forall a nd, root <= a -> heap st' !! a = Some nd -> deep_ok nd)
  /\ exists evs,
       calls st' = calls st ++ mkEvent (ReqStat path) None :: evs /\
       forall a nd, root <= a -> heap st' !! a = Some nd ->
         checksum_calls a evs
         = if String.eqb (Type_ nd) File then 1 else 0.
Proof.
  intros H. pose proof (New_tree sha256_hex _ _ _ _ _ H)
    as (-> & I & S & _).
  split.
  - intros a nd Ha Hnd. apply deep_ok_intro;
      [|eapply inv_snap; eauto].
    destruct (decide (a = length (heap st))) as [->|Hne].
    + destruct (inv_root _ _ _ I) as (rd & Hrd & _ & _ & _ & Hty & Hck).
      assert (nd = rd) as -> by congruence.
      split; [right; left; exact Hty|]. rewrite Hck, Hty.
      split; [intros [x Hx]; discriminate | discriminate].
    + destruct (inv_node _ _ _ I a nd ltac:(lia) Hnd)
        as (_ & _ & _ & _ & _ & _ & _ & _ & _ & _ & Htag & Hcf).
      destruct (S a) as (nd' & _ & _ & Hnd' & _ & _ & Hfc).
      { split; [lia | eapply lookup_lt_Some; eauto]. }
      assert (nd' = nd) as -> by congruence.
      split; [exact Htag | split; assumption].
  - apply New_inv in H as (fi & st0 & Hs & Hd & _ & HW).
    destruct (Stat_Return _ _ _ _ Hs) as (Hh & Hm & Hw & e & Hc & He).
    assert (e = None) as -> by (apply He; eauto).
    destruct (construction_counted sha256_hex) as (CW & _).
    destruct (CW _ _ _ _ HW) as (evs & Hcalls & Hcount).
    { unfold planted. cbn. rewrite length_app, Hh. cbn. lia. }
    exists evs. split.
    { rewrite Hcalls. unfold planted. cbn. rewrite Hc, <- app_assoc.
      reflexivity. }
    intros a nd Ha Hnd. rewrite Hcount, Hnd.
    unfold planted. cbn. rewrite length_app, Hh. cbn.
    destruct (Nat.leb_spec (length (heap st) + 1) a); [reflexivity|].
    assert (a = length (heap st)) as -> by lia.
    destruct (inv_root _ _ _ I) as (rd & Hrd & _ & _ & _ & Hty & _).
    assert (nd = rd) as -> by congruence. rewrite Hty. reflexivity.
Qed.

End TypeAndDigest.

(* ===================================================================== *)
(** * Depth *)
(* ===================================================================== *)

Lemma wrap_int_small z :
  (- 2 ^ 63 <= z < 2 ^ 63)%Z -> wrap_int z = z.
Proof.
  intros H. unfold wrap_int. rewrite Z.mod_small; lia.
Qed.

Lemma wrap_int_range z : (- 2 ^ 63 <= wrap_int z < 2 ^ 63)%Z.
Proof.
  unfold wrap_int.
  pose proof (Z.mod_pos_bound (z + 2 ^ 63) (2 ^ 64) ltac:(lia)). lia.
Qed.

Lemma height_Folder entries :
  height (Folder entries) = S (entries_height entries).
Proof.
  cbn [height]. f_equal.
Qed.

Lemma evolves_depth n st st' a nd :
  evolves n st st' -> heap st !! a = Some nd ->
  exists nd', heap st' !! a = Some nd' /\ depth nd' = depth nd.
Proof.
  intros Ev H. destruct (decide (a = n)) as [->|Hne].
  - destruct (ev_at _ _ _ Ev _ H) as (nd' & H' & l & ck & ->).
    eexists. split; [exact H' | reflexivity].
  - exists nd. split; [|reflexivity].
    rewrite (ev_old _ _ _ Ev); auto. eapply lookup_lt_Some; eauto.
Qed.

Section Depth.

Variable sha256_hex : list byte -> string.

Lemma construction_depth :
  (forall disk n st st',
      Walk sha256_hex disk n st st' ->
      forall nd, heap st !! n = Some nd -> (0 <= depth nd)%Z ->
                 (depth nd + Z.of_nat (height disk) < 2 ^ 63)%Z ->
                 deeper (depth nd) (height disk) st st')
  /\ (forall entries n st st',
        WalkEntries sha256_hex entries n st st' ->
        forall nd, heap st !! n = Some nd -> (0 <= depth nd)%Z ->
                   (depth nd + Z.of_nat (S (entries_height entries))
                    < 2 ^ 63)%Z ->
                   deeper (depth nd) (S (entries_height entries)) st st')
  /\ (forall entry n st st',
        WalkEntry sha256_hex entry n st st' ->
        forall nd, heap st !! n = Some nd -> (0 <= depth nd)%Z ->
                   (depth nd + Z.of_nat (S (entry_height entry)) < 2 ^ 63)%Z ->
                   deeper (depth nd) (S (entry_height entry)) st st')
  /\ (forall entry child st st',
        Fill sha256_hex entry child st st' ->
        forall c, heap st !! child = Some c -> (0 <= depth c)%Z ->
                  (depth c + Z.of_nat (entry_height entry) < 2 ^ 63)%Z ->
                  deeper (depth c) (entry_height entry) st st').
Proof.
  destruct construction_evolves with (sha256_hex := sha256_hex)
    as (EvW & EvEs & EvE & EvF).
  apply (Walk_mutind sha256_hex
    (fun disk n st st' =>
       forall nd, heap st !! n = Some nd -> (0 <= depth nd)%Z ->
                  (depth nd + Z.of_nat (height disk) < 2 ^ 63)%Z ->
                  deeper (depth nd) (height disk) st st')
    (fun entries n st st' =>
       forall nd, heap st !! n = Some nd -> (0 <= depth nd)%Z ->
                  (depth nd + Z.of_nat (S (entries_height entries))
                   < 2 ^ 63)%Z ->
                  deeper (depth nd) (S (entries_height entries)) st st')
    (fun entry n st st' =>
       forall nd, heap st !! n = Some nd -> (0 <= depth nd)%Z ->
                  (depth nd + Z.of_nat (S (entry_height entry)) < 2 ^ 63)%Z ->
                  deeper (depth nd) (S (entry_height entry)) st st')
    (fun entry child st st' =>
       forall c, heap st !! child = Some c -> (0 <= depth c)%Z ->
                 (depth c + Z.of_nat (entry_height entry) < 2 ^ 63)%Z ->
                 deeper (depth c) (entry_height entry) st st'));
    unfold deeper.
  - (* folder *)
    intros entries n nd st st' Hn _ IH nd0 Hn0 H0 Hb a x Ha Hx.
    rewrite height_Folder in *. eapply IH; eauto.
  - (* listing error *)
    intros disk n nd e st Hn _ nd0 Hn0 H0 Hb a x Ha Hx. cbn in Hx.
    apply lookup_lt_Some in Hx. lia.
  - intros n st nd Hn H0 Hb a x Ha Hx. apply lookup_lt_Some in Hx. lia.
  - (* entries *)
    intros entry rest n st st1 st' HE IH1 HEs IH2 nd Hn H0 Hb a x Ha Hx.
    cbn [entries_height] in *.
    pose proof (EvE _ _ _ _ HE) as Ev1.
    pose proof (EvEs _ _ _ _ HEs) as Ev2.
    destruct (evolves_depth _ _ _ _ _ Ev1 Hn) as (nd1 & Hn1 & Hd1).
    destruct (decide (a < length (heap st1))) as [Hlt|Hge].
    + assert (Hx1 : heap st1 !! a = Some x).
      { rewrite <- (ev_old _ _ _ Ev2); auto.
        apply lookup_lt_Some in Hn. lia. }
      specialize (IH1 nd Hn H0 ltac:(lia) a x Ha Hx1). lia.
    + specialize (IH2 nd1 Hn1 ltac:(lia) ltac:(lia) a x ltac:(lia) Hx). lia.
  - (* one entry *)
    intros entry n nd st st1 r rd c nd1 tr tn Hn HF IHfill Hr Hrd Htr Hmr Hc
           Hn1 Htn Hmn nd0 Hn0 H0 Hb a x Ha Hx.
    assert (nd0 = nd) as -> by congruence.
    pose proof (EvF _ _ _ _ HF) as Ev.
    assert (Hchild0 : heap (created st n nd entry) !! length (heap st)
                      = Some (fresh_node n nd (length (maps st)) entry)).
    { cbn. apply snoc_lookup_new. }
    assert (Hd0 : depth (fresh_node n nd (length (maps st)) entry)
                  = (depth nd + 1)%Z).
    { cbn. apply wrap_int_small. lia. }
    specialize (IHfill _ Hchild0 ltac:(lia) ltac:(lia)).
    cbn in Hx.
    assert (Hne : a <> n) by (apply lookup_lt_Some in Hn; lia).
    rewrite list_lookup_insert_ne in Hx by auto.
    destruct (decide (a = length (heap st))) as [->|Hna].
    + destruct (evolves_depth _ _ _ _ _ Ev Hchild0) as (c' & Hc' & Hdc).
      assert (x = c') as -> by congruence. rewrite Hdc, Hd0. lia.
    + specialize (IHfill a x). cbn [created heap set_heap set_maps] in IHfill.
      rewrite length_app in IHfill. cbn [length] in IHfill.
      specialize (IHfill ltac:(lia) Hx). rewrite Hd0 in IHfill. lia.
  - (* directory *)
    intros entry child st st1 Hcl HW IH c Hc H0 Hb a x Ha Hx.
    unfold entry_height in *. rewrite Hcl in *. cbn in *. eapply IH; eauto.
  - (* file *)
    intros entry child st uri st1 c data Hcl Hu Ht Hc c0 Hc0 H0 Hb a x Ha Hx.
    destruct (URI_evolves child st uri st1 Hu) as (Hh & _).
    cbn in Hx. apply lookup_lt_Some in Hx.
    rewrite length_insert, Hh in Hx. lia.
  - intros entry child st Hcl c Hc H0 Hb a x Ha Hx.
    apply lookup_lt_Some in Hx. lia.
Qed.

(** C8.  In a tree built by [New] the depth of the root is 0 and the
    depth of every other node is the depth of its parent plus 1, as long
    as the directories are nested less than 2^63 deep, the range of the
    64-bit depth field. *)
Theorem depth_is_parent_depth_plus_one path disk st root st' :
  New sha256_hex path disk st = Return root st' ->
  (Z.of_nat (height disk) < 2 ^ 63)%Z ->
  (exists rd, heap st' !! root = Some rd /\ parent rd = None /\
              depth rd = 0%Z)
  /\ forall a nd, root < a -> heap st' !! a = Some nd ->
       exists p pd, parent nd = Some p /\ heap st' !! p = Some pd /\
                    depth nd = (depth pd + 1)%Z.
Proof.
  intros H Hh. pose proof (New_tree sha256_hex _ _ _ _ _ H)
    as (-> & I & _).
  apply New_inv in H as (fi & st0 & Hs & Hd & _ & HW).
  destruct (Stat_Return _ _ _ _ Hs) as (Hh0 & Hm0 & _).
  destruct (inv_root _ _ _ I) as (rd & Hrd & Hp & _ & Hdr & _).
  split; [eauto|].
  destruct construction_depth as (DW & _).
  assert (Hroot0 : heap (planted st0 path fi) !! length (heap st)
                   = Some (root_node path fi (length (maps st0)))).
  { unfold planted. cbn. rewrite <- Hh0. apply snoc_lookup_new. }
  specialize (DW _ _ _ _ HW _ Hroot0 ltac:(cbn; lia) ltac:(cbn; lia)).
  unfold deeper in DW. cbn in DW. rewrite length_app, Hh0 in DW. cbn in DW.
  assert (Hbound : forall b x, length (heap st) <= b ->
                     heap st' !! b = Some x ->
                     (0 <= depth x < 2 ^ 63)%Z).
  { intros b x Hb Hx. destruct (decide (b = length (heap st))) as [->|Hne].
    - assert (x = rd) as -> by congruence. lia.
    - specialize (DW b x ltac:(lia) Hx). lia. }
  intros a nd Ha Hnd.
  destruct (inv_node _ _ _ I a nd Ha Hnd)
    as (p & pd & t & Hpar & Hlt & Hpd & _ & _ & Hdep & _).
  exists p, pd. repeat split; auto.
  pose proof (Hbound p pd ltac:(lia) Hpd) as Bp.
  pose proof (DW a nd ltac:(lia) Hnd) as Ba.
  destruct (decide (depth pd + 1 < 2 ^ 63)%Z) as [Hs1|Hs1].
  - rewrite Hdep. apply wrap_int_small. lia.
  - assert (depth pd + 1 = 2 ^ 63)%Z as E by lia.
    rewrite E in Hdep. change (wrap_int (2 ^ 63)) with (- 2 ^ 63)%Z in Hdep.
    lia.
Qed.

End Depth.

(* ===================================================================== *)
(** * Paths *)
(* ===================================================================== *)

Section Paths.

Import filepath.

Lemma elements_nonempty s : elements s <> [].
Proof.
  destruct s as [|c s]; cbn; [discriminate|].
  destruct (is_sep c); [discriminate|].
  destruct (elements s); discriminate.
Qed.

Lemma elements_app s1 s2 :
  elements (s1 +:+ "/" +:+ s2) = elements s1 ++ elements s2.
Proof.
  change ("/" +:+ s2) with (String "/"%char s2).
  induction s1 as [|c s1 IH]; [reflexivity|].
  change (String c s1 +:+ String "/"%char s2)
    with (String c (s1 +:+ String "/"%char s2)).
  cbn [elements]. destruct (is_sep c).
  - rewrite IH. reflexivity.
  - rewrite IH. pose proof (elements_nonempty s1).
    destruct (elements s1); [contradiction | reflexivity].
Qed.

Lemma elements_no_sep s : has_sep s = false -> elements s = [s].
Proof.
  induction s as [|c s IH]; [reflexivity|]. cbn.
  destruct (is_sep c); [discriminate|]. cbn. intros H. rewrite (IH H).
  reflexivity.
Qed.

Lemma elements_sep_free s : Forall (fun e => has_sep e = false) (elements s).
Proof.
  induction s as [|c s IH]; cbn.
  - repeat constructor.
  - destruct (is_sep c) eqn:E.
    + constructor; [reflexivity | exact IH].
    + pose proof (elements_nonempty s).
      destruct (elements s) as [|e es]; [contradiction|].
      apply Forall_cons in IH as [He Hes].
      constructor; [cbn; rewrite E; exact He | exact Hes].
Qed.

Lemma valid_name_inv nm :
  valid_name nm = true ->
  nm <> "" /\ nm <> "." /\ nm <> ".." /\ has_sep nm = false.
Proof.
  unfold valid_name. rewrite !andb_true_iff, !negb_true_iff.
  intros [[[H1 H2] H3] H4]. repeat split; auto;
    intros ->; discriminate.
Qed.

Lemma clean_step_push b stk e :
  valid_name e = true -> clean_step b stk e = e :: stk.
Proof.
  intros H. apply valid_name_inv in H as (H1 & H2 & H3 & _).
  unfold clean_step.
  destruct (String.eqb_spec e ""); [contradiction|].
  destruct (String.eqb_spec e "."); [contradiction|].
  destruct (String.eqb_spec e ".."); [contradiction|]. reflexivity.
Qed.

Lemma elements_join es :
  es <> [] -> Forall (fun e => has_sep e = false) es ->
  elements (join_sep es) = es.
Proof.
  induction es as [|e es IH]; [contradiction|]. intros _ H.
  apply Forall_cons in H as [He Hes].
  destruct es as [|e2 es].
  - cbn. apply elements_no_sep. exact He.
  - change (join_sep (e :: e2 :: es))
      with (e +:+ "/" +:+ join_sep (e2 :: es)).
    rewrite elements_app, (elements_no_sep _ He), IH; auto; discriminate.
Qed.

Lemma canon_step b stk e :
  has_sep e = false -> canon b stk -> canon b (clean_step b stk e).
Proof.
  intros He (re & k & -> & Hre & Hk). unfold clean_step.
  destruct (String.eqb_spec e ""); [exists re, k; auto|].
  destruct (String.eqb_spec e "."); [exists re, k; auto|].
  destruct (String.eqb_spec e "..") as [->|Hdd].
  - destruct re as [|top re].
    + destruct k as [|k]; cbn.
      * destruct b; [exists [], 0 | exists [], 1]; repeat split; auto.
        discriminate.
      * destruct b; [specialize (Hk eq_refl); discriminate|].
        exists [], (S (S k)). repeat split; auto. discriminate.
    + apply Forall_cons in Hre as [Htop Hre]. cbn.
      destruct (String.eqb_spec top "..") as [->|_]; [discriminate|].
      exists re, k. auto.
  - exists (e :: re), k. repeat split; auto. constructor; [|exact Hre].
    unfold valid_name. rewrite He.
    destruct (String.eqb_spec e ""); [contradiction|].
    destruct (String.eqb_spec e "."); [contradiction|].
    destruct (String.eqb_spec e ".."); [contradiction|]. reflexivity.
Qed.

Lemma canon_fold b es stk :
  Forall (fun e => has_sep e = false) es -> canon b stk ->
  canon b (fold_left (clean_step b) es stk).
Proof.
  revert stk. induction es as [|e es IH]; intros stk H Hc; [exact Hc|].
  apply Forall_cons in H as [He Hes]. cbn. apply IH; [exact Hes|].
  apply canon_step; assumption.
Qed.

Lemma replicate_shift {A} k (x : A) l :
  replicate k x ++ x :: l = x :: replicate k x ++ l.
Proof.
  induction k as [|k IH]; [reflexivity|]. cbn. rewrite IH. reflexivity.
Qed.

Lemma fold_dotdots k stk :
  (stk = [] \/ exists r, stk = ".." :: r) ->
  fold_left (clean_step false) (replicate k "..") stk
  = replicate k ".." ++ stk.
Proof.
  revert stk. induction k as [|k IH]; intros stk H; [reflexivity|].
  cbn [replicate fold_left].
  assert (clean_step false stk ".." = ".." :: stk) as ->.
  { destruct H as [->|[r ->]]; reflexivity. }
  rewrite IH by eauto. apply replicate_shift.
Qed.

Lemma fold_names b es stk :
  Forall (fun e => valid_name e = true) es ->
  fold_left (clean_step b) es stk = reverse es ++ stk.
Proof.
  revert stk. induction es as [|e es IH]; intros stk H; [reflexivity|].
  apply Forall_cons in H as [He Hes]. cbn [fold_left].
  rewrite clean_step_push by exact He. rewrite IH by exact Hes.
  rewrite reverse_cons, <- app_assoc. reflexivity.
Qed.

Lemma valid_sep_free es :
  Forall (fun e => valid_name e = true) es ->
  Forall (fun e => has_sep e = false) es.
Proof.
  intros H. eapply Forall_impl; [exact H|].
  intros e He. apply valid_name_inv in He. tauto.
Qed.

Lemma IsAbs_join e es :
  e <> "" -> has_sep e = false -> IsAbs (join_sep (e :: es)) = false.
Proof.
  intros H1 H2. destruct e as [|c e]; [contradiction|].
  cbn in H2. apply orb_false_iff in H2 as [Hc _].
  destruct es; cbn; exact Hc.
Qed.

(** [Clean] keeps the elements that [norm] computes. *)
Lemma norm_render b stk :
  canon b stk ->
  norm (render b (reverse stk)) = reverse stk
  /\ IsAbs (render b (reverse stk)) = b.
Proof.
  intros (re & k & -> & Hre & Hk).
  rewrite reverse_app, reverse_replicate.
  assert (Hsf : Forall (fun e => has_sep e = false)
                       (replicate k ".." ++ reverse re)).
  { apply Forall_app. split.
    - apply Forall_replicate. reflexivity.
    - apply valid_sep_free, Forall_reverse. exact Hre. }
  assert (Hfold : forall b', (b' = true -> k = 0) ->
            fold_left (clean_step b') (replicate k ".." ++ reverse re) []
            = reverse (replicate k ".." ++ reverse re)).
  { intros b' Hb'. rewrite fold_left_app.
    assert (fold_left (clean_step b') (replicate k "..") []
            = replicate k "..") as ->.
    { destruct b'.
      - rewrite (Hb' eq_refl). reflexivity.
      - rewrite fold_dotdots by auto. apply app_nil_r. }
    rewrite fold_names by (apply Forall_reverse; exact Hre).
    rewrite reverse_app, reverse_replicate. reflexivity. }
  destruct b.
  - specialize (Hk eq_refl). subst k. cbn [replicate app] in *.
    unfold render, norm. split; [|reflexivity].
    change (IsAbs ("/" +:+ join_sep (reverse re))) with true.
    change ("/" +:+ join_sep (reverse re))
      with ("" +:+ "/" +:+ join_sep (reverse re)).
    rewrite elements_app. cbn [elements app fold_left].
    change (clean_step true [] "") with (@nil string).
    destruct (reverse re) as [|e es] eqn:E.
    + reflexivity.
    + rewrite elements_join by (auto; discriminate).
      rewrite (Hfold true) by auto. apply reverse_involutive.
  - unfold render.
    destruct (replicate k ".." ++ reverse re) as [|e es] eqn:E.
    + split; reflexivity.
    + assert (He : e <> "" /\ has_sep e = false).
      { apply Forall_cons in Hsf as [Hs _]. split; [|exact Hs].
        destruct k as [|k]; cbn in E.
        - assert (e ∈ reverse re) as Hin by (rewrite E; left).
          rewrite elem_of_reverse in Hin. rewrite Forall_forall in Hre.
          apply Hre in Hin. apply valid_name_inv in Hin. tauto.
        - injection E as <- _. discriminate. }
      destruct He as [He1 He2].
      pose proof (IsAbs_join e es He1 He2) as Habs.
      split; [|exact Habs].
      unfold norm. rewrite Habs.
      rewrite elements_join by (auto; discriminate).
      rewrite (Hfold false) by discriminate. apply reverse_involutive.
Qed.

Lemma norm_canon p :
  canon (IsAbs p) (fold_left (clean_step (IsAbs p)) (elements p) []).
Proof.
  apply canon_fold; [apply elements_sep_free|].
  exists [], 0. repeat split; auto.
Qed.

Lemma norm_Clean p : norm (Clean p) = norm p.
Proof.
  unfold Clean. destruct (String.eqb_spec p "") as [->|Hne]; [reflexivity|].
  unfold norm at 1 2.
  destruct (norm_render _ _ (norm_canon p)) as [H1 H2].
  unfold norm in *. exact H1.
Qed.

Lemma IsAbs_app p s : p <> "" -> IsAbs (p +:+ s) = IsAbs p.
Proof. destruct p; [contradiction | reflexivity]. Qed.

(** The path of a child has the elements of the path of its parent,
    followed by the name of the child. *)
Lemma norm_Join p nm :
  valid_name nm = true -> norm (Join p nm) = norm p ++ [nm].
Proof.
  intros Hv. pose proof (valid_name_inv _ Hv) as (Hn1 & _ & _ & Hn4).
  unfold Join. destruct (String.eqb_spec p "") as [->|Hne]; cbn [negb].
  - destruct (String.eqb_spec nm ""); [contradiction|]. cbn [negb].
    rewrite norm_Clean. unfold norm.
    rewrite elements_no_sep by exact Hn4. cbn [fold_left].
    rewrite clean_step_push by exact Hv. reflexivity.
  - rewrite norm_Clean. unfold norm.
    rewrite IsAbs_app by exact Hne.
    rewrite elements_app, fold_left_app, elements_no_sep by exact Hn4.
    cbn [fold_left]. rewrite clean_step_push by exact Hv.
    apply reverse_cons.
Qed.

End Paths.

Lemma names_ok_Folder entries :
  names_ok (Folder entries) = entries_names_ok entries.
Proof.
  cbn [names_ok]. induction entries as [|e es IH]; [reflexivity|].
  cbn [entries_names_ok]. rewrite <- IH. reflexivity.
Qed.

Lemma evolves_Path n st st' a nd :
  evolves n st st' -> heap st !! a = Some nd ->
  exists nd', heap st' !! a = Some nd' /\ Path nd' = Path nd.
Proof.
  intros Ev H. destruct (decide (a = n)) as [->|Hne].
  - destruct (ev_at _ _ _ Ev _ H) as (nd' & H' & l & ck & ->).
    eexists. split; [exact H' | reflexivity].
  - exists nd. split; [|reflexivity].
    rewrite (ev_old _ _ _ Ev); auto. eapply lookup_lt_Some; eauto.
Qed.

Lemma beneath_child r nm :
  filepath.valid_name nm = true -> beneath r (filepath.Join r nm).
Proof.
  intros H. exists [nm]. split; [discriminate | apply norm_Join; exact H].
Qed.

Lemma beneath_trans r p q : beneath r p -> beneath p q -> beneath r q.
Proof.
  intros (n1 & H1 & E1) (n2 & H2 & E2). exists (n1 ++ n2). split.
  - destruct n1; [contradiction | discriminate].
  - rewrite E2, E1, app_assoc. reflexivity.
Qed.

Lemma beneath_irrefl r : ~ beneath r r.
Proof.
  intros (nms & Hne & E). apply (f_equal length) in E.
  rewrite length_app in E. destruct nms; [contradiction | cbn in E; lia].
Qed.

Section IndexKeys.

Variable sha256_hex : list byte -> string.

Lemma construction_beneath :
  (forall disk n st st',
      Walk sha256_hex disk n st st' -> names_ok disk = true ->
      forall nd, heap st !! n = Some nd -> all_beneath (Path nd) st st')
  /\ (forall entries n st st',
        WalkEntries sha256_hex entries n st st' ->
        entries_names_ok entries = true ->
        forall nd, heap st !! n = Some nd -> all_beneath (Path nd) st st')
  /\ (forall entry n st st',
        WalkEntry sha256_hex entry n st st' ->
        entry_names_ok entry = true ->
        forall nd, heap st !! n = Some nd -> all_beneath (Path nd) st st')
  /\ (forall entry child st st',
        Fill sha256_hex entry child st st' ->
        entry_names_ok entry = true ->
        forall c, heap st !! child = Some c -> all_beneath (Path c) st st').
Proof.
  destruct construction_evolves with (sha256_hex := sha256_hex)
    as (EvW & EvEs & EvE & EvF).
  apply (Walk_mutind sha256_hex
    (fun disk n st st' =>
       names_ok disk = true ->
       forall nd, heap st !! n = Some nd -> all_beneath (Path nd) st st')
    (fun entries n st st' =>
       entries_names_ok entries = true ->
       forall nd, heap st !! n = Some nd -> all_beneath (Path nd) st st')
    (fun entry n st st' =>
       entry_names_ok entry = true ->
       forall nd, heap st !! n = Some nd -> all_beneath (Path nd) st st')
    (fun entry child st st' =>
       entry_names_ok entry = true ->
       forall c, heap st !! child = Some c -> all_beneath (Path c) st st'));
    unfold all_beneath.
  - (* folder *)
    intros entries n nd st st' Hn _ IH Hok nd0 Hn0 a x Ha Hx.
    rewrite names_ok_Folder in Hok. eapply IH; eauto.
  - (* listing error *)
    intros disk n nd e st Hn _ Hok nd0 Hn0 a x Ha Hx. cbn in Hx.
    apply lookup_lt_Some in Hx. lia.
  - intros n st Hok nd Hn a x Ha Hx. apply lookup_lt_Some in Hx. lia.
  - (* entries *)
    intros entry rest n st st1 st' HE IH1 HEs IH2 Hok nd Hn a x Ha Hx.
    cbn [entries_names_ok] in Hok. apply andb_true_iff in Hok as [Ho1 Ho2].
    pose proof (EvE _ _ _ _ HE) as Ev1.
    pose proof (EvEs _ _ _ _ HEs) as Ev2.
    destruct (evolves_Path _ _ _ _ _ Ev1 Hn) as (nd1 & Hn1 & Hp1).
    destruct (decide (a < length (heap st1))) as [Hlt|Hge].
    + assert (Hx1 : heap st1 !! a = Some x).
      { rewrite <- (ev_old _ _ _ Ev2); auto.
        apply lookup_lt_Some in Hn. lia. }
      exact (IH1 Ho1 nd Hn a x Ha Hx1).
    + rewrite <- Hp1. exact (IH2 Ho2 nd1 Hn1 a x ltac:(lia) Hx).
  - (* one entry *)
    intros entry n nd st st1 r rd c nd1 tr tn Hn HF IHfill Hr Hrd Htr Hmr Hc
           Hn1 Htn Hmn Hok nd0 Hn0 a x Ha Hx.
    assert (nd0 = nd) as -> by congruence.
    pose proof (EvF _ _ _ _ HF) as Ev.
    assert (Hchild0 : heap (created st n nd entry) !! length (heap st)
                      = Some (fresh_node n nd (length (maps st)) entry)).
    { cbn. apply snoc_lookup_new. }
    specialize (IHfill Hok _ Hchild0).
    assert (Hvalid : filepath.valid_name (entry_Name entry) = true).
    { unfold entry_names_ok in Hok. apply andb_true_iff in Hok. tauto. }
    cbn in Hx.
    assert (Hne : a <> n) by (apply lookup_lt_Some in Hn; lia).
    rewrite list_lookup_insert_ne in Hx by auto.
    destruct (decide (a = length (heap st))) as [->|Hna].
    + destruct (evolves_Path _ _ _ _ _ Ev Hchild0) as (c' & Hc' & Hpc).
      assert (x = c') as -> by congruence. rewrite Hpc. cbn.
      apply beneath_child. exact Hvalid.
    + eapply beneath_trans; [apply beneath_child; exact Hvalid|].
      apply (IHfill a x); [|exact Hx].
      cbn. rewrite length_app. cbn. lia.
  - (* directory *)
    intros entry child st st1 Hcl HW IH Hok c Hc a x Ha Hx.
    unfold entry_names_ok in Hok. rewrite Hcl in Hok. cbn in Hok.
    apply andb_true_iff in Hok as [_ Hok]. eapply IH; eauto.
  - (* file *)
    intros entry child st uri st1 c data Hcl Hu Ht Hc Hok c0 Hc0 a x Ha Hx.
    destruct (URI_evolves child st uri st1 Hu) as (Hh & _).
    cbn in Hx. apply lookup_lt_Some in Hx.
    rewrite length_insert, Hh in Hx. lia.
  - intros entry child st Hcl Hok c Hc a x Ha Hx.
    apply lookup_lt_Some in Hx. lia.
Qed.

(** C10.  In a tree built by [New] over entries with the names that a
    directory listing reports, the global index, which [Map] returns for
    the root, has no entry under the path of the root, and has an entry
    under the path of every other node of the tree. *)
Theorem root_path_not_indexed path disk st root st' :
  New sha256_hex path disk st = Return root st' ->
  names_ok disk = true ->
  exists m,
    Map root st' = Return (Some (length (maps st))) st' /\
    maps st' !! length (maps st) = Some m /\
    m !! path = None /\
    forall a nd, root < a -> heap st' !! a = Some nd ->
                 is_Some (m !! Path nd).
Proof.
  intros H Hok.
  destruct (New_index sha256_hex _ _ _ _ _ H) as (HMap & Hreg).
  pose proof (New_tree sha256_hex _ _ _ _ _ H)
    as (-> & I & S & _ & (rd & Hrd & Hpath) & _).
  destruct (lookup_lt_is_Some_2 (maps st') (length (maps st))
              (inv_m0 _ _ _ I)) as [m Hm].
  exists m. split; [eapply HMap; eauto|]. split; [exact Hm|]. split.
  - destruct (m !! path) as [c|] eqn:Hk; [exfalso | reflexivity].
    destruct (inv_entry _ _ _ I _ _ _ _ (Nat.le_refl _) Hm Hk)
      as (cd & _ & _ & Hc & Hcd & Hpc & _).
    apply New_inv in H as (fi & st0 & Hs & Hd & _ & HW).
    destruct (Stat_Return _ _ _ _ Hs) as (Hh0 & Hm0 & _).
    destruct construction_beneath as (BW & _).
    assert (Hroot0 : heap (planted st0 path fi) !! length (heap st)
                     = Some (root_node path fi (length (maps st0)))).
    { unfold planted. cbn. rewrite <- Hh0. apply snoc_lookup_new. }
    pose proof (BW _ _ _ _ HW Hok _ Hroot0 c cd) as Hb.
    cbn in Hb. rewrite length_app, Hh0 in Hb. cbn in Hb.
    specialize (Hb ltac:(lia) Hcd). rewrite Hpc in Hb.
    exact (beneath_irrefl _ Hb).
  - intros a nd Ha Hnd. destruct (Hreg a nd Ha Hnd) as (m' & b & Hm' & Hb).
    assert (m' = m) as -> by congruence. eauto.
Qed.

End IndexKeys.

(* ===================================================================== *)
(** * Scope of the mirror operations *)
(* ===================================================================== *)




Lemma still_ret {A} (a : A) st : final (ret a st) = st.
Proof. reflexivity. Qed.

Lemma still_panic {A} p st : final (@panic A p st) = st.
Proof. reflexivity. Qed.









Lemma tree_children_table h0 m0 st n :
  tree_inv h0 m0 st -> h0 < n -> children_table st n.
Proof.
  intros I Hn nd id m k c Hnd Ht Hm Hk.
  destruct (inv_node _ _ _ I n nd Hn Hnd)
    as (_ & _ & t & _ & _ & _ & Ht' & Htl & _).
  assert (id = t) as -> by congruence.
  destruct (inv_entry _ _ _ I t m k c ltac:(lia) Hm Hk)
    as (cd & p & pd & Hc & Hcd & _ & Hp & Hpd & Hown).
  destruct Hown as [->|Hown]; [lia|].
  destruct (inv_node _ _ _ I c cd Hc Hcd) as (p' & _ & _ & Hp' & Hlt & _).
  assert (p' = p) as -> by congruence.
  assert (p = n) as ->.
  { eapply (inv_inj _ _ _ I p n pd nd); eauto; try lia. congruence. }
  eauto.
Qed.

Section Scope.

Variable range_order : list (string * addr) -> list (string * addr).
Hypothesis range_order_sub : forall l x, x ∈ range_order l -> x ∈ l.

Lemma select_spec ty l st ds st' :
  select ty l st = Return ds st' ->
  st' = st /\
  forall d, d ∈ ds ->
    exists k nd, (k, d) ∈ l /\ heap st !! d = Some nd /\ Type_ nd = ty.
Proof.
  revert ds st'. induction l as [|[k a] l IH]; intros ds st' H.
  - injection H as <- <-. split; [reflexivity|].
    intros d Hd. inversion Hd.
  - cbn [select] in H.
    apply bind_Return in H as (nd & s1 & Hnd & H).
    apply deref_Return in Hnd as [Hnd ->].
    apply bind_Return in H as (ps & s1 & Hps & H).
    destruct (IH _ _ Hps) as [-> Hin].
    injection H as <- <-. split; [reflexivity|].
    intros d Hd. destruct (String.eqb_spec (Type_ nd) ty) as [Hty|Hty].
    + apply elem_of_cons in Hd as [->|Hd].
      * exists k, nd. split; [left | auto].
      * destruct (Hin d Hd) as (k' & nd' & Hk' & Hrest).
        exists k', nd'. split; [right; exact Hk' | exact Hrest].
    + destruct (Hin d Hd) as (k' & nd' & Hk' & Hrest).
      exists k', nd'. split; [right; exact Hk' | exact Hrest].
Qed.







End Scope.





Section MirrorScope.

Variable sha256_hex : list byte -> string.
Variable range_order : list (string * addr) -> list (string * addr).
Hypothesis range_order_sub : forall l x, x ∈ range_order l -> x ∈ l.


End MirrorScope.

(* ===================================================================== *)
(** * Failure policy of [Copy] *)
(* ===================================================================== *)






Section CopyPolicy.

Variable range_order : list (string * addr) -> list (string * addr).





End CopyPolicy.

(* ===================================================================== *)
(** * Symbolic links *)
(* ===================================================================== *)

Lemma classify_symlink entry :
  Z.land (entry_Type entry) ModeSymlink = ModeSymlink ->
  classify entry = Symbolic.
Proof. intros H. unfold classify. rewrite H, Z.eqb_refl. reflexivity. Qed.

Lemma enroll_step n child st r rd c nd tr tn :
  Root_rec (S n) (heap st) n = Some r ->
  heap st !! r = Some rd -> table rd = Some tr -> is_Some (maps st !! tr) ->
  heap st !! child = Some c ->
  heap st !! n = Some nd -> table nd = Some tn -> is_Some (maps st !! tn) ->
  enroll n child st = Return tt (enrolled st n child nd c tr tn).
Proof.
  intros Hr Hrd Htr Hmr Hc Hn Htn Hmn. unfold enroll.
  assert (HR : Root n st = Return r st).
  { apply Root_Return. split; [eauto|]. auto. }
  rewrite (bind_step _ _ _ _ _ HR).
  rewrite (bind_step _ _ _ _ _ (deref_step _ _ _ Hrd)).
  rewrite (bind_step _ _ _ _ _ (deref_step _ _ _ Hc)).
  assert (H1 : register (table rd) (Path c) child st
               = Return tt (set_maps st (reg (maps st) tr (Path c) child))).
  { apply register_Return. exists tr. auto. }
  rewrite (bind_step _ _ _ _ _ H1).
  set (st1 := set_maps st (reg (maps st) tr (Path c) child)).
  assert (Hn1 : heap st1 !! n = Some nd) by exact Hn.
  rewrite (bind_step _ _ _ _ _ (deref_step _ _ _ Hn1)).
  assert (H2 : register (table nd) (Path c) child st1
               = Return tt (set_maps st1 (reg (maps st1) tn (Path c) child))).
  { apply register_Return. exists tn. repeat split; auto.
    destruct Hmn as [m Hm]. cbn.
    destruct (reg_mono (maps st) tr (Path c) child tn m Hm) as (m' & Hm' & _).
    eauto. }
  rewrite (bind_step _ _ _ _ _ H2).
  set (st2 := set_maps st1 (reg (maps st1) tn (Path c) child)).
  assert (Hc2 : heap st2 !! child = Some c) by exact Hc.
  assert (Hn2 : heap st2 !! n = Some nd) by exact Hn.
  rewrite (bind_step _ _ _ _ _ (deref_step _ _ _ Hc2)).
  rewrite (bind_step _ _ _ _ _ (deref_step _ _ _ Hn2)).
  rewrite (store_step _ _ _ _ Hn2). reflexivity.
Qed.

Section Symlinks.

Variable sha256_hex : list byte -> string.

(** C9.  For an entry whose type bits have the symbolic-link bit, whatever
    the other bits are and whatever the link points to, [walk] adds
    exactly one node: it is tagged Symbolic, has no digest, an empty
    snapshot sequence and an empty table of its own, and nothing is read
    for it: no call is made, and the scan of the link target, [walk_rec],
    is not run. *)
Theorem symlink_entry_is_leaf (walk_rec : FsObj -> addr -> M unit)
        (n : addr) (entry : DirEntry) (st : State) nd r rd tr tn :
  Z.land (entry_Type entry) ModeSymlink = ModeSymlink ->
  heap st !! n = Some nd ->
  Root_rec (S n) (heap st) n = Some r ->
  heap st !! r = Some rd -> table rd = Some tr -> is_Some (maps st !! tr) ->
  table nd = Some tn -> is_Some (maps st !! tn) ->
  exists st' c,
    walk_entry sha256_hex walk_rec n entry st = Return tt st' /\
    heap st' = <[n := set_Nodes nd (Nodes nd ++ [c])]> (heap st ++ [c]) /\
    Type_ c = Symbolic /\ Checksum c = None /\ Nodes c = [] /\
    parent c = Some n /\
    Path c = filepath.Join (Path nd) (entry_Name entry) /\
    table c = Some (length (maps st)) /\
    maps st' !! length (maps st) = Some ∅ /\
    calls st' = calls st /\ world st' = world st.
Proof.
  intros Hsym Hn Hr Hrd Htr Hmr Htn Hmn.
  pose proof (classify_symlink _ Hsym) as Hcl.
  assert (Hlt : n < length (heap st)) by (eapply lookup_lt_Some; eauto).
  set (c := fresh_node n nd (length (maps st)) entry).
  set (st0 := created st n nd entry).
  assert (Hwalk : walk_entry sha256_hex walk_rec n entry st
                  = enroll n (length (heap st)) st0).
  { unfold walk_entry, add, attach.
    unfold bind, deref, alloc, store, new_map, ret.
    rewrite Hn. cbn [heap maps set_heap set_maps calls world].
    rewrite snoc_lookup_new. cbn [heap maps set_heap set_maps calls world].
    rewrite snoc_insert_new.
    rewrite snoc_lookup_old by exact Hlt. rewrite Hn.
    cbn [heap maps set_heap set_maps calls world].
    rewrite snoc_lookup_new. cbn [heap maps set_heap set_maps calls world].
    rewrite snoc_insert_new, snoc_lookup_new.
    cbn [Type_ set_link set_Type]. rewrite Hcl.
    change (String.eqb Symbolic Directory) with false.
    change (String.eqb Symbolic File) with false. cbn beta iota.
    unfold st0, created, fresh_node. rewrite Hcl. reflexivity. }
  assert (Hag : parents_agree (heap st) (heap st0)).
  { intros a x Hx. exists x. split; [|reflexivity].
    cbn. rewrite snoc_lookup_old; [exact Hx | eapply lookup_lt_Some; eauto]. }
  assert (Henr : enroll n (length (heap st)) st0
                 = Return tt (enrolled st0 n (length (heap st)) nd c tr tn)).
  { apply (enroll_step n (length (heap st)) st0 r rd c nd tr tn); auto.
    - eapply Root_rec_agree; eauto.
    - cbn. rewrite snoc_lookup_old; [exact Hrd | eapply lookup_lt_Some; eauto].
    - destruct Hmr as [m Hm]. exists m. cbn.
      rewrite snoc_lookup_old; [exact Hm | eapply lookup_lt_Some; eauto].
    - apply snoc_lookup_new.
    - cbn. rewrite snoc_lookup_old; [exact Hn | exact Hlt].
    - destruct Hmn as [m Hm]. exists m. cbn.
      rewrite snoc_lookup_old; [exact Hm | eapply lookup_lt_Some; eauto]. }
  exists (enrolled st0 n (length (heap st)) nd c tr tn), c.
  split; [rewrite Hwalk; exact Henr|].
  split; [reflexivity|]. unfold c. cbn [Type_ Checksum Nodes parent Path table
                                        fresh_node].
  rewrite Hcl. repeat split.
  cbn [enrolled maps set_maps set_heap].
  (* the table of the new node is not one of the two tables written *)
  assert (Hne : forall id, is_Some (maps st !! id) -> id <> length (maps st)).
  { intros id [m Hm] ->. apply lookup_lt_Some in Hm. lia. }
  assert (Hreg : forall ms id k v,
            id <> length (maps st) ->
            ms !! length (maps st) = Some (∅ : gmap string addr) ->
            reg ms id k v !! length (maps st) = Some ∅).
  { intros ms id k v Hid Hms. unfold reg.
    destruct (ms !! id) as [m|]; [|exact Hms].
    destruct (m !! k); [exact Hms|].
    rewrite list_lookup_insert_ne by exact Hid. exact Hms. }
  apply Hreg; [apply Hne; exact Hmn|].
  apply Hreg; [apply Hne; exact Hmr|].
  cbn. apply snoc_lookup_new.
Qed.

End Symlinks.

(* ===================================================================== *)
(** * Subtrees are complete before they are registered *)
(* ===================================================================== *)

Section Complete.

Variable sha256_hex : list byte -> string.

Lemma populated_Folder gidx st c hi entries :
  populated sha256_hex gidx st c hi (Folder entries)
  <-> exists nd, heap st !! c = Some nd /\
        entries_populated sha256_hex gidx st c nd hi (Nodes nd) entries.
Proof.
  cbn [populated].
  assert (H : forall nd vs,
    (fix all (vs : list Node) (es : list DirEntry) {struct es} : Prop :=
       match es, vs with
       | [], [] => True
       | entry :: es', v :: vs' =>
           (exists ci,
               child_ok sha256_hex gidx st c nd hi ci v entry
                 (if String.eqb (classify entry) Directory
                  then populated sha256_hex gidx st ci hi
                                 (entry_target entry)
                  else Nodes v = []))
           /\ all vs' es'
       | _, _ => False
       end) vs entries
    <-> entries_populated sha256_hex gidx st c nd hi vs entries).
  { intros nd. induction entries as [|e es IH]; intros [|v vs];
      cbn [entries_populated]; try reflexivity.
    unfold entry_populated. rewrite IH. reflexivity. }
  split; intros (nd & Hnd & Hes); exists nd; (split; [exact Hnd|]);
    apply H; exact Hes.
Qed.

Lemma preserved_weaken lo hi lo' hi' st st' :
  preserved lo hi st st' -> lo <= lo' -> hi' <= hi ->
  preserved lo' hi' st st'.
Proof.
  intros [H1 H2] Hlo Hhi. split; [|exact H2]. intros a Ha. apply H1. lia.
Qed.

Lemma preserved_lookup lo hi st st' a x :
  preserved lo hi st st' -> lo <= a < hi -> heap st !! a = Some x ->
  heap st' !! a = Some x.
Proof.
  intros [H1 _] Ha Hx. rewrite H1; auto. eapply lookup_lt_Some; eauto.
Qed.

Lemma preserved_key lo hi st st' id m k :
  preserved lo hi st st' -> maps st !! id = Some m -> is_Some (m !! k) ->
  exists m', maps st' !! id = Some m' /\ is_Some (m' !! k).
Proof.
  intros [_ H2] Hm [b Hb]. destruct (H2 _ _ Hm) as (m' & Hm' & Hsub).
  exists m'. split; [exact Hm'|]. exists b. eapply lookup_weaken; eauto.
Qed.

Lemma child_ok_preserved gidx st st' c nd hi ci v entry
      (sub sub' : Prop) :
  preserved (S c) hi st st' -> (sub -> sub') ->
  child_ok sha256_hex gidx st c nd hi ci v entry sub ->
  child_ok sha256_hex gidx st' c nd hi ci v entry sub'.
Proof.
  intros P Hsub (Hv & Hlt & Hp & Hn & Hpa & Hty & Hd & (t & m & Ht & Hm & Hk)
                 & (g & Hg & Hgk) & Hs).
  destruct (preserved_key _ _ _ _ _ _ _ P Hm Hk) as (m' & Hm' & Hk').
  destruct (preserved_key _ _ _ _ _ _ _ P Hg Hgk) as (g' & Hg' & Hgk').
  repeat split; auto; try lia.
  - eapply preserved_lookup; eauto; lia.
  - exists t, m'. auto.
  - exists g'. auto.
Qed.

Lemma populated_preserved gidx hi disk :
  forall c st st',
    populated sha256_hex gidx st c hi disk -> c < hi ->
    preserved c hi st st' ->
    populated sha256_hex gidx st' c hi disk.
Proof.
  induction disk as [data|entries IH|e] using FsObj_nested_ind;
    intros c st st' H Hc P.
  - destruct H as (nd & Hnd & Hn). exists nd. split; [|exact Hn].
    eapply preserved_lookup; eauto.
  - apply populated_Folder in H as (nd & Hnd & Hes).
    apply populated_Folder. exists nd.
    split; [eapply preserved_lookup; eauto|].
    revert Hes. generalize (Nodes nd). clear Hnd.
    induction IH as [|entry rest Hentry _ IHrest]; intros vs Hes;
      destruct vs as [|v vs]; cbn in *; try contradiction; auto.
    destruct Hes as [(ci & Hci) Hrest]. split; [|apply IHrest; exact Hrest].
    exists ci. eapply child_ok_preserved; [| | exact Hci].
    + eapply preserved_weaken; [exact P | lia | lia].
    + destruct (String.eqb (classify entry) Directory); [|auto].
      destruct Hci as (_ & Hlt & _).
      intros Hsub. eapply Hentry; [exact Hsub | lia |].
      eapply preserved_weaken; [exact P | lia | lia].
  - destruct H as (nd & Hnd & Hn). exists nd. split; [|exact Hn].
    eapply preserved_lookup; eauto.
Qed.



(** Raising the bound of a populated subtree. *)
Lemma populated_bound gidx disk :
  forall c st hi hi',
    populated sha256_hex gidx st c hi disk -> hi <= hi' ->
    populated sha256_hex gidx st c hi' disk.
Proof.
  induction disk as [data|entries IH|e] using FsObj_nested_ind;
    intros c st hi hi' H Hle; try exact H.
  apply populated_Folder in H as (nd & Hnd & Hes).
  apply populated_Folder. exists nd. split; [exact Hnd|].
  revert Hes. generalize (Nodes nd). clear Hnd.
  induction IH as [|entry rest Hentry _ IHrest]; intros vs Hes;
    destruct vs as [|v vs]; cbn in *; try contradiction; auto.
  destruct Hes as [(ci & Hci) Hrest]. split; [|apply IHrest; exact Hrest].
  exists ci.
  destruct Hci as (Hv & Hlt & Hp & Hn & Hpa & Hty & Hd & Hloc & Hglob & Hs).
  repeat split; auto; try lia.
  destruct (String.eqb (classify entry) Directory); [|exact Hs].
  eapply Hentry; eauto.
Qed.



Lemma node_kept_fields nd nd' :
  node_kept nd nd' ->
  parent nd' = parent nd /\ table nd' = table nd /\ depth nd' = depth nd
  /\ Path nd' = Path nd /\ Name nd' = Name nd /\ Type_ nd' = Type_ nd.
Proof. intros (l & ck & ->). repeat split. Qed.

Lemma entry_populated_transport gidx st st' c nd hi hi' v entry :
  entry_populated sha256_hex gidx st c nd hi v entry ->
  preserved (S c) hi st st' -> hi <= hi' ->
  entry_populated sha256_hex gidx st' c nd hi' v entry.
Proof.
  intros (ci & Hci) P Hle. exists ci.
  assert (Hci' : child_ok sha256_hex gidx st' c nd hi ci v entry
            (if String.eqb (classify entry) Directory
             then populated sha256_hex gidx st' ci hi (entry_target entry)
             else Nodes v = [])).
  { eapply child_ok_preserved; [exact P | | exact Hci].
    destruct (String.eqb (classify entry) Directory); [|auto].
    destruct Hci as (_ & Hlt & _).
    intros Hsub. eapply populated_preserved; [exact Hsub | lia |].
    eapply preserved_weaken; [exact P | lia | lia]. }
  destruct Hci' as (Hv & Hlt & Hp & Hn & Hpa & Hty & Hd & Hloc & Hglob & Hs).
  repeat split; auto; try lia.
  destruct (String.eqb (classify entry) Directory); [|exact Hs].
  eapply populated_bound; eauto.
Qed.

Lemma entries_populated_transport gidx st st' c nd hi hi' vs es :
  entries_populated sha256_hex gidx st c nd hi vs es ->
  preserved (S c) hi st st' -> hi <= hi' ->
  entries_populated sha256_hex gidx st' c nd hi' vs es.
Proof.
  intros H P Hle. revert vs H. induction es as [|e es IH]; intros [|v vs];
    cbn; auto.
  intros [He Hrest]. split; [|apply IH; exact Hrest].
  eapply entry_populated_transport; eauto.
Qed.




End Complete.

Section Completion.

Variable sha256_hex : list byte -> string.
Variables h0 m0 : nat.


End Completion.

Section Ordering.

Variable sha256_hex : list byte -> string.

Lemma walk_entry_split walk_rec n entry st st' :
  walk_entry sha256_hex walk_rec n entry st = Return tt st' ->
  exists nd st1,
    heap st !! n = Some nd /\
    attach sha256_hex (walk_rec (entry_target entry)) (entry_target entry)
           n (length (heap st)) (allocated st nd entry) = Return tt st1 /\
    enroll n (length (heap st)) st1 = Return tt st'.
Proof.
  intros H. unfold walk_entry in H.
  apply bind_Return in H as (nd & s1 & Hnd & H).
  apply deref_Return in Hnd as [Hnd ->].
  apply bind_Return in H as (child & s1 & Ha & H).
  unfold alloc in Ha. injection Ha as <- <-.
  apply bind_Return in H as ([] & s1 & Hs & H).
  apply store_Return in Hs as (c0 & Hc0 & ->). cbn in Hc0.
  rewrite snoc_lookup_new in Hc0. injection Hc0 as <-.
  cbn in H. rewrite snoc_insert_new in H.
  unfold add in H. apply bind_Return in H as ([] & st1 & Hatt & Henr).
  exists nd, st1. split; [exact Hnd|]. split; [exact Hatt | exact Henr].
Qed.

Lemma attach_Fill n entry st nd st1 :
  heap st !! n = Some nd ->
  attach sha256_hex (walk sha256_hex (entry_target entry))
         (entry_target entry) n (length (heap st)) (allocated st nd entry)
  = Return tt st1 ->
  Fill sha256_hex entry (length (heap st)) (created st n nd entry) st1.
Proof.
  intros Hnd Hatt. unfold attach, allocated in Hatt.
  cbv zeta in Hatt. unfold set_heap in Hatt.
  cbn [heap maps calls world] in Hatt.
  apply bind_Return in Hatt as (nd' & s1 & Hnd' & Hatt).
  apply deref_Return in Hnd' as [Hnd' ->]. cbn in Hnd'.
  assert (Hlt : n < length (heap st)) by (eapply lookup_lt_Some; eauto).
  rewrite snoc_lookup_old in Hnd' by exact Hlt.
  assert (nd' = nd) as -> by congruence.
  apply bind_Return in Hatt as (t & s1 & Ht & Hatt).
  unfold new_map in Ht. injection Ht as <- <-. cbn in Hatt.
  apply bind_Return in Hatt as ([] & s1 & Hs & Hatt).
  apply store_Return in Hs as (c1 & Hc1 & ->). cbn in Hc1.
  rewrite snoc_lookup_new in Hc1. injection Hc1 as <-.
  cbn in Hatt. rewrite snoc_insert_new in Hatt.
  apply bind_Return in Hatt as (c & s1 & Hc & Hatt).
  apply deref_Return in Hc as [Hc ->]. cbn in Hc.
  rewrite snoc_lookup_new in Hc. injection Hc as <-.
  cbn [Type_ set_link set_Type] in Hatt.
  match type of Hatt with
  | _ ?s = _ => change s with (created st n nd entry) in Hatt
  end.
  destruct (String.eqb_spec (classify entry) Directory) as [Hd|Hd].
  { apply Fill_directory; [exact Hd|]. apply walk_sound. exact Hatt. }
  destruct (String.eqb_spec (classify entry) File) as [Hf|Hf].
  - apply bind_Return in Hatt as (uri & st_u & Hu & Hatt).
    apply bind_Return in Hatt as (sum & s1 & Hsum & Hatt).
    apply store_Return in Hatt as (c & Hc & ->).
    unfold checksum_SHA256 in Hsum.
    destruct (entry_target entry) as [data| |] eqn:Ht;
      apply bind_Return in Hsum as ([] & s2 & He & Hsum);
      unfold emit in He; injection He as <-;
      try discriminate.
    unfold ret in Hsum. injection Hsum as <- <-. cbn in Hc.
    exact (Fill_file sha256_hex entry _ _ uri st_u c data Hf Hu Ht Hc).
  - unfold ret in Hatt. injection Hatt as <-.
    apply Fill_symbolic.
    unfold classify in *.
    destruct (Z.eqb _ _); [reflexivity|].
    destruct (Mode_IsDir _); contradiction.
Qed.


End Ordering.

(* ===================================================================== *)
(** * The theorems on a concrete directory *)
(* ===================================================================== *)

Lemma example_New :
  New example_digest "src" example_disk example_state = Return 0 example_tree.
Proof. vm_compute. reflexivity. Qed.





(** The nodes of the example are tagged and digested. *)
Lemma nodes_typed_example :
  New example_digest "src" example_disk example_state = Return 0 example_tree
  /\ (forall a nd, 0 <= a -> heap example_tree !! a = Some nd -> deep_ok nd).
Proof.
  split; [vm_compute; reflexivity|].
  exact (proj1 (nodes_typed_and_digested example_digest
                  "src" example_disk example_state 0 example_tree
                  example_New)).
Defined.


(** [Contents] on the file [src/a.txt] of the example: the first call
    reads the file, the second returns the cached bytes and leaves the
    state as it is. *)
Lemma Contents_example :
  Contents (Some 1) example_tree
  = Return (Some [x68; x69], None) (final (Contents (Some 1) example_tree))
  /\ Contents (Some 1) (final (Contents (Some 1) example_tree))
     = Return (Some [x68; x69], None)
              (final (Contents (Some 1) example_tree)).
Proof.
  split; [vm_compute; reflexivity|].
  refine (proj2 (proj2 (proj2 Contents_errors_and_cache))
                (final (Contents (Some 1) example_tree)) 1 _ [x68; x69]
                _ _ _).
  - vm_compute. reflexivity.
  - reflexivity.
  - reflexivity.
Defined.

(** [Copy] on the root of the example leaves the file [dst/src/a.txt]
    that the destination holds beforehand as it is. *)
Lemma Copy_keeps_example :
  files (world occupied_tree) !! ["work"; "dst"; "src"; "a.txt"]
  = Some (mkfobj 420 [x6f; x6c; x64])
  /\ files (world (final (Copy (fun l => l) 0 "dst" occupied_tree)))
     !! ["work"; "dst"; "src"; "a.txt"]
     = Some (mkfobj 420 [x6f; x6c; x64]).
Proof.
  split; [vm_compute; reflexivity|].
  exact (Copy_keeps_existing (fun l => l) 0 "dst" occupied_tree
           ["work"; "dst"; "src"; "a.txt"] (mkfobj 420 [x6f; x6c; x64])
           ltac:(vm_compute; reflexivity)).
Defined.

(** [Map] on the deepest node of the example returns the map of the root. *)
Lemma Map_example :
  New example_digest "src" example_disk example_state = Return 0 example_tree
  /\ (forall a nd, 0 <= a -> heap example_tree !! a = Some nd ->
                   Map a example_tree = Return (Some 0) example_tree).
Proof.
  split; [vm_compute; reflexivity|].
  exact (proj1 (proj1 (Map_is_root_index example_digest)
                      "src" example_disk example_state 0 example_tree
                      example_New)).
Defined.

(** The depths of the nodes of the example. *)
Lemma depth_example :
  New example_digest "src" example_disk example_state = Return 0 example_tree
  /\ (Z.of_nat (height example_disk) < 2 ^ 63)%Z
  /\ (exists rd, heap example_tree !! 0 = Some rd /\ parent rd = None /\
                 depth rd = 0%Z)
  /\ (forall a nd, 0 < a -> heap example_tree !! a = Some nd ->
        exists p pd, parent nd = Some p /\ heap example_tree !! p = Some pd /\
                     depth nd = (depth pd + 1)%Z).
Proof.
  split; [vm_compute; reflexivity|]. split; [vm_compute; reflexivity|].
  exact (depth_is_parent_depth_plus_one example_digest
           "src" example_disk example_state 0 example_tree
           example_New ltac:(vm_compute; reflexivity)).
Defined.

(** A symbolic link to a directory, found in [src/b] of the example. *)
Lemma symlink_example :
  Z.land (entry_Type (example_link example_disk)) ModeSymlink = ModeSymlink
  /\ exists st' c,
       walk_entry example_digest (walk example_digest) 2
                  (example_link example_disk) example_tree = Return tt st' /\
       Type_ c = Symbolic /\ Checksum c = None /\ Nodes c = [] /\
       heap st' !! 4 = Some c /\ calls st' = calls example_tree.
Proof.
  assert (Hsym : Z.land (entry_Type (example_link example_disk)) ModeSymlink
                 = ModeSymlink) by (vm_compute; reflexivity).
  split; [exact Hsym|].
  assert (Hn : exists nd, heap example_tree !! 2 = Some nd
                          /\ table nd = Some 2).
  { eexists. split; vm_compute; reflexivity. }
  assert (Hr : exists rd, heap example_tree !! 0 = Some rd
                          /\ table rd = Some 0).
  { eexists. split; vm_compute; reflexivity. }
  destruct Hn as (nd & Hn & Htn). destruct Hr as (rd & Hrd & Htr).
  assert (Hroot : Root_rec 3 (heap example_tree) 2 = Some 0)
    by (vm_compute; reflexivity).
  assert (Hm0 : is_Some (maps example_tree !! 0))
    by (eexists; vm_compute; reflexivity).
  assert (Hm2 : is_Some (maps example_tree !! 2))
    by (eexists; vm_compute; reflexivity).
  destruct (symlink_entry_is_leaf example_digest (walk example_digest) 2
              (example_link example_disk) example_tree nd 0 rd 0 2
              Hsym Hn Hroot Hrd Htr Hm0 Htn Hm2)
    as (st' & c & Hw & Hh & Hty & Hck & Hnil & _ & _ & _ & _ & Hc & _).
  exists st', c.
  split; [exact Hw|]. split; [exact Hty|]. split; [exact Hck|].
  split; [exact Hnil|]. split; [|exact Hc].
  rewrite Hh. clear. vm_compute. reflexivity.
Defined.

(** The path of the root of the example is no key of the global index. *)
Lemma root_path_example :
  New example_digest "src" example_disk example_state = Return 0 example_tree
  /\ names_ok example_disk = true
  /\ exists m, maps example_tree !! 0 = Some m /\ m !! "src" = None.
Proof.
  split; [vm_compute; reflexivity|]. split; [vm_compute; reflexivity|].
  destruct (root_path_not_indexed example_digest
              "src" example_disk example_state 0 example_tree
              example_New ltac:(vm_compute; reflexivity))
    as (m & _ & Hm & Hk & _).
  exists m. split; assumption.
Defined.


(* ===================================================================== *)
(** * Navigation in a constructed tree *)
(* ===================================================================== *)

Section Navigation.

Variable sha256_hex : list byte -> string.

(** [Root] on any node of a tree built by [New] returns the root of the
    tree and leaves the state as it is.  [Parent] returns nil on the
    root only: on every other node it returns a node of the tree that
    was created earlier. *)
Theorem Root_returns_tree_root path disk st root st' :
  New sha256_hex path disk st = Return root st' ->
  (forall a nd, root <= a -> heap st' !! a = Some nd ->
                Root a st' = Return root st')
  /\ Parent root st' = Return None st'
  /\ (forall a nd, root < a -> heap st' !! a = Some nd ->
        exists p, Parent a st' = Return (Some p) st' /\ root <= p < a).
Proof.
  intros H. apply New_tree in H as (-> & I & _).
  split; [|split].
  - intros a nd Ha Hnd. apply Root_Return. split; [eauto|].
    split; [|reflexivity]. eapply inv_Root; eauto.
  - destruct (inv_root _ _ _ I) as (rd & Hrd & Hp & _).
    unfold Parent. rewrite (bind_step _ _ _ _ _ (deref_step _ _ _ Hrd)).
    rewrite Hp. reflexivity.
  - intros a nd Ha Hnd.
    destruct (inv_node _ _ _ I a nd Ha Hnd) as (p & pd & t & Hp & Hlt & _).
    exists p. split; [|exact Hlt].
    unfold Parent. rewrite (bind_step _ _ _ _ _ (deref_step _ _ _ Hnd)).
    rewrite Hp. reflexivity.
Qed.

(** The table of the root is the global index: [Table] and [Map] on the
    root return the same map, which has an entry under the path of every
    node below the root, at any depth.  Every other node has a table of
    its own, which is not the global index, and no two nodes share a
    table. *)
Theorem Table_of_root_is_global_index path disk st root st' :
  New sha256_hex path disk st = Return root st' ->
  exists g,
    Table root st' = Return (Some g) st'
    /\ Map root st' = Return (Some g) st'
    /\ (forall a nd, root < a -> heap st' !! a = Some nd ->
          exists m, maps st' !! g = Some m /\ is_Some (m !! Path nd))
    /\ (forall a nd, root < a -> heap st' !! a = Some nd ->
          exists t, Table a st' = Return (Some t) st' /\ t <> g
                    /\ is_Some (maps st' !! t))
    /\ (forall a b ta tb,
          root <= a -> root <= b ->
          Table a st' = Return ta st' -> Table b st' = Return tb st' ->
          ta = tb -> a = b).
Proof.
  intros H. destruct (New_index sha256_hex _ _ _ _ _ H) as (HMap & Hreg).
  apply New_tree in H as (-> & I & _).
  destruct (inv_root _ _ _ I) as (rd & Hrd & _ & Ht & _).
  assert (HT : forall a nd, heap st' !! a = Some nd ->
                            Table a st' = Return (table nd) st').
  { intros a nd Hnd. unfold Table.
    rewrite (bind_step _ _ _ _ _ (deref_step _ _ _ Hnd)). reflexivity. }
  exists (length (maps st)). split; [|split; [|split; [|split]]].
  - rewrite (HT _ _ Hrd), Ht. reflexivity.
  - eapply HMap; eauto.
  - intros a nd Ha Hnd. destruct (Hreg a nd Ha Hnd) as (m & b & Hm & Hb).
    eauto.
  - intros a nd Ha Hnd.
    destruct (inv_node _ _ _ I a nd Ha Hnd)
      as (_ & _ & t & _ & _ & _ & Ht' & Hlt & _).
    exists t. rewrite (HT _ _ Hnd), Ht'. split; [reflexivity|].
    split; [lia|]. apply lookup_lt_is_Some_2. lia.
  - intros a b ta tb Ha Hb HTa HTb <-.
    unfold Table in HTa, HTb.
    apply bind_Return in HTa as (nda & s1 & Hnda & HTa).
    apply deref_Return in Hnda as [Hnda ->]. injection HTa as HTa.
    apply bind_Return in HTb as (ndb & s1 & Hndb & HTb).
    apply deref_Return in Hndb as [Hndb ->]. injection HTb as HTb.
    eapply (inv_inj _ _ _ I a b nda ndb); eauto. congruence.
Qed.

End Navigation.

(* ===================================================================== *)
(** * The queries on a table *)
(* ===================================================================== *)

Lemma select_total ty l st :
  (forall k c, (k, c) ∈ l -> is_Some (heap st !! c)) ->
  exists ds,
    select ty l st = Return ds st /\
    forall d, d ∈ ds <->
      exists k nd, (k, d) ∈ l /\ heap st !! d = Some nd /\ Type_ nd = ty.
Proof.
  induction l as [|[k a] l IH]; intros Hl.
  - exists []. split; [reflexivity|]. intros d. split.
    + intros Hd. inversion Hd.
    + intros (k & nd & Hk & _). inversion Hk.
  - destruct (Hl k a ltac:(left)) as [nd Hnd].
    destruct IH as (ds & Hds & Hin).
    { intros k' c Hc. apply (Hl k'). right. exact Hc. }
    cbn [select]. rewrite (bind_step _ _ _ _ _ (deref_step _ _ _ Hnd)).
    rewrite (bind_step _ _ _ _ _ Hds). unfold ret.
    eexists. split; [reflexivity|]. intros d.
    destruct (String.eqb_spec (Type_ nd) ty) as [Hty|Hty].
    + rewrite elem_of_cons, Hin. split.
      * intros [->|(k' & nd' & Hk' & Hd & Hty')].
        -- exists k, nd. split; [left|]; auto.
        -- exists k', nd'. split; [right|]; auto.
      * intros (k' & nd' & Hk' & Hd & Hty').
        apply elem_of_cons in Hk' as [[= -> ->]|Hk']; [left; reflexivity|].
        right. eauto.
    + rewrite Hin. split.
      * intros (k' & nd' & Hk' & Hd & Hty'). exists k', nd'.
        split; [right|]; auto.
      * intros (k' & nd' & Hk' & Hd & Hty').
        apply elem_of_cons in Hk' as [[= -> ->]|Hk']; [|eauto].
        congruence.
Qed.

Section Queries.

Variable sha256_hex : list byte -> string.
Variable range_order : list (string * addr) -> list (string * addr).

(** A [range] loop visits every entry of the map once. *)
Hypothesis range_order_perm : forall l, range_order l ≡ₚ l.

Lemma range_Table_total st n nd t m :
  heap st !! n = Some nd -> table nd = Some t -> maps st !! t = Some m ->
  range_Table range_order n st = Return (range_order (map_to_list m)) st.
Proof.
  intros Hn Ht Hm.
  assert (HT : Table n st = Return (Some t) st).
  { unfold Table. rewrite (bind_step _ _ _ _ _ (deref_step _ _ _ Hn)).
    unfold ret. rewrite Ht. reflexivity. }
  unfold range_Table. rewrite (bind_step _ _ _ _ _ HT).
  rewrite Hm. reflexivity.
Qed.

Lemma range_order_elem (m : gmap string addr) k c :
  (k, c) ∈ range_order (map_to_list m) <-> m !! k = Some c.
Proof. rewrite range_order_perm. apply elem_of_map_to_list. Qed.

(** On every node of a tree built by [New], [Files] and [Directories]
    return and leave the state as it is.  [Files] returns exactly the
    nodes of the node's table that are tagged File, [Directories] those
    tagged Directory; no node is in both, and a symbolic link is in
    neither.  On a node other than the root the nodes returned are
    direct children of the node. *)
Theorem Files_and_Directories_split path disk st root st' n nd :
  New sha256_hex path disk st = Return root st' ->
  root <= n -> heap st' !! n = Some nd ->
  exists fs ds t m,
    Files range_order n st' = Return fs st'
    /\ Directories range_order n st' = Return ds st'
    /\ table nd = Some t /\ maps st' !! t = Some m
    /\ (forall c, c ∈ fs <->
          exists k cd, m !! k = Some c /\ heap st' !! c = Some cd
                       /\ Type_ cd = File)
    /\ (forall c, c ∈ ds <->
          exists k cd, m !! k = Some c /\ heap st' !! c = Some cd
                       /\ Type_ cd = Directory)
    /\ (forall c, c ∈ fs -> c ∉ ds)
    /\ (forall c cd, c ∈ fs ++ ds -> heap st' !! c = Some cd ->
                     Type_ cd <> Symbolic)
    /\ (root < n -> forall c cd, c ∈ fs ++ ds ->
          heap st' !! c = Some cd -> parent cd = Some n).
Proof.
  intros H Hn Hnd. apply New_tree in H as (-> & I & _).
  assert (Ht : exists t, table nd = Some t /\ length (maps st) <= t
                         /\ t < length (maps st')).
  { destruct (decide (n = length (heap st))) as [->|Hne].
    - destruct (inv_root _ _ _ I) as (rd & Hrd & _ & Ht & _).
      assert (nd = rd) as -> by congruence.
      exists (length (maps st)). split; [exact Ht|].
      split; [lia | apply (inv_m0 _ _ _ I)].
    - destruct (inv_node _ _ _ I n nd ltac:(lia) Hnd)
        as (_ & _ & t & _ & _ & _ & Ht & Hlt & _).
      exists t. split; [exact Ht | lia]. }
  destruct Ht as (t & Ht & Hge & Hlt).
  destruct (lookup_lt_is_Some_2 (maps st') t Hlt) as [m Hm].
  pose proof (range_Table_total st' n nd t m Hnd Ht Hm) as HR.
  assert (Hlive : forall k c, (k, c) ∈ range_order (map_to_list m) ->
                              is_Some (heap st' !! c)).
  { intros k c Hkc. apply range_order_elem in Hkc.
    destruct (inv_entry _ _ _ I t m k c Hge Hm Hkc) as (cd & _ & _ & _ & Hcd & _).
    eauto. }
  destruct (select_total File _ st' Hlive) as (fs & Hfs & Hinf).
  destruct (select_total Directory _ st' Hlive) as (ds & Hds & Hind).
  assert (Ef : forall ty c,
             (exists k cd, (k, c) ∈ range_order (map_to_list m)
                           /\ heap st' !! c = Some cd /\ Type_ cd = ty)
             <-> (exists k cd, m !! k = Some c /\ heap st' !! c = Some cd
                               /\ Type_ cd = ty)).
  { intros ty c. split; intros (k & cd & Hk & Hc); exists k, cd;
      (split; [apply range_order_elem; exact Hk | exact Hc]). }
  exists fs, ds, t, m.
  split. { unfold Files. rewrite (bind_step _ _ _ _ _ HR). exact Hfs. }
  split. { unfold Directories. rewrite (bind_step _ _ _ _ _ HR). exact Hds. }
  split; [exact Ht|]. split; [exact Hm|].
  split. { intros c. rewrite Hinf. apply Ef. }
  split. { intros c. rewrite Hind. apply Ef. }
  split.
  { intros c Hf Hd. apply Hinf in Hf as (_ & cd & _ & Hc & Hty).
    apply Hind in Hd as (_ & cd' & _ & Hc' & Hty').
    assert (cd' = cd) as -> by congruence. rewrite Hty in Hty'.
    discriminate. }
  split.
  { intros c cd Hc Hcd Hty. apply elem_of_app in Hc as [Hc|Hc].
    - apply Hinf in Hc as (_ & cd' & _ & Hc' & Hty').
      assert (cd' = cd) as -> by congruence. rewrite Hty in Hty'.
      discriminate.
    - apply Hind in Hc as (_ & cd' & _ & Hc' & Hty').
      assert (cd' = cd) as -> by congruence. rewrite Hty in Hty'.
      discriminate. }
  intros Hroot c cd Hc Hcd.
  pose proof (tree_children_table _ _ _ _ I Hroot) as Hct.
  assert (Hk : exists k, m !! k = Some c).
  { apply elem_of_app in Hc as [Hc|Hc].
    - apply Hinf, Ef in Hc as (k & _ & Hk & _). eauto.
    - apply Hind, Ef in Hc as (k & _ & Hk & _). eauto. }
  destruct Hk as [k Hk].
  destruct (Hct nd t m k c Hnd Ht Hm Hk) as (cd' & Hcd' & Hp).
  congruence.
Qed.

End Queries.

(* ===================================================================== *)
(** * Search *)
(* ===================================================================== *)

Lemma prefix_spec (p s : string) :
  String.prefix p s = true <-> exists post, s = p +:+ post.
Proof.
  revert s. induction p as [|c p IH]; intros s.
  - split; [cbn; eauto | destruct s; reflexivity].
  - destruct s as [|c' s]; cbn.
    + split; [discriminate | intros [post [=]]].
    + destruct (ascii_dec c c') as [->|Hne].
      * rewrite IH. split; intros [post E]; exists post;
          [rewrite E; reflexivity | injection E as E; exact E].
      * split; [discriminate|]. intros [post [= E _]]. congruence.
Qed.

Lemma Contains_spec (s substr : string) :
  Contains s substr = true
  <-> exists pre post, s = pre +:+ substr +:+ post.
Proof.
  induction s as [|c s IH]; cbn [Contains].
  - rewrite orb_false_r, prefix_spec. split.
    + intros [post E]. exists "", post. exact E.
    + intros (pre & post & E). destruct pre as [|c pre]; [eauto|].
      discriminate.
  - rewrite orb_true_iff, prefix_spec, IH. split.
    + intros [[post E]|(pre & post & E)].
      * exists "", post. exact E.
      * exists (String c pre), post. rewrite E. reflexivity.
    + intros (pre & post & E). destruct pre as [|c' pre].
      * left. exists post. exact E.
      * right. exists pre, post. injection E as _ E. exact E.
Qed.

Lemma Contains_empty (s : string) : Contains s "" = true.
Proof. destruct s; reflexivity. Qed.

Section Searching.

Variable sha256_hex : list byte -> string.
Variable range_order : list (string * addr) -> list (string * addr).
Hypothesis range_order_perm : forall l, range_order l ≡ₚ l.

(** On every node of a tree built by [New], [Search] returns and leaves
    the state as it is.  It returns exactly the nodes filed in the
    node's table under a key that has the descriptor as a substring; the
    key of a node is its path.  On a node other than the root these are
    direct children of the node.  With the empty descriptor it returns
    one node for every entry of the table. *)
Theorem Search_finds_matching_keys path disk st root st' n nd descriptor :
  New sha256_hex path disk st = Return root st' ->
  root <= n -> heap st' !! n = Some nd ->
  exists found t m,
    Search range_order n descriptor st' = Return found st'
    /\ table nd = Some t /\ maps st' !! t = Some m
    /\ (forall c, c ∈ found <->
          exists k pre post,
            m !! k = Some c /\ k = pre +:+ descriptor +:+ post)
    /\ (forall c, c ∈ found ->
          exists cd pre post,
            root < c /\ heap st' !! c = Some cd /\
            Path cd = pre +:+ descriptor +:+ post)
    /\ (root < n -> forall c cd, c ∈ found ->
          heap st' !! c = Some cd -> parent cd = Some n)
    /\ (descriptor = "" -> length found = size m).
Proof.
  intros H Hn Hnd. apply New_tree in H as (-> & I & _).
  assert (Ht : exists t, table nd = Some t /\ length (maps st) <= t
                         /\ t < length (maps st')).
  { destruct (decide (n = length (heap st))) as [->|Hne].
    - destruct (inv_root _ _ _ I) as (rd & Hrd & _ & Ht & _).
      assert (nd = rd) as -> by congruence.
      exists (length (maps st)). split; [exact Ht|].
      split; [lia | apply (inv_m0 _ _ _ I)].
    - destruct (inv_node _ _ _ I n nd ltac:(lia) Hnd)
        as (_ & _ & t & _ & _ & _ & Ht & Hlt & _).
      exists t. split; [exact Ht | lia]. }
  destruct Ht as (t & Ht & Hge & Hlt).
  destruct (lookup_lt_is_Some_2 (maps st') t Hlt) as [m Hm].
  pose proof (range_Table_total range_order st' n nd t m Hnd Ht Hm) as HR.
  set (l := range_order (map_to_list m)) in *.
  set (found := map snd (List.filter
                           (fun kv => Contains (fst kv) descriptor) l)).
  assert (Hin : forall c, c ∈ found <->
            exists k pre post,
              m !! k = Some c /\ k = pre +:+ descriptor +:+ post).
  { intros c. unfold found. rewrite list_elem_of_In, in_map_iff. split.
    - intros ([k c'] & Hc & Hf). cbn in Hc. subst c'.
      apply filter_In in Hf as [Hf Hk]. cbn in Hk.
      apply Contains_spec in Hk as (pre & post & Hk).
      apply list_elem_of_In in Hf. unfold l in Hf.
      rewrite (range_order_perm (map_to_list m)) in Hf.
      apply elem_of_map_to_list in Hf. eauto.
    - intros (k & pre & post & Hk & E). exists (k, c).
      split; [reflexivity|]. apply filter_In. split.
      + apply list_elem_of_In. unfold l.
        rewrite (range_order_perm (map_to_list m)).
        apply elem_of_map_to_list. exact Hk.
      + cbn. apply Contains_spec. eauto. }
  exists found, t, m.
  split. { unfold Search. rewrite (bind_step _ _ _ _ _ HR). reflexivity. }
  split; [exact Ht|]. split; [exact Hm|]. split; [exact Hin|].
  split.
  { intros c Hc. apply Hin in Hc as (k & pre & post & Hk & E).
    destruct (inv_entry _ _ _ I t m k c Hge Hm Hk)
      as (cd & _ & _ & Hlt' & Hcd & Hp & _).
    exists cd, pre, post. rewrite Hp. auto. }
  split.
  { intros Hroot c cd Hc Hcd.
    apply Hin in Hc as (k & _ & _ & Hk & _).
    destruct (tree_children_table _ _ _ _ I Hroot nd t m k c Hnd Ht Hm Hk)
      as (cd' & Hcd' & Hp).
    congruence. }
  intros ->. unfold found.
  rewrite length_map.
  assert (E : List.filter (fun kv : string * addr => Contains (fst kv) "") l
              = l).
  { clear. induction l as [|x l IH]; [reflexivity|]. cbn.
    rewrite Contains_empty, IH. reflexivity. }
  rewrite E. unfold l. rewrite (range_order_perm (map_to_list m)).
  apply length_map_to_list.
Qed.

End Searching.

(* ===================================================================== *)
(** * Only directories have children *)
(* ===================================================================== *)

Lemma reg_other ms id k v id' :
  id' <> id -> reg ms id k v !! id' = ms !! id'.
Proof.
  intros Hne. unfold reg. destruct (ms !! id) as [m|]; [|reflexivity].
  destruct (m !! k); [reflexivity|].
  apply list_lookup_insert_ne. auto.
Qed.

Lemma tree_table h0 m0 st a nd :
  tree_inv h0 m0 st -> h0 <= a -> heap st !! a = Some nd ->
  exists t, table nd = Some t /\ m0 <= t < length (maps st)
            /\ (h0 < a -> m0 < t).
Proof.
  intros I Ha Hnd. destruct (decide (a = h0)) as [->|Hne].
  - destruct (inv_root _ _ _ I) as (rd & Hrd & _ & Ht & _).
    assert (nd = rd) as -> by congruence.
    exists m0. split; [exact Ht|]. split; [|lia].
    split; [lia | apply (inv_m0 _ _ _ I)].
  - destruct (inv_node _ _ _ I a nd ltac:(lia) Hnd)
      as (_ & _ & t & _ & _ & _ & Ht & Hlt & _).
    exists t. split; [exact Ht|]. split; lia.
Qed.

Lemma tree_parent h0 m0 st a nd p :
  tree_inv h0 m0 st -> h0 <= a -> heap st !! a = Some nd ->
  parent nd = Some p -> h0 <= p < a.
Proof.
  intros I Ha Hnd Hp. destruct (decide (a = h0)) as [->|Hne].
  - destruct (inv_root _ _ _ I) as (rd & Hrd & Hpr & _).
    assert (nd = rd) as -> by congruence. congruence.
  - destruct (inv_node _ _ _ I a nd ltac:(lia) Hnd)
      as (p' & _ & _ & Hp' & Hlt & _).
    assert (p' = p) as -> by congruence. exact Hlt.
Qed.

Section Leaves.

Variable sha256_hex : list byte -> string.
Variables h0 m0 : nat.

Lemma leaves_ok_created st n nd entry :
  tree_inv h0 m0 st -> h0 <= n -> heap st !! n = Some nd ->
  Type_ nd = Directory ->
  leaves_ok h0 st -> leaves_ok h0 (created st n nd entry).
Proof.
  intros I Hn Hnd Hty L a x Ha Hx. cbn in Hx.
  assert (Hlt : n < length (heap st)) by (eapply lookup_lt_Some; eauto).
  destruct (decide (a < length (heap st))) as [Hold|Hnew].
  - rewrite snoc_lookup_old in Hx by exact Hold.
    destruct (L a x Ha Hx) as [L1 L2]. split.
    + intros Hnd'. destruct (L1 Hnd') as [Hnil Hm]. split; [exact Hnil|].
      intros t m Ht Hmt. cbn in Hmt.
      destruct (tree_table _ _ _ _ _ I Ha Hx) as (t' & Ht' & Hb & _).
      assert (t' = t) as -> by congruence.
      rewrite lookup_app_l in Hmt by lia. eauto.
    + intros p pd Hp Hpd. cbn in Hpd.
      pose proof (tree_parent _ _ _ _ _ _ I Ha Hx Hp) as Hb.
      rewrite snoc_lookup_old in Hpd by lia. eauto.
  - assert (a = length (heap st)) as ->.
    { apply lookup_lt_Some in Hx. rewrite length_app in Hx. cbn in Hx. lia. }
    rewrite snoc_lookup_new in Hx. injection Hx as <-. split.
    + intros _. split; [reflexivity|]. intros t m [= <-] Hmt. cbn in Hmt.
      rewrite snoc_lookup_new in Hmt. congruence.
    + intros p pd [= <-] Hpd. cbn in Hpd.
      rewrite snoc_lookup_old in Hpd by exact Hlt. congruence.
Qed.

Lemma construction_leaves :
  (forall disk n st st',
      Walk sha256_hex disk n st st' ->
      tree_inv h0 m0 st -> h0 <= n < length (heap st) ->
      (exists nd, heap st !! n = Some nd /\ Type_ nd = Directory) ->
      leaves_ok h0 st -> leaves_ok h0 st')
  /\ (forall entries n st st',
        WalkEntries sha256_hex entries n st st' ->
        tree_inv h0 m0 st -> h0 <= n < length (heap st) ->
        (exists nd, heap st !! n = Some nd /\ Type_ nd = Directory) ->
        leaves_ok h0 st -> leaves_ok h0 st')
  /\ (forall entry n st st',
        WalkEntry sha256_hex entry n st st' ->
        tree_inv h0 m0 st -> h0 <= n < length (heap st) ->
        (exists nd, heap st !! n = Some nd /\ Type_ nd = Directory) ->
        leaves_ok h0 st -> leaves_ok h0 st')
  /\ (forall entry child st st',
        Fill sha256_hex entry child st st' ->
        tree_inv h0 m0 st -> h0 < child < length (heap st) ->
        (exists c, heap st !! child = Some c /\ Type_ c = classify entry) ->
        leaves_ok h0 st -> leaves_ok h0 st').
Proof.
  destruct construction_evolves with (sha256_hex := sha256_hex)
    as (EvW & EvEs & EvE & EvF).
  destruct (construction_inv sha256_hex h0 m0) as (IW & IEs & IE & IF).
  apply (Walk_mutind sha256_hex
    (fun disk n st st' =>
       tree_inv h0 m0 st -> h0 <= n < length (heap st) ->
       (exists nd, heap st !! n = Some nd /\ Type_ nd = Directory) ->
       leaves_ok h0 st -> leaves_ok h0 st')
    (fun entries n st st' =>
       tree_inv h0 m0 st -> h0 <= n < length (heap st) ->
       (exists nd, heap st !! n = Some nd /\ Type_ nd = Directory) ->
       leaves_ok h0 st -> leaves_ok h0 st')
    (fun entry n st st' =>
       tree_inv h0 m0 st -> h0 <= n < length (heap st) ->
       (exists nd, heap st !! n = Some nd /\ Type_ nd = Directory) ->
       leaves_ok h0 st -> leaves_ok h0 st')
    (fun entry child st st' =>
       tree_inv h0 m0 st -> h0 < child < length (heap st) ->
       (exists c, heap st !! child = Some c /\ Type_ c = classify entry) ->
       leaves_ok h0 st -> leaves_ok h0 st')).
  - (* folder *)
    intros entries n nd st st' Hn _ IH I Hr Hd L.
    apply IH; auto. apply tree_inv_log. exact I.
  - (* listing error *)
    intros disk n nd e st Hn _ I Hr Hd L. exact L.
  - intros n st I Hr Hd L. exact L.
  - (* entries *)
    intros entry rest n st st1 st' HE IH1 _ IH2 I Hr (nd & Hnd & Hty) L.
    destruct (IE _ _ _ _ HE I Hr) as [I1 _].
    pose proof (EvE _ _ _ _ HE) as Ev.
    apply IH2; auto.
    + pose proof (ev_len _ _ _ Ev). lia.
    + destruct (evolves_Type _ _ _ _ _ Ev Hnd) as (nd' & Hnd' & Hty').
      exists nd'. split; [exact Hnd' | congruence].
    + apply IH1; eauto.
  - (* one entry *)
    intros entry n nd st st1 r rd c nd1 tr tn Hn HF IHfill Hroot Hrd Htr
           Hmr Hc Hn1 Htn Hmn I Hr (nd0 & Hnd0 & Hty) L.
    assert (nd0 = nd) as -> by congruence.
    pose proof (tree_inv_created _ _ _ _ _ entry I (proj1 Hr) Hn) as I0.
    pose proof (EvF _ _ _ _ HF) as Ev.
    assert (Hchild0 : heap (created st n nd entry) !! length (heap st)
                      = Some (fresh_node n nd (length (maps st)) entry)).
    { cbn. apply snoc_lookup_new. }
    assert (Hlen0 : length (heap (created st n nd entry))
                    = S (length (heap st))).
    { cbn. rewrite length_app. cbn. lia. }
    assert (L1 : leaves_ok h0 st1).
    { apply IHfill; auto; [lia | eauto |].
      apply leaves_ok_created; auto. lia. }
    destruct (IF _ _ _ _ HF I0 ltac:(lia) ltac:(eauto)) as [[I1 _] _].
    assert (Hty1 : Type_ nd1 = Directory).
    { rewrite (ev_old _ _ _ Ev) in Hn1 by lia. cbn in Hn1.
      rewrite snoc_lookup_old in Hn1 by lia. congruence. }
    pose proof (inv_Root _ _ _ _ _ I1 (proj1 Hr) Hn1) as Hr'.
    assert (r = h0) as -> by congruence.
    destruct (inv_root _ _ _ I1) as (rd' & Hrd' & _ & Htr' & _ & Htyr & _).
    assert (rd' = rd) as -> by congruence.
    assert (tr = m0) as -> by congruence.
    assert (Hn1lt : n < length (heap st1))
      by (eapply lookup_lt_Some; eauto).
    (* types and parents are those of [st1] *)
    assert (Hsame : forall a x,
              heap (enrolled st1 n (length (heap st)) nd1 c m0 tn) !! a
              = Some x ->
              exists x1, heap st1 !! a = Some x1 /\ Type_ x = Type_ x1 /\
                         parent x = parent x1 /\ table x = table x1 /\
                         (a <> n -> x = x1)).
    { intros a x Hx. cbn in Hx. destruct (decide (a = n)) as [->|Hne].
      - rewrite list_lookup_insert_eq in Hx by exact Hn1lt.
        injection Hx as <-. exists nd1. destruct nd1; cbn; auto.
        repeat split; auto. contradiction.
      - rewrite list_lookup_insert_ne in Hx by auto. exists x. auto. }
    intros a x Ha Hx. destruct (Hsame a x Hx) as (x1 & Hx1 & Et & Ep & Etb & Ex).
    destruct (L1 a x1 Ha Hx1) as [LA LB]. split.
    + intros Hnd. destruct (decide (a = n)) as [->|Hne].
      { assert (x1 = nd1) as -> by congruence. congruence. }
      rewrite (Ex Hne) in *. destruct (LA Hnd) as [Hnil Hm].
      split; [exact Hnil|]. intros t m Ht Hmt. cbn in Hmt.
      assert (t <> m0).
      { destruct (decide (a = h0)) as [->|Hne0].
        - assert (x1 = rd) as -> by congruence. congruence.
        - destruct (tree_table _ _ _ _ _ I1 Ha Hx1) as (t' & Ht' & _ & Hgt).
          assert (t' = t) as -> by congruence. specialize (Hgt ltac:(lia)).
          lia. }
      assert (t <> tn).
      { intros ->. apply Hne.
        eapply (inv_inj _ _ _ I1 a n x1 nd1); eauto; try lia. congruence. }
      rewrite !reg_other in Hmt by auto. eauto.
    + intros p pd Hp Hpd. destruct (Hsame p pd Hpd) as (pd1 & Hpd1 & Etp & _).
      rewrite Etp. eapply LB; eauto. congruence.
  - (* directory *)
    intros entry child st st1 Hcl _ IH I Hr (c & Hc & Hty) L.
    apply IH; auto; [lia|]. exists c. split; [exact Hc | congruence].
  - (* file *)
    intros entry child st uri st1 c data Hcl Hu Ht Hc I Hr (c0 & Hc0 & Hty) L.
    destruct (URI_evolves child st uri st1 Hu) as (Hh & Hm & _).
    rewrite Hh in Hc. assert (c0 = c) as -> by congruence.
    intros a x Ha Hx. cbn in Hx.
    assert (Hsame : exists x1, heap st !! a = Some x1 /\
              Type_ x = Type_ x1 /\ parent x = parent x1 /\
              table x = table x1 /\ Nodes x = Nodes x1).
    { destruct (decide (a = child)) as [->|Hne].
      - rewrite Hh, list_lookup_insert_eq in Hx by lia.
        injection Hx as <-. exists c. destruct c; cbn; auto.
      - rewrite list_lookup_insert_ne, Hh in Hx by auto. eauto 6. }
    destruct Hsame as (x1 & Hx1 & Et & Ep & Etb & En).
    destruct (L a x1 Ha Hx1) as [LA LB]. split.
    + rewrite Et, En, Etb. intros Hnd. destruct (LA Hnd) as [Hnil Hmt].
      split; [exact Hnil|]. intros t m Htb Hmap. cbn in Hmap.
      rewrite Hm in Hmap. eauto.
    + rewrite Ep. intros p pd Hp Hpd. cbn in Hpd.
      destruct (decide (p = child)) as [->|Hne].
      * rewrite Hh, list_lookup_insert_eq in Hpd by lia.
        injection Hpd as <-. cbn.
        replace (Type_ (set_Checksum c (Some (sha256_hex data))))
          with (Type_ c) by (destruct c; reflexivity).
        eapply LB; eauto.
      * rewrite list_lookup_insert_ne, Hh in Hpd by auto. eauto.
  - intros entry child st Hcl I Hr Hc L. exact L.
Qed.

End Leaves.

Section LeavesOfTree.

Variable sha256_hex : list byte -> string.

(** In a tree built by [New] only directories have children: a node
    tagged File or Symbolic has an empty snapshot sequence and an empty
    table, and the parent of every node is tagged Directory. *)
Theorem only_directories_have_children path disk st root st' :
  New sha256_hex path disk st = Return root st' ->
  forall a nd, root <= a -> heap st' !! a = Some nd ->
    (Type_ nd <> Directory ->
       Nodes nd = [] /\
       exists t, Table a st' = Return (Some t) st' /\ maps st' !! t = Some ∅)
    /\ (forall p, parent nd = Some p ->
          exists pd, heap st' !! p = Some pd /\ Type_ pd = Directory).
Proof.
  intros H a nd Ha Hnd.
  pose proof (New_tree sha256_hex _ _ _ _ _ H) as (_ & I & _).
  apply New_inv in H as (fi & st0 & Hs & Hd & -> & HW).
  destruct (Stat_Return _ _ _ _ Hs) as (Hh & Hm & _).
  destruct (construction_leaves sha256_hex (length (heap st))
                                (length (maps st))) as (LW & _).
  pose proof (tree_inv_planted st0 path fi) as I0. rewrite Hh, Hm in I0.
  assert (Hroot : heap (planted st0 path fi) !! length (heap st)
                  = Some (root_node path fi (length (maps st0)))).
  { cbn. rewrite <- Hh. apply snoc_lookup_new. }
  assert (L0 : leaves_ok (length (heap st)) (planted st0 path fi)).
  { intros b x Hb Hx. cbn in Hx. rewrite Hh in Hx.
    assert (b = length (heap st)) as ->.
    { apply lookup_lt_Some in Hx. rewrite length_app in Hx. cbn in Hx. lia. }
    rewrite snoc_lookup_new in Hx. injection Hx as <-. cbn.
    split; [intros Hc; contradiction | discriminate]. }
  pose proof (LW _ _ _ _ HW I0
                 ltac:(cbn; rewrite length_app, Hh; cbn; lia)
                 ltac:(eexists; split; [exact Hroot | reflexivity]) L0) as L.
  destruct (L a nd Ha Hnd) as [LA LB]. split.
  - intros Hty. destruct (LA Hty) as [Hnil Hmt]. split; [exact Hnil|].
    destruct (tree_table _ _ _ _ _ I Ha Hnd) as (t & Ht & Hb & _).
    exists t. split.
    + unfold Table. rewrite (bind_step _ _ _ _ _ (deref_step _ _ _ Hnd)).
      unfold ret. rewrite Ht. reflexivity.
    + destruct (lookup_lt_is_Some_2 (maps st') t ltac:(lia)) as [m Hmm].
      rewrite Hmm. f_equal. eauto.
  - intros p Hp.
    pose proof (tree_parent _ _ _ _ _ _ I Ha Hnd Hp) as Hb.
    destruct (lookup_lt_is_Some_2 (heap st') p) as [pd Hpd].
    { apply lookup_lt_Some in Hnd. lia. }
    exists pd. split; [exact Hpd | eauto].
Qed.

End LeavesOfTree.

(* ===================================================================== *)
(** * The outcomes of a construction *)
(* ===================================================================== *)

Lemma readable_Folder entries :
  readable (Folder entries) = forallb entry_readable entries.
Proof.
  cbn [readable]. induction entries as [|entry es IH]; [reflexivity|].
  cbn [forallb]. rewrite <- IH. reflexivity.
Qed.

Lemma URI_outcome a st nd :
  heap st !! a = Some nd -> scan_outcome (URI a st).
Proof.
  intros Hnd.
  destruct (URI_cases a st nd Hnd) as [[Ha E]|[[Ha E]|[Ha [f E]]]];
    rewrite E; cbn; auto.
  right. reflexivity.
Qed.

Lemma URI_returns a st nd :
  heap st !! a = Some nd -> getwd_works (world st) ->
  exists uri st1, URI a st = Return uri st1.
Proof.
  intros Hnd Hw.
  destruct (URI_cases a st nd Hnd) as [[Ha E]|[[Ha E]|[Ha [f E]]]];
    [eauto | eauto |].
  exfalso. unfold URI in E.
  rewrite (bind_step _ _ _ _ _ (deref_step _ _ _ Hnd)), Ha in E.
  unfold os_Getwd, oscall, bind in E. rewrite (Hw (length (calls st))) in E.
  discriminate.
Qed.

Section Outcomes.

Variable sha256_hex : list byte -> string.

Lemma walk_entry_unfold walk_rec n entry st nd :
  heap st !! n = Some nd ->
  walk_entry sha256_hex walk_rec n entry st
  = bind (fill_body sha256_hex walk_rec entry (length (heap st)))
         (fun _ => enroll n (length (heap st)))
         (created st n nd entry).
Proof.
  intros Hn.
  assert (Hlt : n < length (heap st)) by (eapply lookup_lt_Some; eauto).
  unfold walk_entry, add, attach.
  unfold bind, deref, alloc, store, new_map, ret.
  rewrite Hn. cbn [heap maps set_heap set_maps calls world].
  rewrite snoc_lookup_new. cbn [heap maps set_heap set_maps calls world].
  rewrite snoc_insert_new.
  rewrite snoc_lookup_old by exact Hlt. rewrite Hn.
  cbn [heap maps set_heap set_maps calls world].
  rewrite snoc_lookup_new. cbn [heap maps set_heap set_maps calls world].
  rewrite snoc_insert_new, snoc_lookup_new.
  cbn [Type_ set_link set_Type].
  unfold fill_body, bind, store, ret. reflexivity.
Qed.

Lemma fill_body_Fill entry child st st1 :
  fill_body sha256_hex (walk sha256_hex) entry child st = Return tt st1 ->
  Fill sha256_hex entry child st st1.
Proof.
  intros H. unfold fill_body in H.
  destruct (String.eqb_spec (classify entry) Directory) as [Hd|Hd].
  { apply Fill_directory; [exact Hd|]. apply walk_sound. exact H. }
  destruct (String.eqb_spec (classify entry) File) as [Hf|Hf].
  - apply bind_Return in H as (uri & st_u & Hu & H).
    apply bind_Return in H as (sum & s1 & Hsum & H).
    apply store_Return in H as (c & Hc & ->).
    unfold checksum_SHA256 in Hsum.
    destruct (entry_target entry) as [data| |] eqn:Ht;
      apply bind_Return in Hsum as ([] & s2 & He & Hsum);
      unfold emit in He; injection He as <-;
      try discriminate.
    unfold ret in Hsum. injection Hsum as <- <-. cbn in Hc.
    exact (Fill_file sha256_hex entry _ _ uri st_u c data Hf Hu Ht Hc).
  - unfold ret in H. injection H as <-. apply Fill_symbolic.
    destruct (classify_tag entry) as [E|[E|E]]; congruence.
Qed.

Lemma walk_entry_sound n entry st st' :
  walk_entry sha256_hex (walk sha256_hex) n entry st = Return tt st' ->
  WalkEntry sha256_hex entry n st st'.
Proof.
  intros H.
  destruct (walk_entry_split _ _ _ _ _ _ H) as (nd & st1 & Hn & Hatt & Henr).
  pose proof (attach_Fill _ _ _ _ _ _ Hn Hatt) as HF.
  apply enroll_inv in Henr
    as (r & rd & c & nd1 & tr & tn & Hr & Hrd & Htr & Hmr & Hc & Hn1
        & Htn & Hmn & ->).
  eapply WalkEntry_intro; eauto.
Qed.

Lemma enroll_returns h0 m0 st n child :
  tree_inv h0 m0 st -> h0 <= n < length (heap st) ->
  child < length (heap st) ->
  exists st', enroll n child st = Return tt st'.
Proof.
  intros I Hn Hc.
  destruct (lookup_lt_is_Some_2 (heap st) n ltac:(lia)) as [nd Hnd].
  destruct (lookup_lt_is_Some_2 (heap st) child Hc) as [c Hcd].
  destruct (inv_root _ _ _ I) as (rd & Hrd & _ & Htr & _).
  destruct (tree_table _ _ _ _ _ I (proj1 Hn) Hnd) as (tn & Htn & Hb & _).
  eexists. eapply (enroll_step n child st h0 rd c nd m0 tn); eauto.
  - eapply inv_Root; eauto. lia.
  - apply lookup_lt_is_Some_2. apply (inv_m0 _ _ _ I).
  - apply lookup_lt_is_Some_2. lia.
Qed.

Variables h0 m0 : nat.

Lemma walk_entry_outcome entry n st :
  walk_good sha256_hex h0 m0 (entry_target entry) ->
  tree_inv h0 m0 st -> h0 <= n < length (heap st) ->
  scan_outcome (walk_entry sha256_hex (walk sha256_hex) n entry st)
  /\ (entry_readable entry = true -> getwd_works (world st) ->
      exists st', walk_entry sha256_hex (walk sha256_hex) n entry st
                  = Return tt st').
Proof.
  intros IH I Hn.
  destruct (lookup_lt_is_Some_2 (heap st) n ltac:(lia)) as [nd Hnd].
  rewrite (walk_entry_unfold _ _ _ _ _ Hnd).
  set (child := length (heap st)). set (st0 := created st n nd entry).
  pose proof (tree_inv_created _ _ _ _ _ entry I (proj1 Hn) Hnd) as I0.
  fold st0 in I0.
  assert (Hlen0 : length (heap st0) = S child).
  { unfold st0. cbn. rewrite length_app. cbn. unfold child. lia. }
  assert (Hc0 : heap st0 !! child
                = Some (fresh_node n nd (length (maps st)) entry)).
  { unfold st0, child. cbn. apply snoc_lookup_new. }
  (* once the branch has returned, the registration returns *)
  assert (Henr : forall st1,
            fill_body sha256_hex (walk sha256_hex) entry child st0
            = Return tt st1 ->
            exists st', enroll n child st1 = Return tt st').
  { intros st1 Hf. apply fill_body_Fill in Hf.
    destruct (construction_inv sha256_hex h0 m0) as (_ & _ & _ & IF).
    destruct (IF _ _ _ _ Hf I0 ltac:(unfold child; lia) ltac:(eauto))
      as [[I1 _] _].
    destruct construction_evolves with (sha256_hex := sha256_hex)
      as (_ & _ & _ & EvF).
    pose proof (ev_len _ _ _ (EvF _ _ _ _ Hf)) as L.
    apply (enroll_returns h0 m0); [exact I1 | lia | lia]. }
  (* the branch *)
  assert (Hbody :
            scan_outcome (fill_body sha256_hex (walk sha256_hex) entry
                                    child st0)
            /\ (entry_readable entry = true -> getwd_works (world st) ->
                exists st1, fill_body sha256_hex (walk sha256_hex) entry
                                      child st0 = Return tt st1)).
  { unfold fill_body, entry_readable.
    destruct (String.eqb (classify entry) Directory).
    { exact (IH child st0 I0 ltac:(unfold child in *; lia)). }
    destruct (String.eqb (classify entry) File); [|cbn; eauto].
    pose proof (URI_outcome child st0 _ Hc0) as HU.
    assert (HUr : getwd_works (world st) ->
                  exists uri st1, URI child st0 = Return uri st1).
    { intros Hw. apply (URI_returns child st0 _ Hc0). exact Hw. }
    destruct (URI child st0) as [uri su|p su] eqn:EU.
    - destruct (URI_evolves _ _ _ _ EU) as (Hh & _).
      rewrite (bind_step _ _ _ _ _ EU).
      destruct (entry_target entry) as [data|es|e]; cbn [checksum_SHA256].
      + assert (Hcs : heap (log su (ReqChecksum child uri) None) !! child
                      = Some (fresh_node n nd (length (maps st)) entry)).
        { cbn. rewrite Hh. exact Hc0. }
        unfold bind, emit, ret.
        rewrite (store_step _ _ _ _ Hcs). cbn. eauto.
      + unfold bind, emit, panic. cbn. split; [left; eauto | discriminate].
      + unfold bind, emit, panic. cbn. split; [left; eauto | discriminate].
    - rewrite (bind_panic _ _ _ _ _ EU). split; [exact HU|].
      intros _ Hw. destruct (HUr Hw) as (uri & st1 & [=]). }
  destruct Hbody as [Hout Hret].
  destruct (fill_body sha256_hex (walk sha256_hex) entry child st0)
    as [[] st1|p st1] eqn:EF.
  - destruct (Henr st1 eq_refl) as [st' E].
    unfold bind. rewrite EF, E. cbn. eauto.
  - unfold bind. rewrite EF. split; [exact Hout|].
    intros Hr Hw. destruct (Hret Hr Hw) as (s & [=]).
Qed.

Lemma walk_entries_outcome entries n :
  Forall (fun entry => walk_good sha256_hex h0 m0 (entry_target entry))
         entries ->
  forall st,
    tree_inv h0 m0 st -> h0 <= n < length (heap st) ->
    scan_outcome (walk_entries sha256_hex (walk sha256_hex) n entries st)
    /\ (forallb entry_readable entries = true -> getwd_works (world st) ->
        exists st', walk_entries sha256_hex (walk sha256_hex) n entries st
                    = Return tt st').
Proof.
  induction 1 as [|entry rest Hentry _ IH]; intros st I Hn.
  - cbn. eauto.
  - cbn [walk_entries forallb].
    destruct (walk_entry_outcome entry n st Hentry I Hn) as [Hout Hret].
    destruct (walk_entry sha256_hex (walk sha256_hex) n entry st)
      as [[] st1|p st1] eqn:E.
    + rewrite (bind_step _ _ _ _ _ E).
      pose proof (walk_entry_sound _ _ _ _ E) as HE.
      destruct (construction_inv sha256_hex h0 m0) as (_ & _ & IE & _).
      destruct (IE _ _ _ _ HE I Hn) as [I1 _].
      destruct construction_evolves with (sha256_hex := sha256_hex)
        as (_ & _ & EvE & _).
      pose proof (EvE _ _ _ _ HE) as Ev.
      pose proof (ev_len _ _ _ Ev) as L.
      destruct (IH st1 I1 ltac:(lia)) as [Hout' Hret'].
      split; [exact Hout'|]. intros Hr Hw.
      apply andb_true_iff in Hr as [_ Hr]. apply Hret'; [exact Hr|].
      unfold getwd_works. rewrite (ev_world _ _ _ Ev). exact Hw.
    + rewrite (bind_panic _ _ _ _ _ E). split; [exact Hout|].
      intros Hr Hw. apply andb_true_iff in Hr as [Hr _].
      destruct (Hret Hr Hw) as (s & [=]).
Qed.

Lemma walk_outcome disk : walk_good sha256_hex h0 m0 disk.
Proof.
  induction disk as [data|entries IH|e] using FsObj_nested_ind;
    intros n st I Hn;
    destruct (lookup_lt_is_Some_2 (heap st) n ltac:(lia)) as [nd Hnd];
    cbn [walk]; rewrite (bind_step _ _ _ _ _ (deref_step _ _ _ Hnd)).
  - cbn. eauto.
  - rewrite readable_Folder.
    exact (walk_entries_outcome entries n IH
             (log st (ReqReadDir (Path nd)) None)
             (tree_inv_log _ _ _ _ _ I) Hn).
  - cbn. eauto.
Qed.

End Outcomes.

Section NewOutcomes.

Variable sha256_hex : list byte -> string.

Lemma construction_readable :
  (forall disk n st st',
      Walk sha256_hex disk n st st' -> readable disk = true)
  /\ (forall entries n st st',
        WalkEntries sha256_hex entries n st st' ->
        forallb entry_readable entries = true)
  /\ (forall entry n st st',
        WalkEntry sha256_hex entry n st st' -> entry_readable entry = true)
  /\ (forall entry child st st',
        Fill sha256_hex entry child st st' -> entry_readable entry = true).
Proof.
  apply (Walk_mutind sha256_hex
           (fun disk _ _ _ => readable disk = true)
           (fun entries _ _ _ => forallb entry_readable entries = true)
           (fun entry _ _ _ => entry_readable entry = true)
           (fun entry _ _ _ => entry_readable entry = true)).
  - intros entries n nd st st' _ _ IH. rewrite readable_Folder. exact IH.
  - intros disk n nd e st _ He. destruct disk; [reflexivity | discriminate
                                                | reflexivity].
  - reflexivity.
  - intros entry rest n st st1 st' _ IH1 _ IH2. cbn [forallb].
    rewrite IH1, IH2. reflexivity.
  - intros entry n nd st st1 r rd c nd1 tr tn _ _ IH _ _ _ _ _ _ _ _.
    exact IH.
  - intros entry child st st1 Hcl _ IH. unfold entry_readable.
    rewrite Hcl. change (String.eqb Directory Directory) with true.
    exact IH.
  - intros entry child st uri st1 c data Hcl _ Ht _. unfold entry_readable.
    rewrite Hcl, Ht. reflexivity.
  - intros entry child st Hcl. unfold entry_readable. rewrite Hcl.
    reflexivity.
Qed.

Lemma Stat_total path st :
  exists r st0, os_Stat path st = Return r st0.
Proof.
  unfold os_Stat.
  destruct (oscall_cases (A:=FileInfo) (ReqStat path)
    (fun w => if String.eqb path "" then inl ENOENT
       else match locate (files w) [] (resolve w path) with
            | inl e => inl e
            | inr o => inr (mkFileInfo (basename path) (f_mode o), files w)
            end) st)
    as [(f & _ & E) | [(e & _ & _ & E) | (a & fs & _ & _ & E)]]; eauto.
Qed.

Lemma New_unfold path disk st fi st0 :
  os_Stat path st = Return (inr fi) st0 ->
  Mode_IsDir (fi_Mode fi) = true ->
  New sha256_hex path disk st
  = bind (walk sha256_hex disk (length (heap st0)))
         (fun _ => ret (length (heap st0))) (planted st0 path fi).
Proof.
  intros Hs Hd. unfold New. rewrite (bind_step _ _ _ _ _ Hs). cbn beta iota.
  rewrite Hd. reflexivity.
Qed.

(** [New] starts the scan only if [os.Stat] of the path succeeds and
    reports a directory: otherwise it panics with the invalid-directory
    exception, and has done nothing but the one call.  Once the scan has
    started, [New] returns, or it panics with the error of a digest
    computation or with the message of [URI]: it never panics with the
    invalid-directory exception, and never dereferences a nil node or
    writes to a nil map. *)
Theorem New_panics_only_for_cause path disk st :
  exists r st0,
    os_Stat path st = Return r st0
    /\ heap st0 = heap st /\ maps st0 = maps st /\ world st0 = world st
    /\ match r with
       | inl _ =>
           New sha256_hex path disk st
           = Panicked (PanicException ExceptionInvalidDirectory) st0
       | inr fi =>
           if Mode_IsDir (fi_Mode fi)
           then scan_outcome (New sha256_hex path disk st)
           else New sha256_hex path disk st
                = Panicked (PanicException ExceptionInvalidDirectory) st0
       end.
Proof.
  destruct (Stat_total path st) as (r & st0 & Hs). exists r, st0.
  destruct (Stat_Return _ _ _ _ Hs) as (Hh & Hm & Hw & _).
  split; [exact Hs|]. split; [exact Hh|]. split; [exact Hm|].
  split; [exact Hw|].
  destruct r as [e|fi].
  - unfold New. rewrite (bind_step _ _ _ _ _ Hs). reflexivity.
  - destruct (Mode_IsDir (fi_Mode fi)) eqn:Hd.
    + rewrite (New_unfold _ _ _ _ _ Hs Hd).
      destruct (walk_outcome sha256_hex (length (heap st0))
                  (length (maps st0)) disk (length (heap st0))
                  (planted st0 path fi) (tree_inv_planted st0 path fi))
        as [Hout _].
      { cbn. rewrite length_app. cbn. lia. }
      unfold bind.
      destruct (walk sha256_hex disk (length (heap st0))
                     (planted st0 path fi)); [exact I | exact Hout].
    + unfold New. rewrite (bind_step _ _ _ _ _ Hs). cbn beta iota.
      rewrite Hd. reflexivity.
Qed.

(** Where the path is a directory and [os.Getwd] works, [New] returns a
    tree exactly if every file of the hierarchy can be read: a file
    whose digest cannot be computed makes [New] panic, wherever it lies,
    while a directory that cannot be listed does not. *)
Theorem New_returns_iff_readable path disk st fi st0 :
  os_Stat path st = Return (inr fi) st0 ->
  Mode_IsDir (fi_Mode fi) = true ->
  getwd_works (world st) ->
  readable disk = true
  <-> exists root st', New sha256_hex path disk st = Return root st'.
Proof.
  intros Hs Hd Hw. split.
  - intros Hr. rewrite (New_unfold _ _ _ _ _ Hs Hd).
    destruct (Stat_Return _ _ _ _ Hs) as (_ & _ & Hw0 & _).
    destruct (walk_outcome sha256_hex (length (heap st0))
                (length (maps st0)) disk (length (heap st0))
                (planted st0 path fi) (tree_inv_planted st0 path fi))
      as [_ Hret].
    { cbn. rewrite length_app. cbn. lia. }
    destruct (Hret Hr) as [st' E].
    { unfold getwd_works. cbn. rewrite Hw0. exact Hw. }
    exists (length (heap st0)), st'. unfold bind. rewrite E. reflexivity.
  - intros (root & st' & H).
    apply New_inv in H as (fi' & st0' & _ & _ & _ & HW).
    destruct construction_readable as (RW & _). eapply RW; eauto.
Qed.

End NewOutcomes.

(* ===================================================================== *)
(** * The directory of a path *)
(* ===================================================================== *)

Section Directories.

Import filepath.

Lemma upto_last_sep_name nm : has_sep nm = false -> upto_last_sep nm = "".
Proof.
  induction nm as [|c nm IH]; [reflexivity|]. cbn.
  destruct (is_sep c); [discriminate|]. cbn. intros H. rewrite (IH H).
  reflexivity.
Qed.

Lemma upto_last_sep_snoc s nm :
  has_sep nm = false -> upto_last_sep (s +:+ "/" +:+ nm) = s +:+ "/".
Proof.
  intros H. change ("/" +:+ nm) with (String "/"%char nm).
  induction s as [|c s IH].
  - change (upto_last_sep ("" +:+ String "/"%char nm))
      with (String "/"%char (upto_last_sep nm)).
    rewrite (upto_last_sep_name _ H). reflexivity.
  - change (String c s +:+ String "/"%char nm)
      with (String c (s +:+ String "/"%char nm)).
    cbn [upto_last_sep]. rewrite IH.
    destruct (is_sep c); [reflexivity|].
    destruct s; reflexivity.
Qed.

Lemma sapp_assoc (a b c : string) : (a +:+ b) +:+ c = a +:+ (b +:+ c).
Proof.
  induction a as [|x a IH]; [reflexivity|].
  change (String x ((a +:+ b) +:+ c) = String x (a +:+ (b +:+ c))).
  rewrite IH. reflexivity.
Qed.

Lemma join_sep_snoc e es nm :
  join_sep ((e :: es) ++ [nm]) = join_sep (e :: es) +:+ "/" +:+ nm.
Proof.
  revert e. induction es as [|e2 es IH]; intros e; [reflexivity|].
  change (join_sep ((e :: e2 :: es) ++ [nm]))
    with (e +:+ "/" +:+ join_sep ((e2 :: es) ++ [nm])).
  rewrite IH.
  change (join_sep (e :: e2 :: es)) with (e +:+ "/" +:+ join_sep (e2 :: es)).
  rewrite !sapp_assoc. reflexivity.
Qed.

Lemma Clean_render p : Clean p = render (IsAbs p) (norm p).
Proof.
  unfold Clean. destruct (String.eqb_spec p "") as [->|]; reflexivity.
Qed.

Lemma norm_trailing_sep p : p <> "" -> norm (p +:+ "/") = norm p.
Proof.
  intros Hne. unfold norm. rewrite IsAbs_app by exact Hne.
  change (p +:+ "/") with (p +:+ "/" +:+ "").
  rewrite elements_app, fold_left_app. reflexivity.
Qed.

Lemma Clean_trailing_sep p : p <> "" -> Clean (p +:+ "/") = Clean p.
Proof.
  intros Hne. rewrite !Clean_render, norm_trailing_sep by exact Hne.
  rewrite IsAbs_app by exact Hne. reflexivity.
Qed.

Lemma Clean_canon b stk :
  canon b stk -> Clean (render b (reverse stk)) = render b (reverse stk).
Proof.
  intros Hc. rewrite Clean_render.
  destruct (norm_render b stk Hc) as [-> ->]. reflexivity.
Qed.

Lemma canon_head b stk e es :
  canon b stk -> reverse stk = e :: es -> e <> "".
Proof.
  intros (re & k & -> & Hre & _) E.
  rewrite reverse_app, reverse_replicate in E.
  destruct k as [|k]; cbn in E.
  - assert (Hin : e ∈ reverse re) by (rewrite E; left).
    rewrite elem_of_reverse in Hin. rewrite Forall_forall in Hre.
    apply Hre, valid_name_inv in Hin. tauto.
  - injection E as <- _. discriminate.
Qed.

Lemma join_sep_nonempty e es : e <> "" -> join_sep (e :: es) <> "".
Proof.
  intros He. destruct e as [|c e]; [contradiction|].
  destruct es; discriminate.
Qed.

(** The directory of the path of a child is the cleaned path of its
    parent. *)
Lemma Dir_Join p nm :
  valid_name nm = true -> Dir (Join p nm) = Clean p.
Proof.
  intros Hv. pose proof (valid_name_inv _ Hv) as (Hn1 & _ & _ & Hn4).
  assert (Hnm : IsAbs nm = false).
  { destruct nm as [|c nm]; [reflexivity|]. cbn in Hn4.
    apply orb_false_iff in Hn4 as [Hc _]. exact Hc. }
  assert (HJ : Join p nm = render (IsAbs (Join p nm)) (norm p ++ [nm])).
  { rewrite <- (norm_Join p nm Hv). unfold Join.
    destruct (String.eqb_spec p "") as [->|Hne]; cbn [negb].
    - destruct (String.eqb_spec nm ""); [contradiction|]. cbn [negb].
      rewrite norm_Clean. rewrite Clean_render at 1.
      destruct (norm_render _ _ (norm_canon nm)) as [_ E].
      fold (norm nm) in E. rewrite <- Clean_render in E. rewrite E.
      reflexivity.
    - rewrite norm_Clean. rewrite Clean_render at 1.
      destruct (norm_render _ _ (norm_canon (p +:+ "/" +:+ nm))) as [_ E].
      fold (norm (p +:+ "/" +:+ nm)) in E. rewrite <- Clean_render in E.
      rewrite E. reflexivity. }
  assert (Habs : IsAbs (Join p nm) = IsAbs p).
  { unfold Join. destruct (String.eqb_spec p "") as [->|Hne]; cbn [negb].
    - destruct (String.eqb_spec nm ""); [contradiction|]. cbn [negb].
      destruct (norm_render _ _ (norm_canon nm)) as [_ E].
      fold (norm nm) in E. rewrite <- Clean_render in E. rewrite E.
      exact Hnm.
    - destruct (norm_render _ _ (norm_canon (p +:+ "/" +:+ nm))) as [_ E].
      fold (norm (p +:+ "/" +:+ nm)) in E. rewrite <- Clean_render in E.
      rewrite E. apply IsAbs_app. exact Hne. }
  rewrite Habs in HJ. rewrite HJ, Clean_render.
  pose proof (norm_canon p) as Hc.
  set (stk := fold_left (clean_step (IsAbs p)) (elements p) []) in *.
  change (norm p) with (reverse stk).
  unfold Dir.
  destruct (reverse stk) as [|e es] eqn:E.
  - (* the parent is the root or the current directory *)
    destruct (IsAbs p); cbn [app render join_sep].
    + pose proof (upto_last_sep_snoc "" nm Hn4) as U.
      change (upto_last_sep ("/" +:+ nm) = "/") in U.
      rewrite U. reflexivity.
    + rewrite upto_last_sep_name by exact Hn4. reflexivity.
  - pose proof (canon_head _ _ _ _ Hc E) as He.
    pose proof (join_sep_nonempty e es He) as Hj.
    assert (Hcl : Clean (render (IsAbs p) (e :: es))
                  = render (IsAbs p) (e :: es)).
    { rewrite <- E. apply Clean_canon. exact Hc. }
    destruct (IsAbs p); unfold render in *.
    + rewrite join_sep_snoc.
      change ("/" +:+ (join_sep (e :: es) +:+ "/" +:+ nm))
        with (("/" +:+ join_sep (e :: es)) +:+ "/" +:+ nm).
      rewrite upto_last_sep_snoc by exact Hn4.
      rewrite Clean_trailing_sep by discriminate. exact Hcl.
    + change ((e :: es) ++ [nm]) with (e :: (es ++ [nm])). cbn iota.
      change (e :: (es ++ [nm])) with ((e :: es) ++ [nm]).
      rewrite join_sep_snoc.
      rewrite upto_last_sep_snoc by exact Hn4.
      rewrite Clean_trailing_sep by exact Hj. exact Hcl.
Qed.

(** The name that [os.Stat] reports has no directory part. *)
Lemma Dir_basename p :
  Dir (basename p) = "." \/ (basename p = "/" /\ Dir (basename p) = "/").
Proof.
  unfold basename.
  set (s := string_of_list_ascii
              (reverse (drop_seps (reverse (list_ascii_of_string p))))).
  destruct (String.eqb_spec s "/") as [->|Hne].
  - right. split; reflexivity.
  - left. pose proof (elements_sep_free s) as Hs.
    pose proof (elements_nonempty s) as Hn.
    assert (Hl : has_sep (List.last (elements s) "") = false).
    { rewrite Forall_forall in Hs. apply Hs.
      apply list_elem_of_In. apply exists_last in Hn as (l & x & ->).
      rewrite last_last. apply in_or_app. right. left. reflexivity. }
    unfold Dir. rewrite upto_last_sep_name by exact Hl. reflexivity.
Qed.

End Directories.

(* ===================================================================== *)
(** * The fields of a node *)
(* ===================================================================== *)

Lemma Stat_name path st fi st0 :
  os_Stat path st = Return (inr fi) st0 -> fi_Name fi = basename path.
Proof.
  intros H. unfold os_Stat in H.
  destruct (oscall_cases (A:=FileInfo) (ReqStat path)
    (fun w => if String.eqb path "" then inl ENOENT
       else match locate (files w) [] (resolve w path) with
            | inl e => inl e
            | inr o => inr (mkFileInfo (basename path) (f_mode o), files w)
            end) st)
    as [(f & _ & E) | [(e & _ & _ & E) | (a & fs & _ & Hsem & E)]];
    rewrite E in H; [discriminate | discriminate |].
  injection H as <- _.
  destruct (String.eqb path ""); [discriminate|].
  destruct (locate _ _ _); [discriminate|].
  injection Hsem as <- _. reflexivity.
Qed.

Lemma node_kept_names nd nd' :
  node_kept nd nd' ->
  Dirname nd' = Dirname nd /\ Name nd' = Name nd /\ Path nd' = Path nd.
Proof. intros (l & ck & ->). repeat split. Qed.

Section Fields.

Variable sha256_hex : list byte -> string.

Lemma named_old n st st' a x :
  evolves n st st' -> heap st !! a = Some x ->
  exists x', heap st' !! a = Some x' /\ Dirname x' = Dirname x
             /\ Name x' = Name x /\ Path x' = Path x.
Proof.
  intros Ev H. destruct (decide (a = n)) as [->|Hne].
  - destruct (ev_at _ _ _ Ev _ H) as (x' & H' & Hk).
    exists x'. split; [exact H' | apply node_kept_names; exact Hk].
  - exists x. split; [|auto].
    rewrite (ev_old _ _ _ Ev); auto. eapply lookup_lt_Some; eauto.
Qed.

Lemma construction_named :
  (forall disk n st st',
      Walk sha256_hex disk n st st' -> names_ok disk = true ->
      n < length (heap st) -> named st st')
  /\ (forall entries n st st',
        WalkEntries sha256_hex entries n st st' ->
        entries_names_ok entries = true ->
        n < length (heap st) -> named st st')
  /\ (forall entry n st st',
        WalkEntry sha256_hex entry n st st' ->
        entry_names_ok entry = true ->
        n < length (heap st) -> named st st')
  /\ (forall entry child st st',
        Fill sha256_hex entry child st st' ->
        entry_names_ok entry = true ->
        child < length (heap st) -> named st st').
Proof.
  destruct construction_evolves with (sha256_hex := sha256_hex)
    as (EvW & EvEs & EvE & EvF).
  apply (Walk_mutind sha256_hex
    (fun disk n st st' =>
       names_ok disk = true -> n < length (heap st) -> named st st')
    (fun entries n st st' =>
       entries_names_ok entries = true -> n < length (heap st) ->
       named st st')
    (fun entry n st st' =>
       entry_names_ok entry = true -> n < length (heap st) -> named st st')
    (fun entry child st st' =>
       entry_names_ok entry = true -> child < length (heap st) ->
       named st st')); unfold named.
  - (* folder *)
    intros entries n nd st st' Hn _ IH Hok Hlt a x Ha Hx.
    rewrite names_ok_Folder in Hok. eapply IH; eauto.
  - (* listing error *)
    intros disk n nd e st Hn _ Hok Hlt a x Ha Hx. cbn in Hx.
    apply lookup_lt_Some in Hx. lia.
  - intros n st Hok Hlt a x Ha Hx. apply lookup_lt_Some in Hx. lia.
  - (* entries *)
    intros entry rest n st st1 st' HE IH1 HEs IH2 Hok Hlt a x Ha Hx.
    cbn [entries_names_ok] in Hok. apply andb_true_iff in Hok as [Ho1 Ho2].
    pose proof (EvE _ _ _ _ HE) as Ev1.
    pose proof (EvEs _ _ _ _ HEs) as Ev2.
    pose proof (ev_len _ _ _ Ev1) as L1.
    destruct (decide (a < length (heap st1))) as [Hlt1|Hge].
    + assert (Hx1 : heap st1 !! a = Some x).
      { rewrite <- (ev_old _ _ _ Ev2); auto. lia. }
      exact (IH1 Ho1 Hlt a x Ha Hx1).
    + exact (IH2 Ho2 ltac:(lia) a x ltac:(lia) Hx).
  - (* one entry *)
    intros entry n nd st st1 r rd c nd1 tr tn Hn HF IHfill Hr Hrd Htr Hmr Hc
           Hn1 Htn Hmn Hok Hlt a x Ha Hx.
    pose proof (EvF _ _ _ _ HF) as Ev.
    assert (Hchild0 : heap (created st n nd entry) !! length (heap st)
                      = Some (fresh_node n nd (length (maps st)) entry)).
    { cbn. apply snoc_lookup_new. }
    assert (Hlen0 : length (heap (created st n nd entry))
                    = S (length (heap st))).
    { cbn. rewrite length_app. cbn. lia. }
    specialize (IHfill Hok ltac:(lia)).
    assert (Hvalid : filepath.valid_name (entry_Name entry) = true).
    { unfold entry_names_ok in Hok. apply andb_true_iff in Hok. tauto. }
    cbn in Hx.
    rewrite list_lookup_insert_ne in Hx by lia.
    destruct (decide (a = length (heap st))) as [->|Hna].
    + destruct (named_old _ _ _ _ _ Ev Hchild0) as (c' & Hc' & Hd & Hnm & Hp).
      assert (x = c') as -> by congruence. rewrite Hd, Hnm, Hp. cbn.
      split; [reflexivity | exact Hvalid].
    + apply (IHfill a x); [lia | exact Hx].
  - (* directory *)
    intros entry child st st1 Hcl HW IH Hok Hlt a x Ha Hx.
    unfold entry_names_ok in Hok. rewrite Hcl in Hok.
    change (String.eqb Directory Directory) with true in Hok.
    apply andb_true_iff in Hok as [_ Hok]. eapply IH; eauto.
  - (* file *)
    intros entry child st uri st1 c data Hcl Hu Ht Hc Hok Hlt a x Ha Hx.
    destruct (URI_evolves child st uri st1 Hu) as (Hh & _).
    cbn in Hx. apply lookup_lt_Some in Hx.
    rewrite length_insert, Hh in Hx. lia.
  - intros entry child st Hcl Hok Hlt a x Ha Hx.
    apply lookup_lt_Some in Hx. lia.
Qed.

(** The root of a tree built by [New] has the path it was given, the
    base name of that path as its name, no parent and depth 0.  Its
    directory name is computed from the base name, not from the path: it
    is [.] whatever directory the root lies in (and [/] when the base
    name is [/]). *)
Theorem root_fields path disk st root st' :
  New sha256_hex path disk st = Return root st' ->
  exists rd,
    heap st' !! root = Some rd
    /\ Path rd = path /\ Name rd = basename path
    /\ Dirname rd = filepath.Dir (basename path)
    /\ (Dirname rd = "." \/ (Name rd = "/" /\ Dirname rd = "/"))
    /\ parent rd = None /\ depth rd = 0%Z /\ Type_ rd = Directory
    /\ Checksum rd = None /\ content rd = None.
Proof.
  intros H. apply New_inv in H as (fi & st0 & Hs & Hd & -> & HW).
  destruct (Stat_Return _ _ _ _ Hs) as (Hh & _).
  pose proof (Stat_name _ _ _ _ Hs) as Hname.
  destruct construction_evolves with (sha256_hex := sha256_hex)
    as (EvW & _).
  assert (Hroot : heap (planted st0 path fi) !! length (heap st)
                  = Some (root_node path fi (length (maps st0)))).
  { cbn. rewrite <- Hh. apply snoc_lookup_new. }
  destruct (ev_at _ _ _ (EvW _ _ _ _ HW) _ Hroot) as (rd & Hrd & l & ck & E).
  exists rd. split; [exact Hrd|]. subst rd. cbn.
  rewrite Hname. repeat split; auto.
  - destruct (Dir_basename path) as [->|[-> ->]]; auto.
  - destruct (construction_inv sha256_hex (length (heap st))
                (length (maps st))) as (IW & _).
    destruct (Stat_Return _ _ _ _ Hs) as (_ & Hm & _).
    pose proof (tree_inv_planted st0 path fi) as I0. rewrite Hh, Hm in I0.
    destruct (IW _ _ _ _ HW I0) as [I _].
    { cbn. rewrite length_app, Hh. cbn. lia. }
    destruct (inv_root _ _ _ I) as (rd' & Hrd' & _ & _ & _ & _ & Hck).
    rewrite Hrd in Hrd'. injection Hrd' as <-. exact Hck.
Qed.

(** Every other node of a tree built by [New] over entries with the
    names that a directory listing reports has the name of its entry,
    the path of its parent joined with that name as its path, and the
    cleaned path of its parent as its directory name. *)
Theorem child_fields path disk st root st' :
  New sha256_hex path disk st = Return root st' ->
  names_ok disk = true ->
  forall a nd, root < a -> heap st' !! a = Some nd ->
    exists p pd,
      parent nd = Some p /\ heap st' !! p = Some pd
      /\ filepath.valid_name (Name nd) = true
      /\ Path nd = filepath.Join (Path pd) (Name nd)
      /\ Dirname nd = filepath.Clean (Path pd).
Proof.
  intros H Hok a nd Ha Hnd.
  pose proof (New_tree sha256_hex _ _ _ _ _ H) as (-> & I & _).
  apply New_inv in H as (fi & st0 & Hs & Hd & _ & HW).
  destruct (Stat_Return _ _ _ _ Hs) as (Hh & _).
  destruct construction_named as (NW & _).
  assert (Hlen : length (heap (planted st0 path fi)) = S (length (heap st))).
  { cbn. rewrite length_app, Hh. cbn. lia. }
  destruct (NW _ _ _ _ HW Hok ltac:(lia) a nd ltac:(lia) Hnd) as [Hdir Hv].
  destruct (inv_node _ _ _ I a nd Ha Hnd)
    as (p & pd & t & Hp & Hlt & Hpd & _ & _ & _ & Hpath & _).
  exists p, pd. repeat split; auto.
  rewrite Hdir, Hpath. apply Dir_Join. exact Hv.
Qed.

End Fields.

(* ===================================================================== *)
(** * What [Replicate] leaves as it is *)
(* ===================================================================== *)

Lemma modes_kept_refl fs : modes_kept fs fs.
Proof. intros p o H. exists o. auto. Qed.

Lemma modes_kept_trans fs1 fs2 fs3 :
  modes_kept fs1 fs2 -> modes_kept fs2 fs3 -> modes_kept fs1 fs3.
Proof.
  intros H1 H2 p o Ho.
  destruct (H1 p o Ho) as (o' & Ho' & Hm' & Hd').
  destruct (H2 p o' Ho') as (o'' & Ho'' & Hm'' & Hd'').
  exists o''. split; [exact Ho''|]. split; [congruence|].
  intros Hd. specialize (Hd' Hd). subst o'. auto.
Qed.

Lemma subseteq_modes_kept (fs fs' : gmap (list string) fobj) :
  fs ⊆ fs' -> modes_kept fs fs'.
Proof.
  intros H p o Ho. exists o. split; [|auto].
  eapply lookup_weaken; eauto.
Qed.

Lemma write_file_modes w p data perm fs' :
  write_file w p data perm = inr fs' -> modes_kept (files w) fs'.
Proof.
  unfold write_file. intros H.
  destruct (locate (files w) [] (removelast p)) as [e|d]; [discriminate|].
  destruct (negb (is_dir d)); [discriminate|].
  destruct (files w !! p) as [o|] eqn:E.
  - destruct (is_dir o) eqn:Hd; [discriminate|]. injection H as <-.
    intros q x Hq. destruct (decide (q = p)) as [->|Hne].
    + assert (x = o) as -> by congruence.
      exists (mkfobj (f_mode o) data). rewrite lookup_insert_eq.
      split; [reflexivity|]. split; [reflexivity|]. congruence.
    + exists x. rewrite lookup_insert_ne by auto. auto.
  - injection H as <-. apply subseteq_modes_kept, insert_subseteq. exact E.
Qed.

Lemma keeps_modes_bind {A B} (m : M A) (k : A -> M B) :
  keeps_modes m -> (forall a, keeps_modes (k a)) -> keeps_modes (bind m k).
Proof.
  intros Hm Hk st. apply bind_final.
  - intros p st1 E. specialize (Hm st). rewrite E in Hm. exact Hm.
  - intros a st1 E. specialize (Hm st). rewrite E in Hm. cbn in Hm.
    eapply modes_kept_trans; [exact Hm | apply Hk].
Qed.

Lemma keeps_files_modes {A} (m : M A) : keeps_files m -> keeps_modes m.
Proof. intros H st. apply subseteq_modes_kept, H. Qed.

Lemma keeps_modes_for_each {A} (l : list A) body :
  (forall x, keeps_modes (body x)) -> keeps_modes (for_each l body).
Proof.
  intros H. induction l as [|x l IH].
  - apply keeps_files_modes, same_world_keeps, same_world_ret.
  - apply keeps_modes_bind; [apply H | intros _; exact IH].
Qed.

Lemma keeps_modes_WriteFile p data perm :
  keeps_modes (os_WriteFile p data perm).
Proof.
  intros st. unfold os_WriteFile.
  destruct (oscall_cases (A:=unit) (ReqWriteFile p data perm)
    (fun w => if String.eqb p "" then inl ENOENT
       else match write_file w (resolve w p) data perm with
            | inl e => inl e
            | inr fs => inr (tt, fs)
            end) st)
    as [(f & _ & ->) | [(e & _ & _ & ->) | (a & fs & _ & Hs & ->)]];
    cbn; try apply modes_kept_refl.
  destruct (String.eqb p ""); [discriminate|].
  destruct (write_file (world st) (resolve (world st) p) data perm)
    as [e|fs'] eqn:E; [discriminate|].
  injection Hs as _ <-. eapply write_file_modes; eauto.
Qed.

Lemma keeps_modes_write_target target file :
  keeps_modes (write_target target file).
Proof.
  apply keeps_modes_bind;
    [apply keeps_files_modes, same_world_keeps, same_world_Contents|].
  intros [contents [e|]].
  { apply keeps_files_modes, same_world_keeps, same_world_panic. }
  apply keeps_modes_bind;
    [apply keeps_files_modes, same_world_keeps, same_world_Permissions|].
  intros perm. apply keeps_modes_bind; [apply keeps_modes_WriteFile|].
  intros [e|[]]; apply keeps_files_modes, same_world_keeps;
    [apply same_world_panic | apply same_world_ret].
Qed.

Section ReplicateFrame.

Variable range_order : list (string * addr) -> list (string * addr).

(** [Replicate] removes nothing and changes no permissions: whether it
    returns or panics, every object that the file system holds when it
    is called is still there with the same mode, and a directory is as
    it was.  Only the content of an existing file can change. *)
Theorem Replicate_keeps_modes (n : addr) (destination : string)
        (st : State) (p : list string) (o : fobj) :
  files (world st) !! p = Some o ->
  exists o',
    files (world (final (Replicate range_order n destination st))) !! p
    = Some o'
    /\ f_mode o' = f_mode o /\ (is_dir o = true -> o' = o).
Proof.
  revert p o.
  change (modes_kept (files (world st))
            (files (world (final (Replicate range_order n destination st))))).
  revert st. change (keeps_modes (Replicate range_order n destination)).
  unfold Replicate.
  apply keeps_modes_bind;
    [apply keeps_files_modes, same_world_keeps, same_world_Directories|].
  intros dirs.
  apply keeps_modes_bind;
    [apply keeps_files_modes, same_world_keeps, same_world_Files|].
  intros fls. apply keeps_modes_bind.
  { apply keeps_files_modes, keeps_files_for_each.
    apply keeps_files_mirror_directory. }
  intros _. apply keeps_modes_for_each. intros file.
  apply keeps_modes_bind;
    [apply keeps_files_modes, same_world_keeps, same_world_deref|].
  intros f. apply keeps_modes_write_target.
Qed.

End ReplicateFrame.

(* ===================================================================== *)
(** * What [Replicate] writes *)
(* ===================================================================== *)

Lemma caches_grow_refl st : caches_grow st st.
Proof. split; [reflexivity|]. intros a x H. exists x. auto. Qed.

Lemma caches_grow_trans st1 st2 st3 :
  caches_grow st1 st2 -> caches_grow st2 st3 -> caches_grow st1 st3.
Proof.
  intros [C1 H1] [C2 H2]. split; [congruence|].
  intros a x Hx. destruct (H1 a x Hx) as (x' & Hx' & Hp' & Ht' & Hc').
  destruct (H2 a x' Hx') as (x'' & Hx'' & Hp'' & Ht'' & Hc'').
  exists x''. split; [exact Hx''|]. split; [congruence|].
  split; [congruence | auto].
Qed.

Lemma caches_grow_same st st' :
  heap st' = heap st -> cwd (world st') = cwd (world st) ->
  caches_grow st st'.
Proof.
  intros Hh Hc. split; [exact Hc|]. intros a x H. exists x.
  rewrite Hh. auto.
Qed.

Lemma resolve_cwd w w' p : cwd w' = cwd w -> resolve w' p = resolve w p.
Proof. intros H. unfold resolve. rewrite H. reflexivity. Qed.

Lemma perm_not_dir perm mask :
  Mode_IsDir (Z.land (Mode_Perm perm) (Z.lnot mask)) = false.
Proof.
  unfold Mode_IsDir, Mode_Perm.
  assert (E : Z.land (Z.land (Z.land perm ModePerm) (Z.lnot mask)) ModeDir
              = 0%Z).
  { rewrite <- !Z.land_assoc.
    rewrite (Z.land_comm (Z.lnot mask) ModeDir), (Z.land_assoc ModePerm).
    change (Z.land ModePerm ModeDir) with 0%Z.
    rewrite Z.land_0_l. apply Z.land_0_r. }
  rewrite E. reflexivity.
Qed.

(** A successful [WriteFile] leaves a regular file with the data at the
    path, and every other object as it is. *)
Lemma write_file_inv w p data perm fs' :
  write_file w p data perm = inr fs' ->
  exists o, fs' = <[p := o]> (files w) /\ f_data o = data
            /\ is_dir o = false.
Proof.
  unfold write_file. intros H.
  destruct (locate (files w) [] (removelast p)) as [e|d]; [discriminate|].
  destruct (negb (is_dir d)); [discriminate|].
  destruct (files w !! p) as [o|] eqn:E.
  - destruct (is_dir o) eqn:Hd; [discriminate|]. injection H as <-.
    exists (mkfobj (f_mode o) data). repeat split. exact Hd.
  - injection H as <-. exists (new_file w perm data). repeat split.
    apply perm_not_dir.
Qed.

Lemma WriteFile_inv target data perm st st' :
  os_WriteFile target data perm st = Return (inr tt) st' ->
  heap st' = heap st /\ cwd (world st') = cwd (world st)
  /\ exists o,
       files (world st')
       = <[resolve (world st) target := o]> (files (world st))
       /\ f_data o = data /\ is_dir o = false.
Proof.
  intros H. unfold os_WriteFile in H.
  destruct (oscall_cases (A:=unit) (ReqWriteFile target data perm)
    (fun w => if String.eqb target "" then inl ENOENT
       else match write_file w (resolve w target) data perm with
            | inl e => inl e
            | inr fs => inr (tt, fs)
            end) st)
    as [(f & _ & E) | [(e & _ & _ & E) | (a & fs & _ & Hs & E)]];
    rewrite E in H; [discriminate | discriminate |].
  injection H as _ <-. cbn.
  destruct (String.eqb target ""); [discriminate|].
  destruct (write_file (world st) (resolve (world st) target) data perm)
    as [e|fs'] eqn:Ew; [discriminate|].
  injection Hs as _ <-. split; [reflexivity|]. split; [reflexivity|].
  eapply write_file_inv; eauto.
Qed.

Lemma Permissions_inv a st perm st' :
  Permissions a st = Return perm st' ->
  heap st' = heap st /\ world st' = world st.
Proof.
  intros H. pose proof (same_world_Permissions a st) as Hw.
  rewrite H in Hw. cbn in Hw. split; [|exact Hw].
  unfold Permissions in H.
  apply bind_Return in H as (nd & s1 & Hnd & H).
  apply deref_Return in Hnd as [Hnd ->].
  apply bind_Return in H as (info & s1 & Hs & H).
  destruct info as [e|fi]; [discriminate|]. injection H as _ <-.
  apply Stat_Return in Hs. tauto.
Qed.

(** What a call of [Contents] that returns bytes has done. *)
Lemma Contents_inv a st c st' :
  Contents (Some a) st = Return (c, None) st' ->
  exists nd nd' d,
    heap st !! a = Some nd /\ Type_ nd = File
    /\ heap st' !! a = Some nd' /\ Path nd' = Path nd
    /\ content nd' = Some d /\ c = Some d
    /\ world st' = world st /\ caches_grow st st'.
Proof.
  intros H. pose proof (same_world_Contents (Some a) st) as Hw.
  rewrite H in Hw. cbn in Hw. unfold Contents in H.
  apply bind_Return in H as (nd & s1 & Hnd & H).
  apply deref_Return in Hnd as [Hnd ->].
  destruct (String.eqb_spec (Type_ nd) File) as [Hty|Hty];
    cbn [negb] in H; [|discriminate].
  apply bind_Return in H as ([] & s1 & Hr & H).
  apply bind_Return in H as (nd' & s2 & Hnd' & H).
  apply deref_Return in Hnd' as [Hnd' ->]. injection H as <- <-.
  unfold read in Hr.
  rewrite (bind_step _ _ _ _ _ (deref_step _ _ _ Hnd)) in Hr.
  rewrite Hty in Hr. change (String.eqb File File) with true in Hr.
  cbn [andb] in Hr.
  destruct (content nd) as [d|] eqn:Hc; cbn [is_nil] in Hr.
  - injection Hr as <-. assert (nd' = nd) as -> by congruence.
    exists nd, nd, d. repeat split; auto. apply caches_grow_refl.
  - apply bind_Return in Hr as (uri & s2 & Hu & Hr).
    apply bind_Return in Hr as (buf & s3 & Hb & Hr).
    destruct buf as [e|b]; [discriminate|].
    apply store_Return in Hr as (nd0 & Hnd0 & ->).
    destruct (URI_evolves _ _ _ _ Hu) as (Hh2 & _).
    assert (Hh3 : heap s3 = heap st).
    { unfold os_ReadFile in Hb.
      destruct (oscall_cases (A:=list byte) (ReqReadFile uri)
        (fun w => if String.eqb uri "" then inl ENOENT
           else match locate (files w) [] (resolve w uri) with
                | inl e => inl e
                | inr o => if is_dir o then inl EISDIR
                           else inr (f_data o, files w)
                end) s2)
        as [(f & _ & E) | [(e & _ & _ & E) | (x & fs & _ & _ & E)]];
        rewrite E in Hb; injection Hb as _ <-; exact Hh2. }
    rewrite Hh3 in Hnd0. assert (nd0 = nd) as -> by congruence.
    cbn in Hnd'. rewrite Hh3 in Hnd'.
    rewrite list_lookup_insert_eq in Hnd'
      by (eapply lookup_lt_Some; eauto).
    injection Hnd' as <-.
    exists nd, (set_content nd b), b.
    split; [exact Hnd|]. split; [exact Hty|].
    split. { cbn. rewrite Hh3. apply list_lookup_insert_eq.
             eapply lookup_lt_Some; eauto. }
    split; [destruct nd; reflexivity|].
    split; [destruct nd; reflexivity|]. split; [reflexivity|].
    split; [exact Hw|]. split; [rewrite Hw; reflexivity|].
    intros a' x Hx. cbn. rewrite Hh3.
    destruct (decide (a' = a)) as [->|Hne].
    + assert (x = nd) as -> by congruence.
      exists (set_content nd b).
      rewrite list_lookup_insert_eq by (eapply lookup_lt_Some; eauto).
      split; [reflexivity|]. split; [destruct nd; reflexivity|].
      split; [destruct nd; reflexivity|]. intros d Hd. congruence.
    + exists x. rewrite list_lookup_insert_ne by auto. auto.
Qed.

(** What the loop body of [Replicate] has done for a file when it
    returns. *)
Lemma replicate_file_inv destination file st st' :
  replicate_file destination file st = Return tt st' ->
  exists fd fd' data o,
    heap st !! file = Some fd /\ Type_ fd = File
    /\ heap st' !! file = Some fd' /\ Path fd' = Path fd
    /\ content fd' = Some data
    /\ caches_grow st st'
    /\ files (world st')
       = <[resolve (world st) (filepath.Join destination (Path fd)) := o]>
           (files (world st))
    /\ f_data o = data /\ is_dir o = false.
Proof.
  intros H. unfold replicate_file in H.
  apply bind_Return in H as (fd & s1 & Hfd & H).
  apply deref_Return in Hfd as [Hfd ->]. unfold write_target in H.
  apply bind_Return in H as ([c e] & sA & HC & H).
  destruct e as [e|]; [discriminate|].
  apply bind_Return in H as (perm & sB & HP & H).
  apply bind_Return in H as (r & sC & HW & H).
  destruct r as [e|[]]; [discriminate|]. injection H as <-.
  apply Contents_inv in HC
    as (nd & nd' & d & Hnd & Hty & Hnd' & Hp & Hc & -> & HwA & GA).
  assert (nd = fd) as -> by congruence.
  apply Permissions_inv in HP as [HhB HwB].
  apply WriteFile_inv in HW as (HhC & HcC & o & Hf & Hdata & Hdir).
  exists fd, nd', d, o.
  split; [exact Hfd|]. split; [exact Hty|].
  split; [rewrite HhC, HhB; exact Hnd'|]. split; [exact Hp|].
  split; [exact Hc|]. split.
  { eapply caches_grow_trans; [exact GA|].
    apply caches_grow_same; [congruence|]. rewrite HcC, HwB. reflexivity. }
  split; [|auto]. rewrite Hf, HwB, HwA. reflexivity.
Qed.

Lemma written_weaken l l' st destination p :
  (forall g, g ∈ l -> g ∈ l') ->
  written l st destination p -> written l' st destination p.
Proof.
  intros Hsub (g & gd & data & o & Hg & H). exists g, gd, data, o.
  split; [apply Hsub; exact Hg | exact H].
Qed.

Lemma replicate_loop destination l :
  forall st st',
    for_each l (replicate_file destination) st = Return tt st' ->
    caches_grow st st'
    /\ (forall p, files (world st') !! p = files (world st) !! p
                  \/ written l st' destination p)
    /\ (forall f, f ∈ l ->
          exists fd, heap st' !! f = Some fd /\ Type_ fd = File /\
            written l st' destination
              (resolve (world st')
                       (filepath.Join destination (Path fd)))).
Proof.
  induction l as [|file l IH]; intros st st' H.
  - injection H as <-. split; [apply caches_grow_refl|].
    split; [auto|]. intros f Hf. inversion Hf.
  - cbn [for_each] in H. apply bind_Return in H as ([] & s1 & Hb & H).
    destruct (replicate_file_inv _ _ _ _ Hb)
      as (fd & fd1 & data & o & Hfd & Hty & Hfd1 & Hp1 & Hc1 & G1 & Hf
          & Hdata & Hdir).
    destruct (IH _ _ H) as (G2 & R3 & R4).
    pose proof (caches_grow_trans _ _ _ G1 G2) as G.
    destruct G2 as [C2 H2]. destruct G1 as [C1 H1].
    destruct (H2 file fd1 Hfd1) as (fd' & Hfd' & Hp' & Ht' & Hc').
    assert (Hty1 : Type_ fd1 = File).
    { destruct (H1 file fd Hfd) as (x & Hx & _ & Hxt & _).
      assert (x = fd1) as -> by congruence. congruence. }
    set (pf := resolve (world st) (filepath.Join destination (Path fd)))
      in *.
    assert (Hpf : resolve (world st')
                    (filepath.Join destination (Path fd')) = pf).
    { unfold pf. rewrite Hp', Hp1. apply resolve_cwd. congruence. }
    (* the object at [pf], if nothing later has replaced it *)
    assert (Hmine : files (world st') !! pf = files (world s1) !! pf ->
                    written (file :: l) st' destination pf).
    { intros E. exists file, fd', data, o. split; [left|].
      split; [exact Hfd'|]. split; [apply Hc', Hc1|]. split; [exact Hpf|].
      split; [|auto]. rewrite E, Hf. apply lookup_insert_eq. }
    assert (Hsub : forall g, g ∈ l -> g ∈ file :: l) by (intros; right; auto).
    split; [exact G|]. split.
    + intros p. destruct (R3 p) as [E|W].
      * destruct (decide (p = pf)) as [->|Hne].
        -- right. apply Hmine. exact E.
        -- left. rewrite E, Hf. apply lookup_insert_ne. auto.
      * right. eapply written_weaken; eauto.
    + intros g Hg. apply elem_of_cons in Hg as [->|Hg].
      * exists fd'. split; [exact Hfd'|]. split; [congruence|].
        rewrite Hpf. destruct (R3 pf) as [E|W].
        -- apply Hmine. exact E.
        -- eapply written_weaken; eauto.
      * destruct (R4 g Hg) as (gd & Hgd & Hgt & W).
        exists gd. split; [exact Hgd|]. split; [exact Hgt|].
        eapply written_weaken; eauto.
Qed.

Lemma mirror_directory_inv destination d st st' :
  mirror_directory destination d st = Return tt st' ->
  heap st' = heap st /\ cwd (world st') = cwd (world st).
Proof.
  intros H. unfold mirror_directory in H.
  apply bind_Return in H as (nd & s1 & Hnd & H).
  apply deref_Return in Hnd as [Hnd ->].
  apply bind_Return in H as (perm & sB & HP & H).
  apply bind_Return in H as (r & sC & HM & H).
  destruct r as [e|[]]; [discriminate|]. injection H as <-.
  apply Permissions_inv in HP as [HhB HwB].
  unfold os_MkdirAll in HM.
  match type of HM with
  | oscall ?r ?sem ?s = _ =>
      destruct (oscall_cases (A:=unit) r sem s)
        as [(f & _ & E) | [(e & _ & _ & E) | (a & fs & _ & _ & E)]]
  end; rewrite E in HM; [discriminate | discriminate |].
  injection HM as _ <-. cbn. rewrite HhB, HwB. auto.
Qed.

Lemma mirror_directories_inv destination ds :
  forall st st',
    for_each ds (mirror_directory destination) st = Return tt st' ->
    heap st' = heap st /\ cwd (world st') = cwd (world st).
Proof.
  induction ds as [|d ds IH]; intros st st' H.
  - injection H as <-. auto.
  - cbn [for_each] in H. apply bind_Return in H as ([] & s1 & Hd & H).
    apply mirror_directory_inv in Hd as [Hh1 Hc1].
    apply IH in H as [Hh Hc]. split; congruence.
Qed.

Section ReplicateWrites.

Variable range_order : list (string * addr) -> list (string * addr).

Lemma range_Table_still n st l st' :
  range_Table range_order n st = Return l st' -> st' = st.
Proof.
  intros H. unfold range_Table, Table in H.
  apply bind_Return in H as (t & s1 & Ht & H).
  apply bind_Return in Ht as (nd & s2 & Hnd & Ht).
  apply deref_Return in Hnd as [Hnd ->]. injection Ht as _ <-.
  destruct t as [id|]; [|injection H as _ <-; reflexivity].
  destruct (maps st !! id); [|discriminate].
  injection H as _ <-. reflexivity.
Qed.

Lemma selection_still ty n st ds st' :
  (let! l := range_Table range_order n in select ty l) st = Return ds st' ->
  st' = st.
Proof.
  intros H. apply bind_Return in H as (l & s1 & Hl & H).
  apply range_Table_still in Hl as ->.
  apply select_spec in H as [-> _]. reflexivity.
Qed.

(** When [Replicate] returns, every file node of the node's table has
    been written to the destination, whether the target existed or not:
    at the target of the node there is a regular file that holds the
    bytes cached in a file node of the table with that target (the node
    itself, unless a later node has the same target).  The caches of the
    nodes have only been filled. *)
Theorem Replicate_writes_every_file (n : addr) (destination : string)
        (st st' : State) :
  Replicate range_order n destination st = Return tt st' ->
  exists fs,
    Files range_order n st = Return fs st
    /\ caches_grow st st'
    /\ forall f, f ∈ fs ->
         exists fd, heap st' !! f = Some fd /\ Type_ fd = File /\
           written fs st' destination
             (resolve (world st') (filepath.Join destination (Path fd))).
Proof.
  intros H. unfold Replicate in H.
  apply bind_Return in H as (ds & s1 & Hds & H).
  pose proof (selection_still _ _ _ _ _ Hds) as ->.
  apply bind_Return in H as (fs & s2 & Hfs & H).
  pose proof (selection_still _ _ _ _ _ Hfs) as ->.
  apply bind_Return in H as ([] & s3 & Hd & H).
  apply mirror_directories_inv in Hd as [Hh3 Hc3].
  change (for_each fs (replicate_file destination) s3 = Return tt st') in H.
  destruct (replicate_loop _ _ _ _ H) as (G & _ & R4).
  exists fs. split; [exact Hfs|]. split; [|exact R4].
  eapply caches_grow_trans; [|exact G].
  apply caches_grow_same; assumption.
Qed.

End ReplicateWrites.

(* ===================================================================== *)
(** * Looking a node up under its path *)
(* ===================================================================== *)

Lemma entries_distinct_Folder entries :
  distinct_names (Folder entries) = entries_distinct entries.
Proof.
  cbn [distinct_names]. induction entries as [|e es IH]; [reflexivity|].
  cbn [entries_distinct]. rewrite <- IH. reflexivity.
Qed.

Lemma fresh_name nm (es : list DirEntry) :
  forallb (fun e' => negb (String.eqb nm (entry_Name e'))) es = true ->
  nm ∉ map entry_Name es.
Proof.
  induction es as [|e es IH]; cbn; intros H Hin.
  - inversion Hin.
  - apply andb_true_iff in H as [H1 H2].
    apply elem_of_cons in Hin as [->|Hin]; [|exact (IH H2 Hin)].
    rewrite String.eqb_refl in H1. discriminate.
Qed.

Lemma no_new_node st st' lo a x :
  length (heap st') = length (heap st) -> lo = length (heap st) ->
  lo <= a -> heap st' !! a = Some x -> False.
Proof. intros E -> Ha Hx. apply lookup_lt_Some in Hx. lia. Qed.

Section Siblings.

Variable sha256_hex : list byte -> string.

Lemma construction_siblings :
  (forall disk n st st',
      Walk sha256_hex disk n st st' -> distinct_names disk = true ->
      n < length (heap st) ->
      siblings_distinct (length (heap st)) st'
      /\ exists names, hangs n (length (heap st)) names st')
  /\ (forall entries n st st',
        WalkEntries sha256_hex entries n st st' ->
        entries_distinct entries = true -> n < length (heap st) ->
        siblings_distinct (length (heap st)) st'
        /\ hangs n (length (heap st)) (map entry_Name entries) st')
  /\ (forall entry n st st',
        WalkEntry sha256_hex entry n st st' ->
        entry_distinct entry = true -> n < length (heap st) ->
        siblings_distinct (length (heap st)) st'
        /\ hangs n (length (heap st)) [entry_Name entry] st')
  /\ (forall entry child st st',
        Fill sha256_hex entry child st st' ->
        entry_distinct entry = true -> child < length (heap st) ->
        siblings_distinct (length (heap st)) st'
        /\ exists names, hangs child (length (heap st)) names st').
Proof.
  destruct construction_evolves with (sha256_hex := sha256_hex)
    as (EvW & EvEs & EvE & EvF).
  apply (Walk_mutind sha256_hex
    (fun disk n st st' =>
       distinct_names disk = true -> n < length (heap st) ->
       siblings_distinct (length (heap st)) st'
       /\ exists names, hangs n (length (heap st)) names st')
    (fun entries n st st' =>
       entries_distinct entries = true -> n < length (heap st) ->
       siblings_distinct (length (heap st)) st'
       /\ hangs n (length (heap st)) (map entry_Name entries) st')
    (fun entry n st st' =>
       entry_distinct entry = true -> n < length (heap st) ->
       siblings_distinct (length (heap st)) st'
       /\ hangs n (length (heap st)) [entry_Name entry] st')
    (fun entry child st st' =>
       entry_distinct entry = true -> child < length (heap st) ->
       siblings_distinct (length (heap st)) st'
       /\ exists names, hangs child (length (heap st)) names st')).
  - (* folder *)
    intros entries n nd st st' Hn _ IH Hd Hlt.
    rewrite entries_distinct_Folder in Hd.
    destruct (IH Hd Hlt) as [S H]. split; [exact S | eauto].
  - (* listing error *)
    intros disk n nd e st Hn _ Hd Hlt. split.
    + intros a b x y Ha _ Hx. exfalso.
      eapply (no_new_node st); eauto.
    + exists []. intros a x Ha Hx. exfalso.
      eapply (no_new_node st); eauto.
  - intros n st Hd Hlt. split.
    + intros a b x y Ha _ Hx. exfalso. eapply (no_new_node st); eauto.
    + intros a x Ha Hx. exfalso. eapply (no_new_node st); eauto.
  - (* entries *)
    intros entry rest n st st1 st' HE IH1 HEs IH2 Hd Hlt.
    cbn [entries_distinct] in Hd.
    apply andb_true_iff in Hd as [Hd Hd3].
    apply andb_true_iff in Hd as [Hd1 Hd2].
    pose proof (fresh_name _ _ Hd1) as Hfresh.
    pose proof (EvE _ _ _ _ HE) as Ev1.
    pose proof (EvEs _ _ _ _ HEs) as Ev2.
    pose proof (ev_len _ _ _ Ev1) as L1.
    destruct (IH1 Hd2 Hlt) as [S1 H1].
    destruct (IH2 Hd3 ltac:(lia)) as [S2 H2].
    (* a node of the first entry is as it was *)
    assert (Hold : forall a x, length (heap st) <= a ->
              a < length (heap st1) -> heap st' !! a = Some x ->
              heap st1 !! a = Some x).
    { intros a x Ha Hlt1 Hx. rewrite <- (ev_old _ _ _ Ev2); auto. lia. }
    assert (Hmix : forall a b x y,
              length (heap st) <= a -> a < length (heap st1) ->
              length (heap st1) <= b ->
              heap st' !! a = Some x -> heap st' !! b = Some y ->
              parent x = parent y -> Name x = Name y -> False).
    { intros a b x y Ha Ha1 Hb Hx Hy Hp Hnm.
      apply Hold in Hx; auto.
      destruct (H1 a x Ha Hx) as [[Hpx Hnx]|(p & Hpx & Hpl)];
        destruct (H2 b y Hb Hy) as [[Hpy Hny]|(q & Hpy & Hql)].
      - apply list_elem_of_singleton in Hnx. apply Hfresh.
        rewrite <- Hnx, Hnm. exact Hny.
      - rewrite Hpx, Hpy in Hp. injection Hp as Hp. lia.
      - rewrite Hpx, Hpy in Hp. injection Hp as Hp. lia.
      - rewrite Hpx, Hpy in Hp. injection Hp as Hp. lia. }
    split.
    + intros a b x y Ha Hb Hx Hy Hp Hnm.
      destruct (decide (a < length (heap st1))) as [Ha1|Ha1];
        destruct (decide (b < length (heap st1))) as [Hb1|Hb1].
      * apply (S1 a b x y); auto.
      * exfalso. apply (Hmix a b x y); auto. lia.
      * exfalso. apply (Hmix b a y x); auto. lia.
      * apply (S2 a b x y); auto; lia.
    + intros a x Ha Hx. cbn [map].
      destruct (decide (a < length (heap st1))) as [Ha1|Ha1].
      * destruct (H1 a x Ha (Hold _ _ Ha Ha1 Hx)) as [[Hpx Hnx]|H];
          [left | right; exact H].
        split; [exact Hpx|]. apply list_elem_of_singleton in Hnx.
        rewrite Hnx. left.
      * destruct (H2 a x ltac:(lia) Hx) as [[Hpx Hnx]|(p & Hpx & Hpl)].
        -- left. split; [exact Hpx | right; exact Hnx].
        -- right. exists p. split; [exact Hpx | lia].
  - (* one entry *)
    intros entry n nd st st1 r rd c nd1 tr tn Hn HF IHfill Hr Hrd Htr Hmr Hc
           Hn1 Htn Hmn Hd Hlt.
    pose proof (EvF _ _ _ _ HF) as Ev.
    assert (Hchild0 : heap (created st n nd entry) !! length (heap st)
                      = Some (fresh_node n nd (length (maps st)) entry)).
    { cbn. apply snoc_lookup_new. }
    assert (Hlen0 : length (heap (created st n nd entry))
                    = S (length (heap st))).
    { cbn. rewrite length_app. cbn. lia. }
    destruct (IHfill Hd ltac:(lia)) as [S1 [names H1]].
    rewrite Hlen0 in S1, H1.
    destruct (ev_at _ _ _ Ev _ Hchild0) as (c' & Hc' & l & ck & Ec).
    assert (c' = c) as -> by congruence.
    assert (Hpc : parent c = Some n /\ Name c = entry_Name entry).
    { subst c. split; reflexivity. }
    destruct Hpc as [Hpc Hnc].
    assert (Hsame : forall a x, length (heap st) <= a ->
              heap (enrolled st1 n (length (heap st)) nd1 c tr tn) !! a
              = Some x -> heap st1 !! a = Some x).
    { intros a x Ha Hx. cbn in Hx.
      rewrite list_lookup_insert_ne in Hx by lia. exact Hx. }
    assert (Hdeep : forall b y, S (length (heap st)) <= b ->
              heap st1 !! b = Some y -> parent y <> Some n).
    { intros b y Hb Hy Hp.
      destruct (H1 b y Hb Hy) as [[Hpy _]|(q & Hpy & Hq)];
        rewrite Hpy in Hp; injection Hp as Hp; lia. }
    split.
    + intros a b x y Ha Hb Hx Hy Hp Hnm.
      apply Hsame in Hx; auto. apply Hsame in Hy; auto.
      destruct (decide (a = length (heap st))) as [->|Hna];
        destruct (decide (b = length (heap st))) as [->|Hnb]; auto.
      * exfalso. assert (x = c) as -> by congruence.
        apply (Hdeep b y ltac:(lia) Hy). congruence.
      * exfalso. assert (y = c) as -> by congruence.
        apply (Hdeep a x ltac:(lia) Hx). congruence.
      * apply (S1 a b x y); auto; lia.
    + intros a x Ha Hx. apply Hsame in Hx; auto.
      destruct (decide (a = length (heap st))) as [->|Hna].
      * left. assert (x = c) as -> by congruence.
        split; [exact Hpc|]. rewrite Hnc. left.
      * right. destruct (H1 a x ltac:(lia) Hx) as [[Hpx _]|(q & Hpx & Hq)].
        -- exists (length (heap st)). split; [exact Hpx | lia].
        -- exists q. split; [exact Hpx | lia].
  - (* directory *)
    intros entry child st st1 Hcl _ IH Hd Hlt.
    unfold entry_distinct in Hd. rewrite Hcl in Hd.
    change (String.eqb Directory Directory) with true in Hd.
    exact (IH Hd Hlt).
  - (* file *)
    intros entry child st uri st1 c data Hcl Hu Ht Hc Hd Hlt.
    destruct (URI_evolves child st uri st1 Hu) as (Hh & _).
    assert (L : length (heap (set_heap (log st1 (ReqChecksum child uri) None)
                  (<[child := set_Checksum c (Some (sha256_hex data))]>
                     (heap st1)))) = length (heap st)).
    { cbn. rewrite length_insert, Hh. reflexivity. }
    split.
    + intros a b x y Ha _ Hx _ _ _. exfalso.
      exact (no_new_node st _ _ a x L eq_refl Ha Hx).
    + exists []. intros a x Ha Hx. exfalso.
      exact (no_new_node st _ _ a x L eq_refl Ha Hx).
  - intros entry child st Hcl Hd Hlt. split.
    + intros a b x y Ha _ Hx. exfalso. eapply (no_new_node st); eauto.
    + exists []. intros a x Ha Hx. exfalso.
      eapply (no_new_node st); eauto.
Qed.

End Siblings.

Section Tabled.

Variable sha256_hex : list byte -> string.

(** What holds of a node and its parent in [st] holds in a later state. *)
Lemma tabled_later n st st' a x :
  evolves n st st' -> a <> n -> a < length (heap st) ->
  heap st' !! a = Some x ->
  (exists p pd t m b,
      parent x = Some p /\ heap st !! p = Some pd /\ table pd = Some t
      /\ maps st !! t = Some m /\ m !! Path x = Some b) ->
  exists p pd t m b,
    parent x = Some p /\ heap st' !! p = Some pd /\ table pd = Some t
    /\ maps st' !! t = Some m /\ m !! Path x = Some b.
Proof.
  intros Ev Hne Hlt Hx (p & pd & t & m & b & Hp & Hpd & Ht & Hm & Hb).
  destruct (ev_maps _ _ _ Ev _ _ Hm) as (m' & Hm' & Hsub).
  assert (Hpd' : exists pd', heap st' !! p = Some pd'
                             /\ table pd' = table pd).
  { destruct (decide (p = n)) as [->|Hpn].
    - destruct (ev_at _ _ _ Ev _ Hpd) as (pd' & Hpd' & Hk).
      exists pd'. split; [exact Hpd'|].
      apply node_kept_fields in Hk. tauto.
    - exists pd. split; [|reflexivity].
      rewrite (ev_old _ _ _ Ev); auto. eapply lookup_lt_Some; eauto. }
  destruct Hpd' as (pd' & Hpd' & Et).
  exists p, pd', t, m', b. split; [exact Hp|]. split; [exact Hpd'|].
  split; [congruence|]. split; [exact Hm'|].
  eapply lookup_weaken; eauto.
Qed.

Lemma construction_tabled :
  (forall disk n st st',
      Walk sha256_hex disk n st st' -> n < length (heap st) ->
      tabled (length (heap st)) st')
  /\ (forall entries n st st',
        WalkEntries sha256_hex entries n st st' -> n < length (heap st) ->
        tabled (length (heap st)) st')
  /\ (forall entry n st st',
        WalkEntry sha256_hex entry n st st' -> n < length (heap st) ->
        tabled (length (heap st)) st')
  /\ (forall entry child st st',
        Fill sha256_hex entry child st st' -> child < length (heap st) ->
        tabled (length (heap st)) st').
Proof.
  destruct construction_evolves with (sha256_hex := sha256_hex)
    as (EvW & EvEs & EvE & EvF).
  apply (Walk_mutind sha256_hex
    (fun disk n st st' =>
       n < length (heap st) -> tabled (length (heap st)) st')
    (fun entries n st st' =>
       n < length (heap st) -> tabled (length (heap st)) st')
    (fun entry n st st' =>
       n < length (heap st) -> tabled (length (heap st)) st')
    (fun entry child st st' =>
       child < length (heap st) -> tabled (length (heap st)) st')).
  - intros entries n nd st st' Hn _ IH Hlt. exact (IH Hlt).
  - intros disk n nd e st Hn _ Hlt a x Ha Hx. exfalso.
    eapply (no_new_node st); eauto.
  - intros n st Hlt a x Ha Hx. exfalso. eapply (no_new_node st); eauto.
  - (* entries *)
    intros entry rest n st st1 st' HE IH1 HEs IH2 Hlt a x Ha Hx.
    pose proof (EvE _ _ _ _ HE) as Ev1.
    pose proof (EvEs _ _ _ _ HEs) as Ev2.
    pose proof (ev_len _ _ _ Ev1) as L1.
    destruct (decide (a < length (heap st1))) as [Ha1|Ha1].
    + apply (tabled_later n st1 st' a x Ev2 ltac:(lia) Ha1 Hx).
      apply (IH1 Hlt a x Ha).
      rewrite <- (ev_old _ _ _ Ev2); auto. lia.
    + apply (IH2 ltac:(lia) a x ltac:(lia) Hx).
  - (* one entry *)
    intros entry n nd st st1 r rd c nd1 tr tn Hn HF IHfill Hr Hrd Htr Hmr Hc
           Hn1 Htn Hmn Hlt a x Ha Hx.
    pose proof (EvF _ _ _ _ HF) as Ev.
    assert (Hchild0 : heap (created st n nd entry) !! length (heap st)
                      = Some (fresh_node n nd (length (maps st)) entry)).
    { cbn. apply snoc_lookup_new. }
    assert (Hlen0 : length (heap (created st n nd entry))
                    = S (length (heap st))).
    { cbn. rewrite length_app. cbn. lia. }
    specialize (IHfill ltac:(lia)). rewrite Hlen0 in IHfill.
    pose proof (ev_len _ _ _ Ev) as L. rewrite Hlen0 in L.
    pose proof (evolves_enrolled n (length (heap st)) st1 nd1 c tr tn Hn1)
      as Ev2.
    assert (Hx1 : heap st1 !! a = Some x).
    { cbn in Hx. rewrite list_lookup_insert_ne in Hx by lia. exact Hx. }
    destruct (decide (a = length (heap st))) as [->|Hna].
    + assert (x = c) as -> by congruence.
      destruct (ev_at _ _ _ Ev _ Hchild0) as (c' & Hc' & l & ck & Ec).
      assert (c' = c) as -> by congruence.
      destruct Hmn as [mn Hmn].
      destruct (reg_mono (maps st1) tr (Path c) (length (heap st)) tn mn Hmn)
        as (mn1 & Hmn1 & _).
      destruct (reg_registered _ tn (Path c) (length (heap st)) mn1 Hmn1)
        as (m' & b & Hm' & Hb).
      exists n, (set_Nodes nd1 (Nodes nd1 ++ [c])), tn, m', b.
      split; [subst c; reflexivity|]. split.
      { cbn. apply list_lookup_insert_eq. eapply lookup_lt_Some; eauto. }
      split; [destruct nd1; exact Htn|]. split; [exact Hm' | exact Hb].
    + apply (tabled_later n st1 _ a x Ev2 ltac:(lia)
                          ltac:(eapply lookup_lt_Some; eauto) Hx).
      apply (IHfill a x ltac:(lia) Hx1).
  - intros entry child st st1 Hcl _ IH Hlt. exact (IH Hlt).
  - (* file *)
    intros entry child st uri st1 c data Hcl Hu Ht Hc Hlt a x Ha Hx.
    destruct (URI_evolves child st uri st1 Hu) as (Hh & _).
    exfalso. cbn in Hx. apply lookup_lt_Some in Hx.
    rewrite length_insert, Hh in Hx. lia.
  - intros entry child st Hcl Hlt a x Ha Hx. exfalso.
    eapply (no_new_node st); eauto.
Qed.

End Tabled.

(** In a tree whose nodes have valid names and lie below the path of the
    root, and where siblings have distinct names, no two nodes have the
    same path. *)
Lemma paths_injective h0 m0 st r :
  tree_inv h0 m0 st ->
  (exists rd, heap st !! h0 = Some rd /\ Path rd = r) ->
  (forall a x, h0 < a -> heap st !! a = Some x ->
               beneath r (Path x) /\ filepath.valid_name (Name x) = true) ->
  siblings_distinct (S h0) st ->
  forall a b x y,
    h0 <= a -> h0 <= b -> heap st !! a = Some x -> heap st !! b = Some y ->
    filepath.norm (Path x) = filepath.norm (Path y) -> a = b.
Proof.
  intros I (rd & Hrd & Hr) HB SD.
  assert (Hroot : forall b y, h0 < b -> heap st !! b = Some y ->
                              filepath.norm (Path y) <> filepath.norm r).
  { intros b y Hb Hy E. destruct (HB b y Hb Hy) as [(nms & Hne & En) _].
    rewrite E in En. apply (f_equal length) in En.
    rewrite length_app in En. destruct nms; [contradiction | cbn in En; lia]. }
  induction a as [a IH] using lt_wf_ind. intros b x y Ha Hb Hx Hy E.
  destruct (decide (a = h0)) as [->|Hna].
  - assert (x = rd) as -> by congruence.
    destruct (decide (b = h0)) as [->|Hnb]; [reflexivity|]. exfalso.
    apply (Hroot b y ltac:(lia) Hy). rewrite <- E, Hr. reflexivity.
  - destruct (decide (b = h0)) as [->|Hnb].
    { exfalso. assert (y = rd) as -> by congruence.
      apply (Hroot a x ltac:(lia) Hx). rewrite E, Hr. reflexivity. }
    destruct (inv_node _ _ _ I a x ltac:(lia) Hx)
      as (p & pd & _ & Hp & Hpl & Hpd & _ & _ & _ & Hpx & _).
    destruct (inv_node _ _ _ I b y ltac:(lia) Hy)
      as (q & qd & _ & Hq & Hql & Hqd & _ & _ & _ & Hpy & _).
    destruct (HB a x ltac:(lia) Hx) as [_ Hvx].
    destruct (HB b y ltac:(lia) Hy) as [_ Hvy].
    rewrite Hpx, Hpy, !norm_Join in E by assumption.
    apply app_inj_tail in E as [E Hnm].
    assert (p = q) as <- by (eapply (IH p); eauto; lia).
    apply (SD a b x y); auto; try lia. congruence.
Qed.

Section RoundTrip.

Variable sha256_hex : list byte -> string.

Lemma tree_lookup path disk st root st' :
  New sha256_hex path disk st = Return root st' ->
  names_ok disk = true -> distinct_names disk = true ->
  (forall a b x y,
      root <= a -> root <= b ->
      heap st' !! a = Some x -> heap st' !! b = Some y ->
      Path x = Path y -> a = b)
  /\ (forall a x, root < a -> heap st' !! a = Some x ->
        exists m p pd t mt,
          maps st' !! length (maps st) = Some m /\ m !! Path x = Some a
          /\ parent x = Some p /\ root <= p /\ heap st' !! p = Some pd
          /\ table pd = Some t
          /\ maps st' !! t = Some mt /\ mt !! Path x = Some a).
Proof.
  intros H Hok Hdn.
  destruct (New_index sha256_hex _ _ _ _ _ H) as (_ & Hreg).
  pose proof (New_tree sha256_hex _ _ _ _ _ H)
    as (-> & I & _ & _ & (rd & Hrd & Hpath) & _).
  apply New_inv in H as (fi & st0 & Hs & Hd & _ & HW).
  destruct (Stat_Return _ _ _ _ Hs) as (Hh0 & Hm0 & _).
  assert (Hlen : length (heap (planted st0 path fi)) = S (length (heap st))).
  { cbn. rewrite length_app, Hh0. cbn. lia. }
  assert (Hroot0 : heap (planted st0 path fi) !! length (heap st)
                   = Some (root_node path fi (length (maps st0)))).
  { unfold planted. cbn. rewrite <- Hh0. apply snoc_lookup_new. }
  destruct (construction_beneath sha256_hex) as (BW & _).
  destruct (construction_named sha256_hex) as (NW & _).
  destruct (construction_siblings sha256_hex) as (SW & _).
  destruct (construction_tabled sha256_hex) as (TW & _).
  pose proof (BW _ _ _ _ HW Hok _ Hroot0) as B. cbn [Path root_node] in B.
  pose proof (NW _ _ _ _ HW Hok ltac:(lia)) as N.
  destruct (SW _ _ _ _ HW Hdn ltac:(lia)) as [SD _].
  pose proof (TW _ _ _ _ HW ltac:(lia)) as T.
  rewrite Hlen in SD, T. unfold all_beneath in B. unfold named in N.
  rewrite Hlen in B, N.
  assert (Inj : forall a b x y,
            length (heap st) <= a -> length (heap st) <= b ->
            heap st' !! a = Some x -> heap st' !! b = Some y ->
            Path x = Path y -> a = b).
  { intros a b x y Ha Hb Hx Hy E.
    eapply (paths_injective _ _ st' path I); eauto.
    - intros c z Hc Hz. split; [apply (B c z); auto | apply (N c z); auto].
    - rewrite E. reflexivity. }
  split; [exact Inj|].
  intros a x Ha Hx.
  destruct (Hreg a x Ha Hx) as (m & b & Hm & Hb).
  destruct (inv_entry _ _ _ I _ _ _ _ (Nat.le_refl _) Hm Hb)
    as (cd & _ & _ & Hbl & Hcd & Hpc & _).
  assert (b = a) as ->
    by (apply (Inj b a cd x); [lia | lia | exact Hcd | exact Hx | exact Hpc]).
  destruct (T a x ltac:(lia) Hx)
    as (p & pd & t & mt & b & Hp & Hpd & Ht & Hmt & Hbt).
  pose proof (tree_parent (length (heap st)) (length (maps st)) st' a x p
                          I ltac:(lia) Hx Hp) as Hpl.
  destruct (tree_table _ _ _ _ _ I (proj1 Hpl) Hpd) as (t' & Ht' & Htb & _).
  assert (t' = t) as -> by congruence.
  destruct (inv_entry _ _ _ I _ _ _ _ (proj1 Htb) Hmt Hbt)
    as (cd' & _ & _ & Hbl' & Hcd' & Hpc' & _).
  assert (b = a) as ->
    by (apply (Inj b a cd' x);
        [lia | lia | exact Hcd' | exact Hx | exact Hpc']).
  exists m, p, pd, t, mt. repeat split; auto. lia.
Qed.

(** In a tree built by [New] over a hierarchy in which entries have the
    names a directory listing reports, and no directory has two entries
    of the same name, no two nodes have the same path, and a lookup
    under the path of a node finds that node: in the global index that
    [Map] returns, and in the table of its parent. *)
Theorem lookup_finds_the_node path disk st root st' :
  New sha256_hex path disk st = Return root st' ->
  names_ok disk = true -> distinct_names disk = true ->
  (forall a b x y,
      root <= a -> root <= b ->
      heap st' !! a = Some x -> heap st' !! b = Some y ->
      Path x = Path y -> a = b)
  /\ (forall a x, root < a -> heap st' !! a = Some x ->
        exists g m p t mt,
          Map a st' = Return (Some g) st'
          /\ maps st' !! g = Some m /\ m !! Path x = Some a
          /\ Parent a st' = Return (Some p) st'
          /\ Table p st' = Return (Some t) st'
          /\ maps st' !! t = Some mt /\ mt !! Path x = Some a).
Proof.
  intros H Hok Hdn.
  destruct (tree_lookup _ _ _ _ _ H Hok Hdn) as [Inj L].
  destruct (New_index sha256_hex _ _ _ _ _ H) as (HMap & _).
  split; [exact Inj|]. intros a x Ha Hx.
  destruct (L a x Ha Hx)
    as (m & p & pd & t & mt & Hm & Hb & Hp & Hpl & Hpd & Ht & Hmt & Hbt).
  exists (length (maps st)), m, p, t, mt.
  split; [eapply HMap; eauto; lia|]. split; [exact Hm|].
  split; [exact Hb|]. split.
  { unfold Parent. rewrite (bind_step _ _ _ _ _ (deref_step _ _ _ Hx)).
    unfold ret. rewrite Hp. reflexivity. }
  split.
  { unfold Table. rewrite (bind_step _ _ _ _ _ (deref_step _ _ _ Hpd)).
    unfold ret. rewrite Ht. reflexivity. }
  split; [exact Hmt | exact Hbt].
Qed.

Variable range_order : list (string * addr) -> list (string * addr).
Hypothesis range_order_perm : forall l, range_order l ≡ₚ l.

(** In such a tree [Files] and [Directories] miss no child: every node
    of the tree whose parent is the node and that is tagged File is
    returned by [Files], and every one tagged Directory by
    [Directories].  On a node other than the root they return exactly
    these children. *)
Theorem Files_finds_every_child path disk st root st' n nd :
  New sha256_hex path disk st = Return root st' ->
  names_ok disk = true -> distinct_names disk = true ->
  root <= n -> heap st' !! n = Some nd ->
  exists fs ds,
    Files range_order n st' = Return fs st'
    /\ Directories range_order n st' = Return ds st'
    /\ (forall a x, root <= a -> heap st' !! a = Some x ->
          parent x = Some n ->
          (Type_ x = File -> a ∈ fs) /\ (Type_ x = Directory -> a ∈ ds))
    /\ (root < n -> forall a,
          (a ∈ fs <-> root < a /\
                      exists x, heap st' !! a = Some x
                                /\ parent x = Some n /\ Type_ x = File)
          /\ (a ∈ ds <-> root < a /\
                         exists x, heap st' !! a = Some x
                                   /\ parent x = Some n
                                   /\ Type_ x = Directory)).
Proof.
  intros H Hok Hdn Hn Hnd.
  destruct (tree_lookup _ _ _ _ _ H Hok Hdn) as [_ L].
  pose proof (New_tree sha256_hex _ _ _ _ _ H) as (-> & I & _).
  destruct (tree_table _ _ _ _ _ I Hn Hnd) as (t & Ht & Htb & _).
  destruct (lookup_lt_is_Some_2 (maps st') t ltac:(lia)) as [m Hm].
  pose proof (range_Table_total range_order st' n nd t m Hnd Ht Hm) as HR.
  assert (Hel : forall k c, (k, c) ∈ range_order (map_to_list m)
                            <-> m !! k = Some c).
  { intros k c. rewrite (range_order_perm (map_to_list m)).
    apply elem_of_map_to_list. }
  assert (Hlive : forall k c, (k, c) ∈ range_order (map_to_list m) ->
                              is_Some (heap st' !! c)).
  { intros k c Hkc. apply Hel in Hkc.
    destruct (inv_entry _ _ _ I t m k c (proj1 Htb) Hm Hkc)
      as (cd & _ & _ & _ & Hcd & _).
    eauto. }
  destruct (select_total File _ st' Hlive) as (fs & Hfs & Hinf).
  destruct (select_total Directory _ st' Hlive) as (ds & Hds & Hind).
  (* a child of [n] is in the table of [n] under its path *)
  assert (Hchild : forall a x, length (heap st) <= a ->
            heap st' !! a = Some x -> parent x = Some n ->
            (Path x, a) ∈ range_order (map_to_list m)).
  { intros a x Ha Hx Hp.
    assert (Hgt : length (heap st) < a).
    { destruct (decide (a = length (heap st))) as [->|]; [|lia].
      destruct (inv_root _ _ _ I) as (rd & Hrd & Hpr & _).
      assert (x = rd) as -> by congruence. congruence. }
    destruct (L a x Hgt Hx)
      as (_ & p & pd & t' & mt & _ & _ & Hp' & _ & Hpd & Ht' & Hmt & Hbt).
    assert (p = n) as -> by congruence.
    assert (pd = nd) as -> by congruence.
    assert (t' = t) as -> by congruence.
    assert (mt = m) as -> by congruence.
    apply Hel. exact Hbt. }
  exists fs, ds.
  split. { unfold Files. rewrite (bind_step _ _ _ _ _ HR). exact Hfs. }
  split. { unfold Directories. rewrite (bind_step _ _ _ _ _ HR). exact Hds. }
  split.
  { intros a x Ha Hx Hp. split; intros Hty.
    - apply Hinf. exists (Path x), x. split; [apply Hchild; auto | auto].
    - apply Hind. exists (Path x), x. split; [apply Hchild; auto | auto]. }
  intros Hroot a.
  pose proof (tree_children_table _ _ _ _ I Hroot) as Hct.
  assert (Hback : forall ty,
            (exists k cd, (k, a) ∈ range_order (map_to_list m)
                          /\ heap st' !! a = Some cd /\ Type_ cd = ty)
            <-> (length (heap st) < a /\
                 exists x, heap st' !! a = Some x /\ parent x = Some n
                           /\ Type_ x = ty)).
  { intros ty. split.
    - intros (k & cd & Hk & Hcd & Hty). apply Hel in Hk.
      destruct (inv_entry _ _ _ I t m k a (proj1 Htb) Hm Hk)
        as (_ & _ & _ & Hlt & _).
      split; [exact Hlt|]. exists cd. split; [exact Hcd|].
      split; [|exact Hty].
      destruct (Hct nd t m k a Hnd Ht Hm Hk) as (cd' & Hcd' & Hp).
      congruence.
    - intros (Hlt & x & Hx & Hp & Hty). exists (Path x), x.
      split; [|auto]. apply Hchild; auto. lia. }
  split; [rewrite Hinf | rewrite Hind]; apply Hback.
Qed.

End RoundTrip.

(* ===================================================================== *)
(** * The absolute path of a node *)
(* ===================================================================== *)

Section AbsolutePath.

Import filepath.

Lemma IsAbs_Clean p : IsAbs (Clean p) = IsAbs p.
Proof.
  unfold Clean. destruct (String.eqb_spec p "") as [->|Hne]; [reflexivity|].
  unfold norm. apply (norm_render _ _ (norm_canon p)).
Qed.

Lemma Clean_idem p : Clean (Clean p) = Clean p.
Proof.
  unfold Clean at 2 3. destruct (String.eqb_spec p "") as [->|Hne];
    [reflexivity|].
  unfold norm. apply Clean_canon, norm_canon.
Qed.

Lemma Join_absolute d p :
  IsAbs d = true ->
  IsAbs (Join d p) = true /\ Clean (Join d p) = Join d p.
Proof.
  intros Hd. unfold Join.
  destruct (String.eqb_spec d "") as [->|Hne]; [discriminate|].
  cbn [negb]. split; [|apply Clean_idem].
  rewrite IsAbs_Clean, IsAbs_app by exact Hne. exact Hd.
Qed.

(** [URI] reads the working directory only for a relative path, and
    panics only when that fails.  Where the working directory is an
    absolute path, as [os.Getwd] reports it, the result is an absolute
    path in the form [filepath.Clean] produces, and it denotes the
    object that the path of the node denotes in a call of the [os]
    package; the nodes and the file system are as before. *)
Theorem URI_is_absolute a st nd :
  heap st !! a = Some nd ->
  IsAbs (cwd (world st)) = true ->
  (exists uri st1,
      URI a st = Return uri st1
      /\ IsAbs uri = true /\ Clean uri = uri
      /\ norm uri = resolve (world st) (Path nd)
      /\ heap st1 = heap st /\ maps st1 = maps st /\ world st1 = world st
      /\ (IsAbs (Path nd) = true -> st1 = st))
  \/ (IsAbs (Path nd) = false
      /\ (exists f, fault (world st) (length (calls st)) ReqGetwd = Some f)
      /\ exists st1,
           URI a st
           = Panicked (PanicString
               "Invalid Path - Unable to Calculate Full-System, Absolute Path")
               st1).
Proof.
  intros Hnd Hwd.
  destruct (URI_cases a st nd Hnd) as [[Ha E]|[[Ha E]|[Ha [f E]]]].
  - left. exists (Clean (Path nd)), st. split; [exact E|].
    split; [rewrite IsAbs_Clean; exact Ha|]. split; [apply Clean_idem|].
    split; [unfold resolve; rewrite Ha; apply norm_Clean|]. auto.
  - left. destruct (Join_absolute _ (Path nd) Hwd) as [J1 J2].
    exists (Join (cwd (world st)) (Path nd)), (log st ReqGetwd None).
    split; [exact E|]. split; [exact J1|]. split; [exact J2|].
    split; [unfold resolve; rewrite Ha; reflexivity|].
    repeat split; auto. intros H. congruence.
  - right. split; [exact Ha|]. split; [|eauto].
    unfold URI in E.
    rewrite (bind_step _ _ _ _ _ (deref_step _ _ _ Hnd)), Ha in E.
    unfold os_Getwd, oscall, bind in E.
    destruct (fault (world st) (length (calls st)) ReqGetwd) as [f'|];
      [eauto | discriminate].
Qed.

End AbsolutePath.

(* ===================================================================== *)
(** * What [Replace] leaves at the destination *)
(* ===================================================================== *)

(** What [exists] has seen when it answers true. *)
Lemma exists_true destination st s0 :
  exists_ destination st = Return true s0 ->
  heap s0 = heap st /\ maps s0 = maps st /\ world s0 = world st
  /\ destination <> ""
  /\ exists o, locate (files (world st)) []
                      (resolve (world st) destination) = inr o.
Proof.
  intros H. unfold exists_ in H.
  apply bind_Return in H as (r & s1 & Hs & H).
  destruct r as [e|fi].
  { destruct (IsNotExist e); discriminate H. }
  injection H as <-.
  destruct (Stat_Return _ _ _ _ Hs) as (Hh & Hm & Hw & _).
  split; [exact Hh|]. split; [exact Hm|]. split; [exact Hw|].
  unfold os_Stat in Hs.
  match type of Hs with
  | oscall ?r ?sem ?s = _ =>
      destruct (oscall_cases (A:=FileInfo) r sem s)
        as [(f & _ & E) | [(e & _ & _ & E) | (a & fs & _ & Hsem & E)]]
  end; rewrite E in Hs; [discriminate Hs | discriminate Hs |].
  cbn beta in Hsem.
  destruct (String.eqb_spec destination "") as [->|Hne]; [discriminate Hsem|].
  split; [exact Hne|].
  destruct (locate (files (world st)) [] (resolve (world st) destination))
    as [e|o]; [discriminate Hsem | eauto].
Qed.

(** A successful [RemoveAll] of an object that is there leaves nothing
    at or below its path. *)
Lemma RemoveAll_inv destination st s1 o :
  os_RemoveAll destination st = Return (inr tt) s1 ->
  destination <> "" ->
  locate (files (world st)) [] (resolve (world st) destination) = inr o ->
  heap s1 = heap st /\ maps s1 = maps st
  /\ cwd (world s1) = cwd (world st) /\ umask (world s1) = umask (world st)
  /\ files (world s1)
     = filter (fun kv => ¬ resolve (world st) destination `prefix_of` kv.1)
              (files (world st)).
Proof.
  intros H Hne Hl. unfold os_RemoveAll in H.
  match type of H with
  | oscall ?r ?sem ?s = _ =>
      destruct (oscall_cases (A:=unit) r sem s)
        as [(f & _ & E) | [(e & _ & _ & E) | (a & fs & _ & Hsem & E)]]
  end; rewrite E in H; [discriminate H | discriminate H |].
  injection H as _ <-. cbn beta in Hsem.
  destruct (String.eqb_spec destination "") as [->|_]; [contradiction|].
  unfold remove_all in Hsem. rewrite Hl in Hsem. injection Hsem as _ <-.
  repeat split; reflexivity.
Qed.

(** [MkdirAll] adds nothing but directories it has made. *)
Lemma mkdir_all_fresh w perm rest :
  forall fs pre fs',
    mkdir_all w fs pre rest perm = inr fs' ->
    forall p, fs' !! p = fs !! p \/ fs' !! p = Some (new_dir w perm).
Proof.
  induction rest as [|c rest IH]; intros fs pre fs' H p; cbn in H.
  - destruct (fs !! pre) as [o|] eqn:E.
    + destruct (is_dir o); [|discriminate H]. injection H as <-. auto.
    + injection H as <-. destruct (decide (p = pre)) as [->|Hp].
      * right. apply lookup_insert_eq.
      * left. apply lookup_insert_ne. auto.
  - destruct (fs !! pre) as [o|] eqn:E.
    + destruct (is_dir o); [|discriminate H]. eapply IH; eassumption.
    + destruct (IH _ _ _ H p) as [Hp|Hp]; [|auto].
      destruct (decide (p = pre)) as [->|Hne].
      * right. rewrite Hp. apply lookup_insert_eq.
      * left. rewrite Hp. apply lookup_insert_ne. auto.
Qed.

Lemma new_dir_umask w w' perm :
  umask w' = umask w -> new_dir w' perm = new_dir w perm.
Proof. intros H. unfold new_dir. rewrite H. reflexivity. Qed.

Lemma mirror_directory_fresh destination d st st' :
  mirror_directory destination d st = Return tt st' ->
  umask (world st') = umask (world st)
  /\ forall p, files (world st') !! p = files (world st) !! p
               \/ exists perm,
                    files (world st') !! p = Some (new_dir (world st) perm).
Proof.
  intros H. unfold mirror_directory in H.
  apply bind_Return in H as (nd & s1 & Hnd & H).
  apply deref_Return in Hnd as [Hnd ->].
  apply bind_Return in H as (perm & sB & HP & H).
  apply bind_Return in H as (r & sC & HM & H).
  destruct r as [e|[]]; [discriminate H|]. injection H as <-.
  apply Permissions_inv in HP as [HhB HwB].
  unfold os_MkdirAll in HM.
  match type of HM with
  | oscall ?r ?sem ?s = _ =>
      destruct (oscall_cases (A:=unit) r sem s)
        as [(f & _ & E) | [(e & _ & _ & E) | (a & fs & _ & Hsem & E)]]
  end; rewrite E in HM; [discriminate HM | discriminate HM |].
  injection HM as _ <-. cbn beta in Hsem.
  destruct (String.eqb _ ""); [discriminate Hsem|].
  destruct (mkdir_all (world sB) (files (world sB)) []
              (resolve (world sB) (filepath.Join destination (Path nd)))
              perm) as [e|fs'] eqn:Em; [discriminate Hsem|].
  injection Hsem as _ <-. cbn. rewrite HwB in *.
  split; [reflexivity|]. intros p.
  destruct (mkdir_all_fresh _ _ _ _ _ _ Em p) as [Hp|Hp]; eauto.
Qed.

Lemma mirror_directories_fresh destination ds :
  forall st st',
    for_each ds (mirror_directory destination) st = Return tt st' ->
    umask (world st') = umask (world st)
    /\ forall p, files (world st') !! p = files (world st) !! p
                 \/ exists perm,
                      files (world st') !! p
                      = Some (new_dir (world st) perm).
Proof.
  induction ds as [|d ds IH]; intros st st' H.
  - injection H as <-. auto.
  - cbn [for_each] in H. apply bind_Return in H as ([] & s1 & Hd & H).
    apply mirror_directory_fresh in Hd as [Hu1 Hf1].
    apply IH in H as [Hu Hf]. split; [congruence|]. intros p.
    destruct (Hf p) as [E|[perm E]].
    + rewrite E. apply Hf1.
    + right. exists perm. rewrite E. f_equal. apply new_dir_umask, Hu1.
Qed.

Section ReplaceWrites.

Variable range_order : list (string * addr) -> list (string * addr).

Lemma select_store ty l s1 st :
  heap s1 = heap st ->
  forall ds s, select ty l s1 = Return ds s -> select ty l st = Return ds st.
Proof.
  intros Hh. induction l as [|[k a] l IH]; intros ds s H.
  - injection H as <- _. reflexivity.
  - cbn [select] in H |- *.
    apply bind_Return in H as (nd & s2 & Hnd & H).
    apply deref_Return in Hnd as [Hnd ->]. rewrite Hh in Hnd.
    apply bind_Return in H as (ps & s2 & Hps & H).
    injection H as <- _.
    rewrite (bind_step _ _ _ _ _ (deref_step _ _ _ Hnd)).
    rewrite (bind_step _ _ _ _ _ (IH _ _ Hps)). reflexivity.
Qed.

Lemma selection_store ty n s1 st ds s :
  heap s1 = heap st -> maps s1 = maps st ->
  (let! l := range_Table range_order n in select ty l) s1 = Return ds s ->
  (let! l := range_Table range_order n in select ty l) st = Return ds st.
Proof.
  intros Hh Hm H. apply bind_Return in H as (l & s2 & Hl & H).
  pose proof (range_Table_still _ _ _ _ _ Hl) as ->.
  assert (Hl' : range_Table range_order n st = Return l st).
  { unfold range_Table in Hl |- *.
    apply bind_Return in Hl as (t & s3 & Ht & Hl).
    unfold Table in Ht.
    apply bind_Return in Ht as (nd & s4 & Hnd & Ht).
    apply deref_Return in Hnd as [Hnd ->]. injection Ht as <- <-.
    rewrite Hh in Hnd.
    assert (HT : Table n st = Return (table nd) st).
    { unfold Table. rewrite (bind_step _ _ _ _ _ (deref_step _ _ _ Hnd)).
      reflexivity. }
    rewrite (bind_step _ _ _ _ _ HT).
    destruct (table nd) as [id|].
    - rewrite Hm in Hl. destruct (maps st !! id); [|discriminate Hl].
      injection Hl as <-. reflexivity.
    - injection Hl as <-. reflexivity. }
  rewrite (bind_step _ _ _ _ _ Hl'). eapply select_store; eauto.
Qed.

(** When [Replace] has found the destination and returns, every file
    node of the node's table has been written as by [Replicate], and
    nothing of the old destination is left: every object at or below the
    destination is a directory made by this call, empty of data and with
    permission bits cleared by the umask, or a regular file written by
    this call for a file node of the table. *)
Theorem Replace_leaves_nothing_old (n : addr) (destination : string)
        (st s0 st' : State) :
  exists_ destination st = Return true s0 ->
  Replace range_order n destination st = Return tt st' ->
  exists fs,
    Files range_order n st = Return fs st
    /\ caches_grow st st'
    /\ (forall f, f ∈ fs ->
          exists fd, heap st' !! f = Some fd /\ Type_ fd = File /\
            written fs st' destination
              (resolve (world st') (filepath.Join destination (Path fd))))
    /\ (forall q o,
          files (world st') !! q = Some o ->
          resolve (world st) destination `prefix_of` q ->
          (exists perm, o = new_dir (world st) perm)
          \/ written fs st' destination q).
Proof.
  intros Hex H. unfold Replace in H. rewrite (bind_step _ _ _ _ _ Hex) in H.
  destruct (exists_true _ _ _ Hex) as (Hh0 & Hm0 & Hw0 & Hne & o0 & Hl0).
  apply bind_Return in H as ([] & s1 & Hrm & H).
  apply bind_Return in Hrm as (r & s1' & Hrm & Hr).
  destruct r as [e|[]]; [discriminate Hr|]. injection Hr as <-.
  rewrite <- Hw0 in Hl0.
  destruct (RemoveAll_inv _ _ _ _ Hrm Hne Hl0)
    as (Hh1 & Hm1 & Hc1 & Hu1 & Hf1).
  rewrite Hw0 in Hc1, Hu1, Hf1. rewrite Hh0 in Hh1. rewrite Hm0 in Hm1.
  apply bind_Return in H as (ds & s2 & Hds & H).
  pose proof (selection_still _ _ _ _ _ _ Hds) as ->.
  apply bind_Return in H as (fs & s2 & Hfs & H).
  pose proof (selection_still _ _ _ _ _ _ Hfs) as ->.
  apply bind_Return in H as ([] & s3 & Hd & H).
  destruct (mirror_directories_inv _ _ _ _ Hd) as [Hh3 Hc3].
  destruct (mirror_directories_fresh _ _ _ _ Hd) as [Hu3 Hf3].
  change (for_each fs (replicate_file destination) s3 = Return tt st') in H.
  destruct (replicate_loop _ _ _ _ H) as (G & R3 & R4).
  exists fs. split; [exact (selection_store _ _ _ _ _ _ Hh1 Hm1 Hfs)|].
  split.
  { eapply caches_grow_trans; [|exact G].
    apply caches_grow_same; congruence. }
  split; [exact R4|]. intros q o Hq Hpre.
  destruct (R3 q) as [E|W]; [|right; exact W]. left.
  rewrite E in Hq. destruct (Hf3 q) as [E3|[perm E3]].
  - exfalso. rewrite E3, Hf1 in Hq.
    apply map_lookup_filter_Some in Hq as [_ Hq]. exact (Hq Hpre).
  - exists perm. rewrite E3 in Hq. injection Hq as <-.
    apply new_dir_umask. exact Hu1.
Qed.

End ReplaceWrites.


(* ===================================================================== *)
(** * More theorems on the concrete directory *)
(* ===================================================================== *)

Lemma range_id_perm (l : list (string * addr)) :
  (fun l : list (string * addr) => l) l ≡ₚ l.
Proof. reflexivity. Qed.

Lemma example_node a :
  a < 4 -> exists nd, heap example_tree !! a = Some nd.
Proof.
  intros H. destruct a as [|[|[|[|a]]]]; [| | | |lia];
    eexists; vm_compute; reflexivity.
Qed.

(** [Root] on the deepest node of the example. *)
Lemma Root_example :
  New example_digest "src" example_disk example_state = Return 0 example_tree
  /\ Root 3 example_tree = Return 0 example_tree.
Proof.
  split; [vm_compute; reflexivity|].
  destruct (example_node 3 ltac:(lia)) as [nd Hnd].
  exact (proj1 (Root_returns_tree_root example_digest "src" example_disk
                  example_state 0 example_tree example_New)
               3 nd ltac:(lia) Hnd).
Defined.

(** [Table] and [Map] on the root of the example. *)
Lemma Table_example :
  New example_digest "src" example_disk example_state = Return 0 example_tree
  /\ exists g, Table 0 example_tree = Return (Some g) example_tree
               /\ Map 0 example_tree = Return (Some g) example_tree.
Proof.
  split; [vm_compute; reflexivity|].
  destruct (Table_of_root_is_global_index example_digest "src" example_disk
              example_state 0 example_tree example_New)
    as (g & HT & HM & _).
  exists g. split; [exact HT | exact HM].
Defined.

(** [Files] and [Directories] on the directory [src/b] of the example. *)
Lemma Files_example :
  New example_digest "src" example_disk example_state = Return 0 example_tree
  /\ exists fs ds,
       Files (fun l => l) 2 example_tree = Return fs example_tree
       /\ Directories (fun l => l) 2 example_tree = Return ds example_tree
       /\ (forall c, c ∈ fs -> c ∉ ds).
Proof.
  split; [vm_compute; reflexivity|].
  destruct (example_node 2 ltac:(lia)) as [nd Hnd].
  destruct (Files_and_Directories_split example_digest (fun l => l)
              range_id_perm "src" example_disk example_state 0 example_tree
              2 nd example_New ltac:(lia) Hnd)
    as (fs & ds & t & m & HF & HD & _ & _ & _ & _ & Hdis & _).
  exists fs, ds. split; [exact HF|]. split; [exact HD | exact Hdis].
Defined.

(** [Search] for [.txt] on the root of the example. *)
Lemma Search_example :
  New example_digest "src" example_disk example_state = Return 0 example_tree
  /\ exists found,
       Search (fun l => l) 0 ".txt" example_tree = Return found example_tree
       /\ forall c, c ∈ found ->
            exists cd pre post,
              0 < c /\ heap example_tree !! c = Some cd /\
              Path cd = pre +:+ ".txt" +:+ post.
Proof.
  split; [vm_compute; reflexivity|].
  destruct (example_node 0 ltac:(lia)) as [nd Hnd].
  destruct (Search_finds_matching_keys example_digest (fun l => l)
              range_id_perm "src" example_disk example_state 0 example_tree
              0 nd ".txt" example_New ltac:(lia) Hnd)
    as (found & t & m & HS & _ & _ & _ & Hp & _).
  exists found. split; [exact HS | exact Hp].
Defined.

(** The files of the example have no children. *)
Lemma leaves_example :
  New example_digest "src" example_disk example_state = Return 0 example_tree
  /\ forall a nd, 0 <= a -> heap example_tree !! a = Some nd ->
       Type_ nd <> Directory -> Nodes nd = [].
Proof.
  split; [vm_compute; reflexivity|].
  intros a nd Ha Hnd Hty.
  exact (proj1 (proj1 (only_directories_have_children example_digest "src"
                         example_disk example_state 0 example_tree
                         example_New a nd Ha Hnd) Hty)).
Defined.

(** Every file of the example can be read, so that [New] returns. *)
Lemma New_returns_example :
  os_Stat "src" example_state
  = Return (inr (mkFileInfo "src" (Z.lor ModeDir 493)))
           (log example_state (ReqStat "src") None)
  /\ (readable example_disk = true
      <-> exists root st',
            New example_digest "src" example_disk example_state
            = Return root st').
Proof.
  assert (Hs : os_Stat "src" example_state
               = Return (inr (mkFileInfo "src" (Z.lor ModeDir 493)))
                        (log example_state (ReqStat "src") None))
    by (vm_compute; reflexivity).
  split; [exact Hs|].
  exact (New_returns_iff_readable example_digest "src" example_disk
           example_state _ _ Hs ltac:(vm_compute; reflexivity)
           (fun i => eq_refl)).
Defined.

(** The root of the example. *)
Lemma root_fields_example :
  New example_digest "src" example_disk example_state = Return 0 example_tree
  /\ exists rd, heap example_tree !! 0 = Some rd
                /\ Path rd = "src" /\ Name rd = basename "src"
                /\ Dirname rd = filepath.Dir (basename "src").
Proof.
  split; [vm_compute; reflexivity|].
  destruct (root_fields example_digest "src" example_disk example_state 0
              example_tree example_New)
    as (rd & Hrd & Hp & Hn & Hd & _).
  exists rd. split; [exact Hrd|]. split; [exact Hp|].
  split; [exact Hn | exact Hd].
Defined.

(** The other nodes of the example. *)
Lemma child_fields_example :
  New example_digest "src" example_disk example_state = Return 0 example_tree
  /\ names_ok example_disk = true
  /\ forall a nd, 0 < a -> heap example_tree !! a = Some nd ->
       exists p pd,
         parent nd = Some p /\ heap example_tree !! p = Some pd
         /\ filepath.valid_name (Name nd) = true
         /\ Path nd = filepath.Join (Path pd) (Name nd)
         /\ Dirname nd = filepath.Clean (Path pd).
Proof.
  split; [vm_compute; reflexivity|]. split; [vm_compute; reflexivity|].
  exact (child_fields example_digest "src" example_disk example_state 0
           example_tree example_New ltac:(vm_compute; reflexivity)).
Defined.

(** [Replicate] on the root of the example keeps the mode of the file
    that the destination holds beforehand. *)
Lemma Replicate_keeps_example :
  files (world occupied_tree) !! ["work"; "dst"; "src"; "a.txt"]
  = Some (mkfobj 420 [x6f; x6c; x64])
  /\ exists o',
       files (world (final (Replicate (fun l => l) 0 "dst" occupied_tree)))
       !! ["work"; "dst"; "src"; "a.txt"] = Some o'
       /\ f_mode o' = 420%Z.
Proof.
  split; [vm_compute; reflexivity|].
  destruct (Replicate_keeps_modes (fun l => l) 0 "dst" occupied_tree
              ["work"; "dst"; "src"; "a.txt"] (mkfobj 420 [x6f; x6c; x64])
              ltac:(vm_compute; reflexivity))
    as (o' & Ho' & Hm & _).
  exists o'. split; [exact Ho' | exact Hm].
Defined.

(** [Replicate] on the root of the example returns, and has written
    every file. *)
Lemma Replicate_writes_example :
  Replicate (fun l => l) 0 "dst" example_tree
  = Return tt (final (Replicate (fun l => l) 0 "dst" example_tree))
  /\ exists fs,
       Files (fun l => l) 0 example_tree = Return fs example_tree
       /\ forall f, f ∈ fs ->
            exists fd,
              heap (final (Replicate (fun l => l) 0 "dst" example_tree)) !! f
              = Some fd /\ Type_ fd = File.
Proof.
  assert (H : Replicate (fun l => l) 0 "dst" example_tree
              = Return tt (final (Replicate (fun l => l) 0 "dst"
                                            example_tree)))
    by (vm_compute; reflexivity).
  split; [exact H|].
  destruct (Replicate_writes_every_file (fun l => l) 0 "dst" example_tree
              _ H) as (fs & HF & _ & HW).
  exists fs. split; [exact HF|]. intros f Hf.
  destruct (HW f Hf) as (fd & Hfd & Hty & _).
  exists fd. split; [exact Hfd | exact Hty].
Defined.

(** No two nodes of the example have the same path. *)
Lemma lookup_example :
  New example_digest "src" example_disk example_state = Return 0 example_tree
  /\ names_ok example_disk = true /\ distinct_names example_disk = true
  /\ forall a b x y,
       0 <= a -> 0 <= b ->
       heap example_tree !! a = Some x -> heap example_tree !! b = Some y ->
       Path x = Path y -> a = b.
Proof.
  split; [vm_compute; reflexivity|].
  split; [vm_compute; reflexivity|].
  split; [vm_compute; reflexivity|].
  exact (proj1 (lookup_finds_the_node example_digest "src" example_disk
                  example_state 0 example_tree example_New
                  ltac:(vm_compute; reflexivity)
                  ltac:(vm_compute; reflexivity))).
Defined.

(** [Files] on the directory [src/b] of the example finds its file. *)
Lemma Files_finds_example :
  New example_digest "src" example_disk example_state = Return 0 example_tree
  /\ names_ok example_disk = true /\ distinct_names example_disk = true
  /\ exists fs,
       Files (fun l => l) 2 example_tree = Return fs example_tree
       /\ forall a x, 0 <= a -> heap example_tree !! a = Some x ->
            parent x = Some 2 -> Type_ x = File -> a ∈ fs.
Proof.
  split; [vm_compute; reflexivity|].
  split; [vm_compute; reflexivity|].
  split; [vm_compute; reflexivity|].
  destruct (example_node 2 ltac:(lia)) as [nd Hnd].
  destruct (Files_finds_every_child example_digest (fun l => l)
              range_id_perm "src" example_disk example_state 0 example_tree
              2 nd example_New ltac:(vm_compute; reflexivity)
              ltac:(vm_compute; reflexivity) ltac:(lia) Hnd)
    as (fs & ds & HF & _ & HC & _).
  exists fs. split; [exact HF|]. intros a x Ha Hx Hp Hty.
  exact (proj1 (HC a x Ha Hx Hp) Hty).
Defined.

(** [URI] on the file [src/a.txt] of the example, in the working
    directory [/work]. *)
Lemma URI_example :
  filepath.IsAbs (cwd (world example_tree)) = true
  /\ exists uri st1,
       URI 1 example_tree = Return uri st1 /\ filepath.IsAbs uri = true.
Proof.
  split; [vm_compute; reflexivity|].
  destruct (example_node 1 ltac:(lia)) as [nd Hnd].
  destruct (URI_is_absolute 1 example_tree nd Hnd
              ltac:(vm_compute; reflexivity))
    as [(uri & st1 & E & Ha & _)|(_ & [f Hf] & _)].
  - exists uri, st1. split; [exact E | exact Ha].
  - exfalso. clear Hnd. vm_compute in Hf. discriminate Hf.
Defined.

(** [Replace] on the root of the example, where the destination holds an
    older copy. *)
Lemma Replace_example :
  exists_ "dst" occupied_tree
  = Return true (final (exists_ "dst" occupied_tree))
  /\ Replace (fun l => l) 0 "dst" occupied_tree
     = Return tt (final (Replace (fun l => l) 0 "dst" occupied_tree))
  /\ exists fs,
       Files (fun l => l) 0 occupied_tree = Return fs occupied_tree
       /\ forall q o,
            files (world (final (Replace (fun l => l) 0 "dst"
                                         occupied_tree))) !! q = Some o ->
            resolve (world occupied_tree) "dst" `prefix_of` q ->
            (exists perm, o = new_dir (world occupied_tree) perm)
            \/ written fs (final (Replace (fun l => l) 0 "dst"
                                          occupied_tree)) "dst" q.
Proof.
  assert (Hex : exists_ "dst" occupied_tree
                = Return true (final (exists_ "dst" occupied_tree)))
    by (vm_compute; reflexivity).
  assert (H : Replace (fun l => l) 0 "dst" occupied_tree
              = Return tt (final (Replace (fun l => l) 0 "dst"
                                          occupied_tree)))
    by (vm_compute; reflexivity).
  split; [exact Hex|]. split; [exact H|].
  destruct (Replace_leaves_nothing_old (fun l => l) 0 "dst" occupied_tree
              _ _ Hex H) as (fs & HF & _ & _ & HB).
  exists fs. split; [exact HF | exact HB].
Defined.
